(** * libunwindstack memory layer (Memory.cpp): a shallow embedding

    The development follows [Memory.cpp] function by function.  It fixes the
    LP64 data model: [size_t], [uintptr_t], [uint64_t] and [long] are 64 bits
    wide, so the [#if !defined(__LP64__)] guard of [MemoryRemote::Read] is
    compiled out and the casts between [uint64_t] and [size_t] are
    identities.  Unsigned 64-bit values are integers of [Z] in
    [0, 2^64), every operation that can wrap is written with [wrap64].

    A call [Read(addr, dst, size)] is modelled by its result: the returned
    byte count together with the bytes the call stored at the start of
    [dst].  Objects whose [Read] touches mutable state (the operating
    system, the strategy hint of a remote memory, the page cache) thread
    that state explicitly; a virtual call through [Memory*] is a call of a
    function of type [Reader].

    What lies outside the file is a parameter: the file system and the
    system calls are records of functions ([FileSystem], [Kernel.t]), the
    declarations of the headers (container types, cache constants) are
    modelled from the specification and marked as such.  The byte order is
    little-endian.  A direct [memcpy] from a raw address of the calling
    process faults where the address is not mapped readable: a call that
    makes one ends in an [Outcome], a return or a fault. *)

From Stdlib Require Import ZArith Lia.
From Stdlib.Strings Require Import Byte.
From stdpp Require Import base numbers list option sorting gmap strings.

Local Open Scope Z_scope.
#[local] Set Warnings "-notation-for-abbreviation".

(** ** 64-bit unsigned arithmetic *)

Definition UINT64_MAX : Z := 2 ^ 64 - 1.
Definition UINTPTR_MAX : Z := UINT64_MAX.

Definition wrap64 (x : Z) : Z := x mod 2 ^ 64.

Definition add64 (a b : Z) : Z := wrap64 (a + b).
Definition sub64 (a b : Z) : Z := wrap64 (a - b).
Definition shl64 (a n : Z) : Z := wrap64 (Z.shiftl a n).

(** [__builtin_add_overflow(a, b, &r)]: the flag and the wrapped sum. *)
Definition add_overflow (a b : Z) : bool * Z :=
  (UINT64_MAX <? a + b, wrap64 (a + b)).

(** [__builtin_sub_overflow(a, b, &r)]. *)
Definition sub_overflow (a b : Z) : bool * Z :=
  (a <? b, wrap64 (a - b)).

(** ** Bytes and copies *)

(** What a [Read] call yields: the count it returns and the bytes it put
    at the start of the destination. *)
Definition ReadResult : Type := Z * list byte.

Definition copied (r : ReadResult) : Z := r.1.
Definition dst_bytes (r : ReadResult) : list byte := r.2.

Definition no_read : ReadResult := (0, []).

(** [memcpy(dst, base + off, n)]: the [n] bytes found at [base + off]. *)
Definition memcpy_from (base : list byte) (off n : Z) : list byte :=
  take (Z.to_nat n) (drop (Z.to_nat off) base).

(** The contents of a buffer [dst] after [bytes] were stored at its start. *)
Definition store_at_start (dst bytes : list byte) : list byte :=
  bytes ++ drop (length bytes) dst.

(** [strnlen(s, maxlen)]: index of the first zero byte among the first
    [maxlen] bytes, [maxlen] if there is none. *)
Fixpoint strnlen_nat (s : list byte) (maxlen : nat) {struct maxlen} : nat :=
  match maxlen with
  | O => O
  | S n =>
    match s with
    | [] => O
    | b :: t => if Byte.eqb b x00 then O else S (strnlen_nat t n)
    end
  end.

Definition strnlen (s : list byte) (maxlen : Z) : Z :=
  Z.of_nat (strnlen_nat s (Z.to_nat maxlen)).

(** Native (little-endian) value of a sequence of bytes, as read through a
    [uint64_t*]. *)
Fixpoint le_value (bs : list byte) : Z :=
  match bs with
  | [] => 0
  | b :: t => Z.of_N (Byte.to_N b) + 256 * le_value t
  end.

(** ** The read contract *)

(** A memory object over a store [S]: [Read(addr, dst, size)]. *)
Definition Reader (S : Type) : Type := Z → Z → S → ReadResult * S.

(** A [Read] that neither consults nor changes the store. *)
Definition pure_reader {S : Type} (f : Z → Z → ReadResult) : Reader S :=
  λ addr size s, (f addr size, s).

Module Memory.
Section Memory.
Context {S : Type}.
Variable Read : Reader S.

(** [Memory::ReadFully]: the flag and the bytes put into [dst]. *)
Definition ReadFully (addr size : Z) (s : S) : (bool * list byte) * S :=
  let '((rc, bytes), s') := Read addr size s in
  ((rc =? size, bytes), s').

(** The [for] loop of [Memory::ReadString].  [buffer] is the local
    256-byte array, [dst] the caller's string.  Every round that does not
    return advances [offset] by a non-zero [size]; [None] is a round
    budget that ran out. *)
Fixpoint ReadString_loop (fuel : nat) (addr max_read offset : Z)
    (buffer dst : list byte) (s : S) : option ((bool * list byte) * S) :=
  match fuel with
  | O => if offset <? max_read then None else Some ((false, dst), s)
  | Datatypes.S fuel' =>
    if offset <? max_read then
      let read := Z.min 256 (max_read - offset) in
      let '((size, bytes), s1) := Read (add64 addr offset) read s in
      let buffer1 := store_at_start buffer bytes in
      if size =? 0 then Some ((false, dst), s1)
      else
        let length := strnlen buffer1 size in
        if length <? size then
          if offset =? 0 then Some ((true, memcpy_from buffer1 0 length), s1)
          else
            let dst1 := replicate (Z.to_nat (add64 offset length)) x00 in
            let '((ok, bytes2), s2) := ReadFully addr (add64 offset length) s1 in
            Some ((ok, store_at_start dst1 bytes2), s2)
        else
          ReadString_loop fuel' addr max_read (add64 offset size) buffer1 dst s1
    else Some ((false, dst), s)
  end.

(** [Memory::ReadString(addr, dst, max_read)]; [buffer] stands for the
    indeterminate initial contents of the local array.  [max_read] rounds
    are enough whenever [Read] returns at most what it was asked for. *)
Definition ReadString (addr max_read : Z) (buffer dst : list byte) (s : S)
    : option ((bool * list byte) * S) :=
  ReadString_loop (Z.to_nat max_read) addr max_read 0 buffer dst s.
End Memory.
End Memory.

(** ** Buffer memory *)

Module MemoryBuffer.
Record t : Type := mk { raw_ : list byte; size_ : Z }.

(** The object owns [size_] bytes at [raw_]. *)
Definition wf (m : t) : Prop := Z.of_nat (length (raw_ m)) = size_ m.

Definition of_bytes (bs : list byte) : t := mk bs (Z.of_nat (length bs)).

(** [MemoryBuffer::Read]. *)
Definition Read (m : t) (addr size : Z) : ReadResult :=
  if size_ m <=? addr then no_read
  else
    let bytes_left := size_ m - addr in
    let actual_len := Z.min bytes_left size in
    (actual_len, memcpy_from (raw_ m) addr actual_len).

(** [MemoryBuffer::GetPtr]: [None] for [nullptr]; a pointer [&raw_[offset]]
    is the bytes of the buffer from [offset] on. *)
Definition GetPtr (m : t) (offset : Z) : option (list byte) :=
  if offset <? size_ m then Some (drop (Z.to_nat offset) (raw_ m)) else None.

Definition reader {S : Type} (m : t) : Reader S := pure_reader (Read m).
End MemoryBuffer.

(** ** The operating system, as far as files are concerned *)

(** What [open], [fstat], [mmap] and [getpagesize] answer.  [file_contents]
    is [None] when [open] or [fstat] fails, otherwise the bytes of the file
    ([st_size] is their number); [mmap_ok file len off] tells whether
    mapping [len] bytes of [file] at file offset [off] succeeds. *)
Record FileSystem : Type := {
  getpagesize : Z;
  file_contents : string → option (list byte);
  mmap_ok : string → Z → Z → bool;
}.

(** ** Mapped-file memory *)

Module MemoryFileAtOffset.
(** [data_] is [None] for [nullptr], otherwise the mapped bytes from the
    address [data_] on. *)
Record t : Type := mk { data_ : option (list byte); offset_ : Z; size_ : Z }.

Definition wf (m : t) : Prop :=
  ∃ bs, data_ m = Some bs ∧ Z.of_nat (length bs) = size_ m.

Definition Size (m : t) : Z := size_ m.

(** [MemoryFileAtOffset::Clear]. *)
Definition Clear (m : t) : t := mk None (offset_ m) (size_ m).

(** The [munmap] call of [MemoryFileAtOffset::Clear], if it makes one: how
    far in front of [data_] the region starts, and its length. *)
Definition Clear_munmap (m : t) : option (Z * Z) :=
  match data_ m with
  | Some _ => Some (offset_ m, add64 (size_ m) (offset_ m))
  | None => None
  end.

(** [MemoryFileAtOffset::Init]: the flag and the object afterwards. *)
Definition Init (fs : FileSystem) (m : t) (file : string) (offset size : Z)
    : bool * t :=
  let m := Clear m in
  match file_contents fs file with
  | None => (false, m)
  | Some contents =>
    let st_size := Z.of_nat (length contents) in
    if st_size <=? offset then (false, m)
    else
      let offset_ := Z.land offset (getpagesize fs - 1) in
      let aligned_offset := Z.land offset (Z.lnot (getpagesize fs - 1)) in
      if (st_size <? aligned_offset) || (st_size <? offset)
      then (false, mk None offset_ (size_ m))
      else
        let size0 := st_size - aligned_offset in
        let '(overflow, max_size) := add_overflow size offset_ in
        let size1 :=
          if negb overflow && (max_size <? size0) then max_size else size0 in
        if mmap_ok fs file size1 aligned_offset then
          let map := memcpy_from contents aligned_offset size1 in
          (true, mk (Some (drop (Z.to_nat offset_) map)) offset_
                    (sub64 size1 offset_))
        else (false, mk None offset_ size1)
  end.

(** [MemoryFileAtOffset::Read] on an object that holds its mapping.  An
    object without one ([data_] null after [Clear] or after an [Init] that
    failed) keeps its old [size_]: [Read] still returns 0 at or above it,
    and below it the code copies from the null pointer, memory the object
    does not own.  [Read_copies_from_null] tells when; what [Read] gives
    for such a call is not an answer of the code, and no property is
    stated of it. *)
Definition Read (m : t) (addr size : Z) : ReadResult :=
  if size_ m <=? addr then no_read
  else
    let bytes_left := size_ m - addr in
    let actual_len := Z.min bytes_left size in
    (actual_len, memcpy_from (default [] (data_ m)) addr actual_len).

(** Whether [Read(addr, dst, size)] reaches its [memcpy] with a null
    [data_] and bytes to copy. *)
Definition Read_copies_from_null (m : t) (addr size : Z) : bool :=
  match data_ m with
  | Some _ => false
  | None => (addr <? size_ m) && (0 <? size)
  end.

Definition reader {S : Type} (m : t) : Reader S := pure_reader (Read m).
End MemoryFileAtOffset.

(** ** Range memory *)

Module MemoryRange.
Record t (S : Type) : Type := mk {
  memory_ : Reader S;
  begin_ : Z;
  length_ : Z;
  offset_ : Z;
}.
Arguments mk {S} _ _ _ _.
Arguments memory_ {S} _.
Arguments begin_ {S} _.
Arguments length_ {S} _.
Arguments offset_ {S} _.

Definition offset {S} (m : t S) : Z := offset_ m.
Definition length {S} (m : t S) : Z := length_ m.

(** [MemoryRange::Read]. *)
Definition Read {S} (m : t S) : Reader S := λ addr size s,
  if addr <? offset_ m then (no_read, s)
  else
    let read_offset := sub64 addr (offset_ m) in
    if length_ m <=? read_offset then (no_read, s)
    else
      let read_length := Z.min size (length_ m - read_offset) in
      let '(overflow, read_addr) := add_overflow read_offset (begin_ m) in
      if overflow then (no_read, s)
      else memory_ m read_addr read_length s.
End MemoryRange.

(** ** Range-set memory *)

Module MemoryRanges.
Section MemoryRanges.
Context {S : Type}.

(** Modelled from the spec: the container type of [maps_] is declared in
    MemoryRange.h, which is not part of the sources.  The spec asks for
    "an ordered structure supporting smallest key greater than the query
    address lookup"; it is taken to be an ordered map with unique keys,
    kept as a list of entries in ascending key order. *)
Definition maps_t : Type := list (Z * MemoryRange.t S).

(** Modelled from the spec: [maps_.emplace(key, value)] on that ordered
    map; an entry whose key is already present is left as it is. *)
Fixpoint emplace (key : Z) (value : MemoryRange.t S) (maps : maps_t) : maps_t :=
  match maps with
  | [] => [(key, value)]
  | (k, v) :: rest =>
    if key <? k then (key, value) :: (k, v) :: rest
    else if key =? k then (k, v) :: rest
    else (k, v) :: emplace key value rest
  end.

(** Modelled from the spec: [maps_.upper_bound(addr)], the first entry in
    key order whose key is greater than [addr]; [None] for [end()]. *)
Fixpoint upper_bound (addr : Z) (maps : maps_t) : option (Z * MemoryRange.t S) :=
  match maps with
  | [] => None
  | (k, v) :: rest => if addr <? k then Some (k, v) else upper_bound addr rest
  end.

(** Keys in strictly ascending order, the invariant of the ordered map. *)
Definition ascending (maps : maps_t) : Prop := StronglySorted Z.lt (maps.*1).

Record t : Type := mk { maps_ : maps_t }.

Definition empty : t := mk [].

(** [MemoryRanges::Insert]. *)
Definition Insert (m : t) (memory : MemoryRange.t S) : t :=
  let '(overflow, sum) :=
    add_overflow (MemoryRange.offset memory) (MemoryRange.length memory) in
  let last_addr := if overflow then UINT64_MAX else sum in
  mk (emplace last_addr memory (maps_ m)).

(** [MemoryRanges::Read]. *)
Definition Read (m : t) : Reader S := λ addr size s,
  match upper_bound addr (maps_ m) with
  | Some entry => MemoryRange.Read entry.2 addr size s
  | None => (no_read, s)
  end.

(** The object after a sequence of [Insert] calls on a new one. *)
Definition inserted (ranges : list (MemoryRange.t S)) : t :=
  foldl Insert empty ranges.
End MemoryRanges.
Arguments maps_t : clear implicits.
Arguments t : clear implicits.
End MemoryRanges.

(** ** Offline snapshot memory *)

Module MemoryOffline.
Record t (S : Type) : Type := mk { memory_ : option (MemoryRange.t S) }.
Arguments mk {S} _.
Arguments memory_ {S} _.

(** A default-constructed [MemoryFileAtOffset]; [Init] overwrites every
    field before it succeeds. *)
Definition new_file : MemoryFileAtOffset.t := MemoryFileAtOffset.mk None 0 0.

(** [MemoryOffline::Init]; the [size] argument of the file's [Init] is
    left at its default, [UINT64_MAX]. *)
Definition Init {S} (fs : FileSystem) (m : t S) (file : string) (offset : Z)
    : bool * t S :=
  let '(ok, memory_file) :=
    MemoryFileAtOffset.Init fs new_file file offset UINT64_MAX in
  if negb ok then (false, m)
  else
    let '((ok, bytes), _) :=
      Memory.ReadFully (MemoryFileAtOffset.reader memory_file) 0 8 tt in
    if negb ok then (false, m)
    else
      let start := le_value bytes in
      let size := MemoryFileAtOffset.Size memory_file in
      let '(overflow, size) := sub_overflow size 8 in
      if overflow then (false, m)
      else
        (true, mk (Some (MemoryRange.mk
                           (MemoryFileAtOffset.reader memory_file) 8 size start))).

(** [MemoryOffline::Read]. *)
Definition Read {S} (m : t S) : Reader S := λ addr size s,
  match memory_ m with
  | None => (no_read, s)
  | Some memory => MemoryRange.Read memory addr size s
  end.
End MemoryOffline.

Module MemoryOfflineBuffer.
Record t : Type := mk { data_ : list byte; start_ : Z; end_ : Z }.

(** [MemoryOfflineBuffer::Read]. *)
Definition Read (m : t) (addr size : Z) : ReadResult :=
  if (addr <? start_ m) || (end_ m <=? addr) then no_read
  else
    let read_length := Z.min size (end_ m - addr) in
    (read_length, memcpy_from (data_ m) (addr - start_ m) read_length).

Definition reader {S : Type} (m : t) : Reader S := pure_reader (Read m).
End MemoryOfflineBuffer.

(** [Memory::CreateFileMemory]: [None] for [nullptr]. *)
Definition CreateFileMemory (fs : FileSystem) (path : string) (offset size : Z)
    : option MemoryFileAtOffset.t :=
  let '(ok, memory) :=
    MemoryFileAtOffset.Init fs MemoryOffline.new_file path offset size in
  if ok then Some memory else None.

(** [Memory::CreateOfflineMemory]. *)
Definition CreateOfflineMemory (data : list byte) (start end_ : Z)
    : MemoryOfflineBuffer.t :=
  MemoryOfflineBuffer.mk data start end_.

Module MemoryOfflineParts.
(** The loop of [MemoryOfflineParts::Read] over [memories_]. *)
Fixpoint Read_loop {S} (memories : list (MemoryOffline.t S)) : Reader S :=
  λ addr size s,
  match memories with
  | [] => (no_read, s)
  | memory :: rest =>
    let '((bytes, data), s') := MemoryOffline.Read memory addr size s in
    if bytes =? 0 then Read_loop rest addr size s'
    else ((bytes, data), s')
  end.

Record t (S : Type) : Type := mk { memories_ : list (MemoryOffline.t S) }.
Arguments mk {S} _.
Arguments memories_ {S} _.

(** [MemoryOfflineParts::Read]. *)
Definition Read {S} (m : t S) : Reader S := λ addr size s,
  match memories_ m with
  | [] => (no_read, s)
  | _ => Read_loop (memories_ m) addr size s
  end.
End MemoryOfflineParts.

(** ** The operating system, as far as process memory is concerned *)

(** The two routes into another process, as entered by [MemoryRemote] and
    [MemoryLocal]; the ghost log of a run records them in call order. *)
Inductive Call : Type :=
  | CallProcessVmRead (pid remote_src len : Z)
  | CallPtraceRead (pid addr bytes : Z).

(** The state of the system: the world [W] the system calls act on, and
    the ghost log (oldest call first). *)
Record Sys (W : Type) : Type := mkSys { world : W; calls : list Call }.
Arguments mkSys {W} _ _.
Arguments world {W} _.
Arguments calls {W} _.

Definition log_call {W} (c : Call) (s : Sys W) : Sys W :=
  mkSys (world s) (calls s ++ [c]).

Definition set_world {W} (w : W) (s : Sys W) : Sys W := mkSys w (calls s).

Module Kernel.
(** What the system calls answer in a world [W].
    [process_vm_readv pid local_len remote_iovs w]: [None] for a return
    of -1, otherwise the bytes transferred into the local descriptor
    (the return value is their number).
    [ptrace_peektext pid addr w]: [None] for -1 with [errno] set,
    otherwise the 8 bytes of the word as they lie in memory.
    [own_memory w a]: the byte at address [a] of the calling process,
    [None] where [a] is not mapped readable: a load from there faults. *)
Record t (W : Type) : Type := mk {
  getpagesize : Z;
  getpid : Z;
  process_vm_readv : Z → Z → list (Z * Z) → W → option (list byte) * W;
  ptrace_peektext : Z → Z → W → option (list byte) * W;
  own_memory : W → Z → option byte;
}.
Arguments mk {W} _ _ _ _ _.
Arguments getpagesize {W} _.
Arguments getpid {W} _.
Arguments process_vm_readv {W} _ _ _ _ _.
Arguments ptrace_peektext {W} _ _ _ _.
Arguments own_memory {W} _ _ _.
End Kernel.

Section ProcessReads.
Context {W : Type}.
Variable os : Kernel.t W.

Definition kMaxIovecs : nat := 64.

(** The inner loop of [ProcessVmRead], entered with [slots] free
    descriptors: [None] is the [EFAULT] return, otherwise the advanced
    [cur], the remaining [len] and the descriptors filled in. *)
Fixpoint fill_iovecs (slots : nat) (cur len : Z) (src_iovs : list (Z * Z))
    : option (Z * Z * list (Z * Z)) :=
  match slots with
  | O => Some (cur, len, src_iovs)
  | Datatypes.S slots' =>
    if 0 <? len then
      if UINTPTR_MAX <=? cur then None
      else
        let misalignment := Z.land cur (Kernel.getpagesize os - 1) in
        let iov_len := sub64 (Kernel.getpagesize os) misalignment in
        let iov_len := Z.min iov_len len in
        let len' := len - iov_len in
        let '(overflow, cur') := add_overflow cur iov_len in
        if overflow then None
        else fill_iovecs slots' cur' len' (src_iovs ++ [(cur, iov_len)])
    else Some (cur, len, src_iovs)
  end.

(** The outer loop of [ProcessVmRead].  Each round takes at least one
    byte off [len], so [len] rounds are enough. *)
Fixpoint ProcessVmRead_loop (fuel : nat) (pid cur len total_read : Z)
    (dst : list byte) (s : Sys W) : ReadResult * Sys W :=
  match fuel with
  | O => ((total_read, dst), s)
  | Datatypes.S fuel' =>
    if 0 <? len then
      match fill_iovecs kMaxIovecs cur len [] with
      | None => ((total_read, dst), s)
      | Some (cur', len', src_iovs) =>
        match Kernel.process_vm_readv os pid len src_iovs (world s) with
        | (None, w') => ((total_read, dst), set_world w' s)
        | (Some data, w') =>
          let rc := Z.of_nat (length data) in
          ProcessVmRead_loop fuel' pid cur' len' (total_read + rc)
            (dst ++ data) (set_world w' s)
        end
      end
    else ((total_read, dst), s)
  end.

(** [ProcessVmRead(pid, remote_src, dst, len)]. *)
Definition ProcessVmRead (pid remote_src len : Z) (s : Sys W)
    : ReadResult * Sys W :=
  ProcessVmRead_loop (Z.to_nat len) pid remote_src len 0 []
    (log_call (CallProcessVmRead pid remote_src len) s).

(** [PtraceReadLong]: the word at [addr], [None] for [false]. *)
Definition PtraceReadLong (pid addr : Z) (s : Sys W)
    : option (list byte) * Sys W :=
  let '(value, w') := Kernel.ptrace_peektext os pid addr (world s) in
  (value, set_world w' s).

(** The [for] loop of [PtraceRead] over the [count] whole words: [inl] is a
    return from inside the loop, [inr] the state after it. *)
Fixpoint PtraceRead_words (count : nat) (pid addr bytes_read : Z)
    (dst : list byte) (s : Sys W)
    : (ReadResult + (Z * Z * list byte)) * Sys W :=
  match count with
  | O => (inr (addr, bytes_read, dst), s)
  | Datatypes.S count' =>
    match PtraceReadLong pid addr s with
    | (None, s') => (inl (bytes_read, dst), s')
    | (Some data, s') =>
      PtraceRead_words count' pid (add64 addr 8) (bytes_read + 8)
        (dst ++ memcpy_from data 0 8) s'
    end
  end.

(** What follows the alignment step of [PtraceRead]. *)
Definition PtraceRead_aligned (pid addr bytes bytes_read : Z)
    (dst : list byte) (s : Sys W) : ReadResult * Sys W :=
  match PtraceRead_words (Z.to_nat (bytes / 8)) pid addr bytes_read dst s with
  | (inl result, s') => (result, s')
  | (inr (addr', bytes_read', dst'), s') =>
    let left_over := Z.land bytes 7 in
    if left_over =? 0 then ((bytes_read', dst'), s')
    else
      match PtraceReadLong pid addr' s' with
      | (None, s'') => ((bytes_read', dst'), s'')
      | (Some data, s'') =>
        ((bytes_read' + left_over, dst' ++ memcpy_from data 0 left_over), s'')
      end
  end.

(** [PtraceRead(pid, addr, dst, bytes)]. *)
Definition PtraceRead (pid addr bytes : Z) (s : Sys W) : ReadResult * Sys W :=
  let s := log_call (CallPtraceRead pid addr bytes) s in
  let '(overflow, max_size) := add_overflow addr bytes in
  if overflow then (no_read, s)
  else
    let align_bytes := Z.land addr 7 in
    if align_bytes =? 0 then PtraceRead_aligned pid addr bytes 0 [] s
    else
      match PtraceReadLong pid (Z.land addr (Z.lnot 7)) s with
      | (None, s') => (no_read, s')
      | (Some data, s') =>
        let copy_bytes := Z.min (8 - align_bytes) bytes in
        PtraceRead_aligned pid (add64 addr copy_bytes) (bytes - copy_bytes)
          copy_bytes (memcpy_from data align_bytes copy_bytes) s'
      end.

(** [memcpy(dst, (void* )addr, size)] inside the calling process: the
    bytes at [addr, addr + size), and [None] when the copy faults, which it
    does when one of these bytes is not mapped readable or lies beyond the
    last address. *)
Definition own_bytes (w : W) (addr size : Z) : option (list byte) :=
  mapM (λ i : nat,
          let a := addr + Z.of_nat i in
          if a <=? UINT64_MAX then Kernel.own_memory os w a else None)
       (seq 0 (Z.to_nat size)).
End ProcessReads.

(** ** Local-process memory *)

(** How a call that touches raw addresses ends: it returns a value, or
    the process takes a fault ([SIGSEGV]) and the call never returns. *)
Inductive Outcome (A : Type) : Type :=
  | Returns (a : A)
  | Faults.
Arguments Returns {A} _.
Arguments Faults {A}.

Module MemoryLocal.
(** [MemoryLocal::Read]: how the call ends, and the system as it leaves
    it.  The direct copy is made from the raw address, unchecked. *)
Definition Read {W} (os : Kernel.t W) (addr size : Z) (s : Sys W)
    : Outcome ReadResult * Sys W :=
  let '(result, s') := ProcessVmRead os (Kernel.getpid os) addr size s in
  if (copied result =? 0) && negb (size =? 0)
  then
    match own_bytes os (world s') addr size with
    | Some bytes => (Returns (size, bytes), s')
    | None => (Faults, s')
    end
  else (Returns result, s').
End MemoryLocal.

(** ** Remote-process memory *)

Module MemoryRemote.
(** The two values a non-null [read_redirect_func_] takes. *)
Inductive read_func : Type := ProcessVmRead_func | PtraceRead_func.

(** [read_redirect_func_] is [None] while it holds 0. *)
Record t : Type := mk { pid_ : Z; read_redirect_func_ : option read_func }.

(** Modelled from the spec: the constructor is declared in MemoryRemote.h,
    which is not part of the sources; a new object is in the state
    "Unresolved" of the remote-read strategy. *)
Definition create (pid : Z) : t := mk pid None.

Definition set_redirect (m : t) (f : read_func) : t := mk (pid_ m) (Some f).

(** Calling through the stored function pointer. *)
Definition call {W} (os : Kernel.t W) (f : read_func)
    : Z → Z → Z → Sys W → ReadResult * Sys W :=
  match f with
  | ProcessVmRead_func => ProcessVmRead os
  | PtraceRead_func => PtraceRead os
  end.

(** The log entry made on entering the function behind the pointer. *)
Definition entry (f : read_func) (pid addr size : Z) : Call :=
  match f with
  | ProcessVmRead_func => CallProcessVmRead pid addr size
  | PtraceRead_func => CallPtraceRead pid addr size
  end.

(** [MemoryRemote::Read]: the result, the object and the system
    afterwards. *)
Definition Read {W} (os : Kernel.t W) (m : t) (addr size : Z) (s : Sys W)
    : ReadResult * (t * Sys W) :=
  match read_redirect_func_ m with
  | Some read_func =>
    let '(result, s') := call os read_func (pid_ m) addr size s in
    (result, (m, s'))
  | None =>
    let '(bytes, s1) := ProcessVmRead os (pid_ m) addr size s in
    if 0 <? copied bytes
    then (bytes, (set_redirect m ProcessVmRead_func, s1))
    else
      let '(bytes, s2) := PtraceRead os (pid_ m) addr size s1 in
      if 0 <? copied bytes
      then (bytes, (set_redirect m PtraceRead_func, s2))
      else (bytes, (m, s2))
  end.

(** The object as a memory over the store holding it and the system. *)
Definition reader {W} (os : Kernel.t W) : Reader (t * Sys W) :=
  λ addr size '(m, s), Read os m addr size s.

(** A run of [Read] calls on one object, in order. *)
Fixpoint Reads {W} (os : Kernel.t W) (m : t) (requests : list (Z * Z))
    (s : Sys W) : list ReadResult * (t * Sys W) :=
  match requests with
  | [] => ([], (m, s))
  | (addr, size) :: rest =>
    let '(r, (m', s')) := Read os m addr size s in
    let '(rs, final) := Reads os m' rest s' in
    (r :: rs, final)
  end.
End MemoryRemote.

(** ** The factory of process memory *)

(** What [Memory::CreateProcessMemory] hands out behind the [Memory]
    interface: an object of one of the two classes. *)
Inductive ProcessMemory : Type :=
  | LocalMemory
  | RemoteMemory (m : MemoryRemote.t).

(** [Memory::CreateProcessMemory]. *)
Definition CreateProcessMemory {W} (os : Kernel.t W) (pid : Z) : ProcessMemory :=
  if pid =? Kernel.getpid os then LocalMemory
  else RemoteMemory (MemoryRemote.create pid).

(** [Read] through the interface: the call goes to the class of the
    object. *)
Definition ProcessMemory_Read {W} (os : Kernel.t W) (m : ProcessMemory)
    (addr size : Z) (s : Sys W)
    : Outcome ReadResult * (ProcessMemory * Sys W) :=
  match m with
  | LocalMemory =>
    let '(r, s') := MemoryLocal.Read os addr size s in (r, (LocalMemory, s'))
  | RemoteMemory m =>
    let '(r, (m', s')) := MemoryRemote.Read os m addr size s in
    (Returns r, (RemoteMemory m', s'))
  end.

(** ** Paging cache *)

Module MemoryCacheBase.
Section MemoryCacheBase.
Context {S : Type}.

(** Modelled from the spec: [kCacheBits], [kCacheSize] and [kCacheMask]
    are declared in MemoryCache.h, which is not part of the sources.  The
    page is "fixed-size, size = 1 << kCacheBits"; the number of bits is
    left as a parameter. *)
Variable kCacheBits : Z.
Definition kCacheSize : Z := Z.shiftl 1 kCacheBits.
Definition kCacheMask : Z := kCacheSize - 1.

Variable impl_ : Reader S.

(** Modelled from the spec: [CacheDataType] is declared in MemoryCache.h;
    it is "a mapping from page index to page bytes".  A slot made by
    [( *cache)[addr_page]] starts out zero-filled. *)
Definition new_slot : list byte := replicate (Z.to_nat kCacheSize) x00.

(** The block of [InternalCachedRead] that appears once per page: look
    the page up; if it is absent make its slot, fill it with [ReadFully]
    and erase it again when that fails.  [cache_dst] is [None] exactly
    when the fill failed. *)
Definition find_or_fill (addr_page : Z) (cache : gmap Z (list byte)) (s : S)
    : option (list byte) * (gmap Z (list byte) * S) :=
  match cache !! addr_page with
  | Some cache_dst => (Some cache_dst, (cache, s))
  | None =>
    let cache1 := <[addr_page := new_slot]> cache in
    let '((ok, bytes), s1) :=
      Memory.ReadFully impl_ (shl64 addr_page kCacheBits) kCacheSize s in
    let cache_dst := store_at_start new_slot bytes in
    let cache2 := <[addr_page := cache_dst]> cache1 in
    if ok then (Some cache_dst, (cache2, s1))
    else (None, (delete addr_page cache2, s1))
  end.

(** [MemoryCacheBase::InternalCachedRead]. *)
Definition InternalCachedRead (addr size : Z) (cache : gmap Z (list byte))
    (s : S) : ReadResult * (gmap Z (list byte) * S) :=
  let addr_page := Z.shiftr addr kCacheBits in
  match find_or_fill addr_page cache s with
  | (None, (cache1, s1)) =>
    let '(r, s2) := impl_ addr size s1 in (r, (cache1, s2))
  | (Some cache_dst, (cache1, s1)) =>
    let max_read := sub64 (shl64 (addr_page + 1) kCacheBits) addr in
    if size <=? max_read then
      ((size, memcpy_from cache_dst (Z.land addr kCacheMask) size),
       (cache1, s1))
    else
      let first := memcpy_from cache_dst (Z.land addr kCacheMask) max_read in
      let addr_page := add64 addr_page 1 in
      match find_or_fill addr_page cache1 s1 with
      | (None, (cache2, s2)) =>
        let '((bytes, data), s3) :=
          impl_ (shl64 addr_page kCacheBits) (sub64 size max_read) s2 in
        ((add64 bytes max_read, first ++ data), (cache2, s3))
      | (Some cache_dst, (cache2, s2)) =>
        ((size, first ++ memcpy_from cache_dst 0 (sub64 size max_read)),
         (cache2, s2))
      end
  end.
End MemoryCacheBase.
End MemoryCacheBase.

(** ** The two owners of a page cache *)

Module MemoryCache.
Section MemoryCache.
Context {S : Type}.
Variable kCacheBits : Z.
Variable impl_ : Reader S.

(** [MemoryCache::CachedRead] on the object's map [cache_]; the lock has
    no effect on one thread of control. *)
Definition CachedRead (addr size : Z) (cache_ : gmap Z (list byte)) (s : S)
    : ReadResult * (gmap Z (list byte) * S) :=
  MemoryCacheBase.InternalCachedRead kCacheBits impl_ addr size cache_ s.

(** [MemoryCache::Clear]. *)
Definition Clear (cache_ : gmap Z (list byte)) : gmap Z (list byte) := ∅.
End MemoryCache.
End MemoryCache.

Module MemoryThreadCache.
Section MemoryThreadCache.
Context {S : Type}.
Variable kCacheBits : Z.
Variable impl_ : Reader S.

(** The thread-specific values of the object's key: the map of each
    thread that has one, by thread; a thread without an entry is one for
    which [pthread_getspecific] returns [nullptr]. *)
Definition Tls : Type := gmap Z (gmap Z (list byte)).

(** [MemoryThreadCache::CachedRead], called by thread [self].
    [thread_cache_] tells whether the constructor got its key. *)
Definition CachedRead (thread_cache_ : bool) (self : Z) (addr size : Z)
    (tls : Tls) (s : S) : ReadResult * (Tls * S) :=
  if negb thread_cache_ then
    let '(r, s') := impl_ addr size s in (r, (tls, s'))
  else
    let '(cache, tls1) :=
      match tls !! self with
      | Some cache => (cache, tls)
      | None => (∅, <[self := ∅]> tls)
      end in
    let '(r, (cache', s')) :=
      MemoryCacheBase.InternalCachedRead kCacheBits impl_ addr size cache s in
    (r, (<[self := cache']> tls1, s')).

(** [MemoryThreadCache::Clear], called by thread [self] on an object that
    has its key. *)
Definition Clear (self : Z) (tls : Tls) : Tls :=
  match tls !! self with
  | Some _ => delete self tls
  | None => tls
  end.
End MemoryThreadCache.
End MemoryThreadCache.

(** ** Specification vocabulary *)

(** [r] is what a bounds-checked copy out of a source holding [content],
    of total size [N], yields for the request [(addr, size)]. *)
Definition is_bounded_copy (content : list byte) (N addr size : Z)
    (r : ReadResult) : Prop :=
  (addr < N → copied r = Z.min size (N - addr))
  ∧ (N ≤ addr → copied r = 0)
  ∧ Z.of_nat (length (dst_bytes r)) = copied r
  ∧ ∀ i : nat, Z.of_nat i < copied r →
      dst_bytes r !! i = content !! (Z.to_nat addr + i)%nat.

(** The read contract of section 4.1: a call copies between 0 and [size]
    bytes, and returns their number. *)
Definition obeys_contract {S : Type} (Read : Reader S) : Prop :=
  ∀ addr size s, 0 ≤ addr ≤ UINT64_MAX → 0 ≤ size →
    0 ≤ copied (Read addr size s).1 ≤ size
    ∧ Z.of_nat (length (dst_bytes (Read addr size s).1)) = copied (Read addr size s).1.

(** From [addr] on, the memory reads as one contiguous block of bytes
    [content]: a request at [addr + o] yields what a buffer holding
    [content] yields at [o]. *)
Definition reads_as_buffer {S : Type} (Read : Reader S) (addr : Z)
    (content : list byte) : Prop :=
  ∀ o n s, 0 ≤ o → 0 ≤ n →
    (Read (addr + o) n s).1 = MemoryBuffer.Read (MemoryBuffer.of_bytes content) o n.

(** [scan_at Read addr max_read buffer0 s0 offset buffer s]: the scan of
    [ReadString], entered with the local array [buffer0] in store [s0],
    comes to the head of its loop with these [offset], [buffer] and store,
    no terminator found so far. *)
Inductive scan_at {S : Type} (Read : Reader S) (addr max_read : Z)
    (buffer0 : list byte) (s0 : S) : Z → list byte → S → Prop :=
  | scan_start : scan_at Read addr max_read buffer0 s0 0 buffer0 s0
  | scan_next offset buffer s size bytes s1 :
      scan_at Read addr max_read buffer0 s0 offset buffer s →
      offset < max_read →
      Read (add64 addr offset) (Z.min 256 (max_read - offset)) s
        = ((size, bytes), s1) →
      size ≠ 0 →
      size ≤ strnlen (store_at_start buffer bytes) size →
      scan_at Read addr max_read buffer0 s0
        (add64 offset size) (store_at_start buffer bytes) s1.

(** The addresses a Range memory stands for: its window
    [offset, offset + length). *)
Definition covers {S : Type} (r : MemoryRange.t S) (addr : Z) : Prop :=
  MemoryRange.offset_ r ≤ addr < MemoryRange.offset_ r + MemoryRange.length_ r.

(** No address lies in the windows of two different ranges of the list. *)
Definition disjoint_windows {S : Type} (ranges : list (MemoryRange.t S)) : Prop :=
  ∀ r r' addr, r ∈ ranges → r' ∈ ranges → covers r addr → covers r' addr → r = r'.

(** Every page held by a cache map is the whole page of [content] with
    that index. *)
Definition holds_pages_of (kCacheBits : Z) (content : list byte)
    (cache : gmap Z (list byte)) : Prop :=
  ∀ p page, cache !! p = Some page →
    0 ≤ p
    ∧ (p + 1) * 2 ^ kCacheBits ≤ Z.of_nat (length content)
    ∧ page = memcpy_from content (p * 2 ^ kCacheBits) (2 ^ kCacheBits).

(** The [n] bytes a process holds from address [addr] on, its memory
    being [mem]. *)
Definition bytes_at (mem : Z → byte) (addr n : Z) : list byte :=
  (λ i : nat, mem (addr + Z.of_nat i)) <$> seq 0 (Z.to_nat n).

(** A system whose word read answers from the memory [mem] of the traced
    process at the addresses [readable] admits, fails at the others, and
    changes nothing. *)
Definition peeks_memory {W} (os : Kernel.t W) (mem : Z → byte)
    (readable : Z → bool) : Prop :=
  ∀ pid a w,
    Kernel.ptrace_peektext os pid a w =
      (if readable a then Some (bytes_at mem a 8) else None, w).

(** What a list of remote descriptors [(base, length)] designates in the
    memory [mem], in order. *)
Definition gather (mem : Z → byte) (iovs : list (Z * Z)) : list byte :=
  concat ((λ iov, bytes_at mem iov.1 iov.2) <$> iovs).

(** A system whose bulk call transfers everything the remote descriptors
    designate in the memory [mem] of the target, as far as the local
    descriptor has room, and changes nothing. *)
Definition transfers_memory {W} (os : Kernel.t W) (mem : Z → byte) : Prop :=
  ∀ pid local_len iovs w,
    Kernel.process_vm_readv os pid local_len iovs w =
      (Some (take (Z.to_nat local_len) (gather mem iovs)), w).

(** A system whose bulk call may stop early: it fails, or transfers some
    leading part of what the remote descriptors designate in [mem], and
    changes nothing. *)
Definition transfers_partially {W} (os : Kernel.t W) (mem : Z → byte) : Prop :=
  ∀ pid local_len iovs w,
    Kernel.process_vm_readv os pid local_len iovs w = (None, w)
    ∨ ∃ n : nat,
        Kernel.process_vm_readv os pid local_len iovs w =
          (Some (take n (gather mem iovs)), w).

(** The descriptors [iovs] follow one another from [cur] up to [cur'],
    each of them non-empty and inside one page. *)
Fixpoint chained (pagesize cur : Z) (iovs : list (Z * Z)) (cur' : Z) : Prop :=
  match iovs with
  | [] => cur' = cur
  | (base, iov_len) :: rest =>
    base = cur ∧ 0 < iov_len ∧ cur mod pagesize + iov_len ≤ pagesize
    ∧ chained pagesize (cur + iov_len) rest cur'
  end.

(** ** Sample objects *)

Module Samples.
(** "ab", a terminator, "c". *)
Definition text : list byte := [x61; x62; x00; x63].

Definition text_buffer : MemoryBuffer.t := MemoryBuffer.of_bytes text.

(** The same four bytes, offered as the two adjacent ranges [0,2) and
    [2,4) of a range set. *)
Definition text_ranges : MemoryRanges.t unit :=
  MemoryRanges.inserted
    [MemoryRange.mk (MemoryBuffer.reader text_buffer) 0 2 0;
     MemoryRange.mk (MemoryBuffer.reader text_buffer) 2 2 2].

(** "abc" and a terminator, offered as the two adjacent ranges [0,2) and
    [2,4). *)
Definition abc0_buffer : MemoryBuffer.t :=
  MemoryBuffer.of_bytes [x61; x62; x63; x00].

Definition split_ranges : MemoryRanges.t unit :=
  MemoryRanges.inserted
    [MemoryRange.mk (MemoryBuffer.reader abc0_buffer) 0 2 0;
     MemoryRange.mk (MemoryBuffer.reader abc0_buffer) 2 2 2].

(** "ab" and a terminator, nothing else. *)
Definition ab0_buffer : MemoryBuffer.t := MemoryBuffer.of_bytes [x61; x62; x00].

(** "ab" without a terminator. *)
Definition ab_buffer : MemoryBuffer.t := MemoryBuffer.of_bytes [x61; x62].

(** Sixteen bytes. *)
Definition sixteen : MemoryBuffer.t := MemoryBuffer.of_bytes (replicate 16 x2a).

Definition sixteen_file : MemoryFileAtOffset.t :=
  MemoryFileAtOffset.mk (Some (replicate 16 x2a)) 0 16.

(** A window of 3 bytes at 1 of a five-byte buffer, seen at addresses
    [16, 19). *)
Definition window : MemoryRange.t unit :=
  MemoryRange.mk
    (MemoryBuffer.reader (MemoryBuffer.of_bytes [x61; x62; x63; x64; x65]))
    1 3 16.

(** 200 bytes, the first hundred "a", the second hundred "b", and the
    ranges [0,100) and [100,200) over them. *)
Definition two_hundred : MemoryBuffer.t :=
  MemoryBuffer.of_bytes (replicate 100 x61 ++ replicate 100 x62).

Definition R1 : MemoryRange.t unit :=
  MemoryRange.mk (MemoryBuffer.reader two_hundred) 0 100 0.
Definition R2 : MemoryRange.t unit :=
  MemoryRange.mk (MemoryBuffer.reader two_hundred) 100 100 100.

(** A snapshot file: the start address 0x1000, then 100 content bytes
    whose values are their indices. *)
Definition snapshot_header : list byte := [x00; x10; x00; x00; x00; x00; x00; x00].

Definition snapshot_content : list byte :=
  (λ i : nat, default x00 (Byte.of_nat i)) <$> seq 0 100.

Definition snapshot_fs : FileSystem := {|
  getpagesize := 4096;
  file_contents name :=
    if String.eqb name "snapshot" then Some (snapshot_header ++ snapshot_content)
    else None;
  mmap_ok _ _ _ := true;
|}.

(** The mapped file a successful [Init] of the whole snapshot file leaves. *)
Definition snapshot_file : MemoryFileAtOffset.t :=
  (MemoryFileAtOffset.Init snapshot_fs MemoryOffline.new_file "snapshot" 0
     UINT64_MAX).2.

Definition snapshot : MemoryOffline.t unit :=
  (MemoryOffline.Init snapshot_fs (MemoryOffline.mk None) "snapshot" 0).2.

(** A source of 4100 bytes offered as the ranges [0,4096) and
    [4096,4100): the second page cannot be filled. *)
Definition page_and_a_bit : MemoryBuffer.t :=
  MemoryBuffer.of_bytes (replicate 4096 x61 ++ replicate 4 x62).

Definition paged_ranges : MemoryRanges.t unit :=
  MemoryRanges.inserted
    [MemoryRange.mk (MemoryBuffer.reader page_and_a_bit) 0 4096 0;
     MemoryRange.mk (MemoryBuffer.reader page_and_a_bit) 4096 4 4096].

(** A system where the bulk call is refused and the word read answers
    with eight bytes "*". *)
Definition ptrace_only : Kernel.t unit :=
  Kernel.mk 4096 100
    (λ _ _ _ w, (None, w))
    (λ _ _ w, (Some (replicate 8 x2a), w))
    (λ _ _, Some x2a).

(** A system whose world counts the bulk calls: the first one transfers
    nothing, the later ones transfer four bytes. *)
Definition bulk_fails_once : Kernel.t nat :=
  Kernel.mk 4096 100
    (λ _ _ _ w, (match w with O => Some [] | _ => Some (replicate 4 x2b) end,
                 Datatypes.S w))
    (λ _ _ w, (Some (replicate 8 x2a), w))
    (λ _ _, Some x2a).

(** A process whose memory holds at every address the low byte of that
    address, and a system that lets both routes read all of it. *)
Definition counting : Z → byte :=
  λ a, default x00 (Byte.of_N (Z.to_N (a mod 256))).

Definition cooperative : Kernel.t unit :=
  Kernel.mk 4096 100
    (λ _ local_len iovs w,
       (Some (take (Z.to_nat local_len) (gather counting iovs)), w))
    (λ _ a w, (Some (bytes_at counting a 8), w))
    (λ _ a, Some (counting a)).

(** A system whose bulk call stops after the first remote descriptor. *)
Definition first_descriptor_only : Kernel.t unit :=
  Kernel.mk 4096 100
    (λ _ _ iovs w,
       (Some (take (Z.to_nat (from_option snd 0 (head iovs)))
                (gather counting iovs)), w))
    (λ _ a w, (Some (bytes_at counting a 8), w))
    (λ _ a, Some (counting a)).

(** A process of which only the page [0x1000, 0x2000) is mapped.  The
    bulk call transfers the first remote descriptor when it lies in the
    page and fails with [EFAULT] otherwise; a word read succeeds inside
    the page only. *)
Definition in_page (a : Z) : bool := (0x1000 <=? a) && (a <? 0x2000).

Definition one_page : Kernel.t unit :=
  Kernel.mk 4096 100
    (λ _ _ iovs w,
       (match iovs with
        | [] => Some []
        | (base, iov_len) :: _ =>
          if in_page base && in_page (base + iov_len - 1)
          then Some (bytes_at counting base iov_len) else None
        end, w))
    (λ _ a w,
       (if in_page a && in_page (a + 7) then Some (bytes_at counting a 8)
        else None, w))
    (λ _ a, if in_page a then Some (counting a) else None).

Definition start {W} (w : W) : Sys W := mkSys w [].

Definition remote : MemoryRemote.t := MemoryRemote.create 7.
End Samples.

(** * Properties *)

(** ** Arithmetic on 64-bit unsigned values *)

Lemma wrap64_small x : 0 ≤ x ≤ UINT64_MAX → wrap64 x = x.
Proof. unfold wrap64, UINT64_MAX. intros H. apply Z.mod_small. lia. Qed.

Lemma wrap64_range x : 0 ≤ wrap64 x ≤ UINT64_MAX.
Proof.
  unfold wrap64, UINT64_MAX.
  pose proof (Z.mod_pos_bound x (2 ^ 64) ltac:(lia)). lia.
Qed.

Lemma sub64_small a b : 0 ≤ b ≤ a → a ≤ UINT64_MAX → sub64 a b = a - b.
Proof. intros Hb Ha. unfold sub64. apply wrap64_small. lia. Qed.

Lemma add64_small a b : 0 ≤ a → 0 ≤ b → a + b ≤ UINT64_MAX → add64 a b = a + b.
Proof. intros Ha Hb Hs. unfold add64. apply wrap64_small. lia. Qed.

Lemma add_overflow_no a b :
  0 ≤ a → 0 ≤ b → a + b ≤ UINT64_MAX → add_overflow a b = (false, a + b).
Proof.
  intros Ha Hb Hs. unfold add_overflow.
  rewrite wrap64_small by lia. by rewrite (proj2 (Z.ltb_ge _ _)) by lia.
Qed.

Lemma add_overflow_yes a b :
  UINT64_MAX < a + b → (add_overflow a b).1 = true.
Proof. intros Hs. unfold add_overflow. simpl. by apply Z.ltb_lt. Qed.

Lemma land_le_r (x y : Z) : 0 ≤ y → 0 ≤ Z.land x y ≤ y.
Proof.
  intros Hy. apply Z.ldiff_le; [done|].
  apply Z.bits_inj'. intros n Hn.
  rewrite Z.ldiff_spec, Z.land_spec, Z.bits_0.
  by destruct (Z.testbit x n), (Z.testbit y n).
Qed.

(** Page arithmetic, for a page size that is a power of two. *)
Lemma land_page_mask (offset k : Z) :
  0 ≤ k → Z.land offset (2 ^ k - 1) = offset mod 2 ^ k.
Proof.
  intros Hk. rewrite <- Z.land_ones by done. by rewrite Z.ones_equiv, <- Z.sub_1_r.
Qed.

Lemma land_page_base (offset k : Z) :
  0 ≤ k → Z.land offset (Z.lnot (2 ^ k - 1)) = offset - offset mod 2 ^ k.
Proof.
  intros Hk. rewrite <- Z.ldiff_land.
  replace (2 ^ k - 1) with (Z.ones k) by (by rewrite Z.ones_equiv, <- Z.sub_1_r).
  rewrite Z.ldiff_ones_r by done.
  rewrite Z.shiftl_mul_pow2, Z.shiftr_div_pow2 by done.
  pose proof (Z.div_mod offset (2 ^ k)) as Hdm. lia.
Qed.

(** ** Copies and byte sequences *)

Lemma memcpy_from_length base off n :
  0 ≤ off → 0 ≤ n → off + n ≤ Z.of_nat (length base) →
  Z.of_nat (length (memcpy_from base off n)) = n.
Proof.
  intros Hoff Hn Hle. unfold memcpy_from.
  rewrite length_take, length_drop. lia.
Qed.

Lemma memcpy_from_lookup base off n (i : nat) :
  0 ≤ off → (Z.of_nat i < n) →
  memcpy_from base off n !! i = base !! (Z.to_nat off + i)%nat.
Proof.
  intros Hoff Hi. unfold memcpy_from.
  rewrite lookup_take_lt by lia. by rewrite lookup_drop.
Qed.

Lemma memcpy_from_all (bs : list byte) :
  memcpy_from bs 0 (Z.of_nat (length bs)) = bs.
Proof.
  unfold memcpy_from. rewrite Nat2Z.id.
  change (Z.to_nat 0) with 0%nat. rewrite drop_0. by apply take_ge.
Qed.

Lemma memcpy_from_app_r (pre bs : list byte) (off n : Z) :
  0 ≤ off →
  memcpy_from (pre ++ bs) (off + Z.of_nat (length pre)) n = memcpy_from bs off n.
Proof.
  intros Hoff. unfold memcpy_from.
  replace (Z.to_nat (off + Z.of_nat (length pre)))
    with (length pre + Z.to_nat off)%nat by lia.
  by rewrite drop_app_add.
Qed.

Lemma memcpy_from_app_l (bs post : list byte) (n : Z) :
  n = Z.of_nat (length bs) → memcpy_from (bs ++ post) 0 n = bs.
Proof.
  intros ->. unfold memcpy_from. rewrite Nat2Z.id.
  change (Z.to_nat 0) with 0%nat. rewrite drop_0. apply take_app_length.
Qed.

Lemma store_at_start_replicate (bs : list byte) :
  store_at_start (replicate (length bs) x00) bs = bs.
Proof.
  unfold store_at_start. rewrite drop_ge by (rewrite length_replicate; lia).
  apply app_nil_r.
Qed.

Lemma le_value_range (bs : list byte) :
  0 ≤ le_value bs < 256 ^ Z.of_nat (length bs).
Proof.
  induction bs as [|b bs IH]; simpl length; simpl le_value; [lia|].
  rewrite Nat2Z.inj_succ, Z.pow_succ_r by lia.
  pose proof (Byte.to_N_bounded b). lia.
Qed.

Lemma strnlen_nat_le (bs : list byte) (n : nat) : (strnlen_nat bs n ≤ n)%nat.
Proof.
  revert bs. induction n as [|n IH]; intros [|b bs]; simpl; try lia.
  destruct (Byte.eqb b x00); [lia|]. specialize (IH bs). lia.
Qed.

Lemma strnlen_nat_app (bs tail : list byte) (n : nat) :
  (n ≤ length bs)%nat → strnlen_nat (bs ++ tail) n = strnlen_nat bs n.
Proof.
  revert bs. induction n as [|n IH]; intros [|b bs] Hlen; simpl in *;
    try done; try lia.
  destruct (Byte.eqb b x00); [done|]. rewrite IH; [done|lia].
Qed.

Lemma strnlen_nat_none (bs : list byte) (n : nat) :
  x00 ∉ bs → (n ≤ length bs)%nat → strnlen_nat bs n = n.
Proof.
  revert bs. induction n as [|n IH]; intros [|b bs] Hno Hlen; simpl in *;
    try done; try lia.
  rewrite not_elem_of_cons in Hno. destruct Hno as [Hb Hbs].
  destruct (Byte.eqb b x00) eqn:E.
  - apply Byte.byte_dec_bl in E. congruence.
  - rewrite IH; [done|done|lia].
Qed.

Lemma strnlen_nat_found (pre tail : list byte) (n : nat) :
  x00 ∉ pre → (length pre < n)%nat →
  strnlen_nat (pre ++ x00 :: tail) n = length pre.
Proof.
  revert n. induction pre as [|b pre IH]; intros [|n] Hno Hlen; simpl in *;
    try done; try lia.
  rewrite not_elem_of_cons in Hno. destruct Hno as [Hb Hpre].
  destruct (Byte.eqb b x00) eqn:E.
  - apply Byte.byte_dec_bl in E. congruence.
  - rewrite IH; [done|done|lia].
Qed.

Lemma strnlen_found_less (bs : list byte) (n : nat) :
  (strnlen_nat bs n < n)%nat → (n ≤ length bs)%nat →
  bs !! strnlen_nat bs n = Some x00.
Proof.
  revert bs. induction n as [|n IH]; intros [|b bs] Hlt Hlen; simpl in *;
    try lia.
  destruct (Byte.eqb b x00) eqn:E.
  - apply Byte.byte_dec_bl in E. by subst.
  - simpl. apply IH; lia.
Qed.

(** ** Buffer memory *)

Lemma bounded_copy_spec (content : list byte) (N addr size : Z) :
  Z.of_nat (length content) = N → 0 ≤ addr → 0 ≤ size →
  let r : ReadResult :=
    if N <=? addr then no_read
    else (Z.min (N - addr) size, memcpy_from content addr (Z.min (N - addr) size)) in
  is_bounded_copy content N addr size r.
Proof.
  intros HN Haddr Hsize r. subst r. unfold is_bounded_copy, copied, dst_bytes.
  destruct (Z.leb_spec N addr) as [Hge|Hlt]; simpl.
  - repeat split; lia.
  - repeat split; try lia.
    + apply memcpy_from_length; lia.
    + intros i Hi. rewrite memcpy_from_lookup by lia. f_equal.
Qed.

Lemma MemoryBuffer_Read_inside (content : list byte) (o n : Z) :
  o < Z.of_nat (length content) →
  MemoryBuffer.Read (MemoryBuffer.of_bytes content) o n =
    (Z.min (Z.of_nat (length content) - o) n,
     memcpy_from content o (Z.min (Z.of_nat (length content) - o) n)).
Proof.
  intros Ho. unfold MemoryBuffer.Read, MemoryBuffer.of_bytes. simpl.
  by rewrite (proj2 (Z.leb_gt _ _)) by lia.
Qed.

Lemma MemoryBuffer_Read_outside (content : list byte) (o n : Z) :
  Z.of_nat (length content) ≤ o →
  MemoryBuffer.Read (MemoryBuffer.of_bytes content) o n = no_read.
Proof.
  intros Ho. unfold MemoryBuffer.Read, MemoryBuffer.of_bytes. simpl.
  by rewrite (proj2 (Z.leb_le _ _)) by lia.
Qed.

Lemma MemoryBuffer_Read_bytes (m : MemoryBuffer.t) (addr size : Z) (b : byte) :
  b ∈ dst_bytes (MemoryBuffer.Read m addr size) → b ∈ MemoryBuffer.raw_ m.
Proof.
  unfold MemoryBuffer.Read, dst_bytes, memcpy_from.
  destruct (MemoryBuffer.size_ m <=? addr); simpl.
  - by rewrite elem_of_nil.
  - intros Hin. by apply subseteq_take, subseteq_drop in Hin.
Qed.

Lemma MemoryBuffer_obeys_contract {S : Type} (m : MemoryBuffer.t) :
  MemoryBuffer.wf m → obeys_contract (MemoryBuffer.reader (S:=S) m).
Proof.
  intros Hwf addr size s Haddr Hsize.
  unfold MemoryBuffer.reader, pure_reader, MemoryBuffer.Read, copied, dst_bytes.
  simpl. destruct (Z.leb_spec (MemoryBuffer.size_ m) addr); simpl; [lia|].
  split; [lia|]. apply memcpy_from_length; unfold MemoryBuffer.wf in Hwf; lia.
Qed.

Lemma MemoryBuffer_reads_as_buffer {S : Type} (content : list byte) :
  reads_as_buffer (MemoryBuffer.reader (S:=S) (MemoryBuffer.of_bytes content))
    0 content.
Proof. intros o n s _ _. by rewrite Z.add_0_l. Qed.

(** ** Mapped-file memory *)

(** What a successful [Init] exposes: the bytes of the file from [offset]
    on, at most [size] of them; the object owns them. *)
Lemma MemoryFileAtOffset_Init_spec (fs : FileSystem) (m0 m : MemoryFileAtOffset.t)
    (file : string) (contents : list byte) (offset size k : Z) :
  file_contents fs file = Some contents →
  0 ≤ k → getpagesize fs = 2 ^ k →
  0 ≤ offset → 0 ≤ size ≤ UINT64_MAX →
  Z.of_nat (length contents) ≤ UINT64_MAX →
  MemoryFileAtOffset.Init fs m0 file offset size = (true, m) →
  MemoryFileAtOffset.size_ m = Z.min size (Z.of_nat (length contents) - offset)
  ∧ MemoryFileAtOffset.offset_ m = offset mod 2 ^ k
  ∧ MemoryFileAtOffset.data_ m =
      Some (memcpy_from contents offset (MemoryFileAtOffset.size_ m))
  ∧ MemoryFileAtOffset.wf m.
Proof.
  intros Hfile Hk Hpage Hoff Hsize Hfit. unfold MemoryFileAtOffset.Init.
  rewrite Hfile, Hpage, land_page_mask, land_page_base by done.
  set (st_size := Z.of_nat (length contents)) in *.
  pose proof (Z.mod_pos_bound offset (2 ^ k) ltac:(lia)) as Hmod.
  pose proof (Z.mod_le offset (2 ^ k) ltac:(lia) ltac:(lia)) as Hmodle.
  set (mis := offset mod 2 ^ k) in *.
  destruct (Z.leb_spec st_size offset) as [|Hlt]; [done|].
  rewrite (proj2 (Z.ltb_ge _ _)) by lia.
  rewrite (proj2 (Z.ltb_ge _ _)) by lia. simpl orb. cbv iota.
  unfold add_overflow.
  set (size1 := if negb (UINT64_MAX <? size + mis)
                     && (wrap64 (size + mis) <? st_size - (offset - mis))
                then wrap64 (size + mis) else st_size - (offset - mis)).
  assert (size1 = Z.min size (st_size - offset) + mis) as Hsize1.
  { unfold size1. destruct (Z.ltb_spec UINT64_MAX (size + mis)); simpl.
    - lia.
    - rewrite wrap64_small by lia.
      destruct (Z.ltb_spec (size + mis) (st_size - (offset - mis))); lia. }
  destruct (mmap_ok fs file size1 (offset - mis)); [|done].
  intros [= <-]. simpl. rewrite Hsize1.
  rewrite sub64_small by lia.
  replace (Z.min size (st_size - offset) + mis - mis)
    with (Z.min size (st_size - offset)) by lia.
  assert (drop (Z.to_nat mis)
            (memcpy_from contents (offset - mis) (Z.min size (st_size - offset) + mis))
          = memcpy_from contents offset (Z.min size (st_size - offset))) as Hdata.
  { unfold memcpy_from.
    replace (Z.to_nat (Z.min size (st_size - offset) + mis))
      with (Z.to_nat mis + Z.to_nat (Z.min size (st_size - offset)))%nat by lia.
    rewrite <- take_drop_commute, drop_drop. do 2 f_equal. lia. }
  rewrite Hdata. split; [done|]. split; [done|]. split; [done|].
  eexists. split; [done|]. simpl.
  apply memcpy_from_length; lia.
Qed.

(** Mapping a whole file: [Init] at offset 0 with the default size. *)
Lemma MemoryFileAtOffset_Init_at_0 (fs : FileSystem) (m0 : MemoryFileAtOffset.t)
    (file : string) (contents : list byte) :
  file_contents fs file = Some contents →
  0 < Z.of_nat (length contents) ≤ UINT64_MAX →
  MemoryFileAtOffset.Init fs m0 file 0 UINT64_MAX =
    if mmap_ok fs file (Z.of_nat (length contents)) 0
    then (true, MemoryFileAtOffset.mk (Some contents) 0
                  (Z.of_nat (length contents)))
    else (false, MemoryFileAtOffset.mk None 0 (Z.of_nat (length contents))).
Proof.
  intros Hfile Hlen. unfold MemoryFileAtOffset.Init. rewrite Hfile.
  rewrite (proj2 (Z.leb_gt _ _)) by lia.
  rewrite !Z.land_0_l. rewrite (proj2 (Z.ltb_ge _ 0)) by lia. simpl orb.
  rewrite Z.sub_0_r. rewrite add_overflow_no by (unfold UINT64_MAX in *; lia).
  rewrite Z.add_0_r. simpl negb. rewrite (proj2 (Z.ltb_ge UINT64_MAX _)) by lia.
  simpl andb. cbv iota.
  destruct (mmap_ok fs file _ 0); [|done].
  rewrite memcpy_from_all. change (Z.to_nat 0) with 0%nat. rewrite drop_0.
  rewrite sub64_small by lia. by rewrite Z.sub_0_r.
Qed.

(** An object that holds its mapping never copies from the null pointer;
    one that was cleared does, for every non-empty read below its old
    size. *)
Lemma MemoryFileAtOffset_copies_from_null (m : MemoryFileAtOffset.t)
    (addr size : Z) :
  (MemoryFileAtOffset.wf m →
     MemoryFileAtOffset.Read_copies_from_null m addr size = false)
  ∧ (addr < MemoryFileAtOffset.size_ m → 0 < size →
     MemoryFileAtOffset.Read_copies_from_null (MemoryFileAtOffset.Clear m)
       addr size = true).
Proof.
  unfold MemoryFileAtOffset.Read_copies_from_null. split.
  - by intros (bs & -> & _).
  - intros Haddr Hsize. simpl.
    by rewrite (proj2 (Z.ltb_lt _ _)), (proj2 (Z.ltb_lt _ _)) by done.
Qed.

(** ** C1: buffer and mapped-file reads *)

(** C1.  For a buffer-backed or file-backed memory of total size [N],
    [Read(addr, dst, size)] returns [min(size, N - addr)] when [addr < N]
    and [0] when [addr >= N]; the bytes put into [dst] are the source
    bytes at [addr, addr + copied). *)
Theorem C1_buffer_and_file_read
    (mb : MemoryBuffer.t) (mf : MemoryFileAtOffset.t) (mapped : list byte)
    (addr size : Z) :
  MemoryBuffer.wf mb →
  MemoryFileAtOffset.data_ mf = Some mapped →
  Z.of_nat (length mapped) = MemoryFileAtOffset.size_ mf →
  0 ≤ addr → 0 ≤ size →
  is_bounded_copy (MemoryBuffer.raw_ mb) (MemoryBuffer.size_ mb) addr size
    (MemoryBuffer.Read mb addr size)
  ∧ is_bounded_copy mapped (MemoryFileAtOffset.size_ mf) addr size
      (MemoryFileAtOffset.Read mf addr size).
Proof.
  intros Hwf Hdata Hlen Haddr Hsize. split.
  - apply (bounded_copy_spec (MemoryBuffer.raw_ mb)); auto.
  - unfold MemoryFileAtOffset.Read. rewrite Hdata. simpl.
    apply (bounded_copy_spec mapped); auto.
Qed.

Lemma C1_buffer_and_file_read_witness :
  is_bounded_copy Samples.text 4 1 5 (MemoryBuffer.Read Samples.text_buffer 1 5)
  ∧ is_bounded_copy (Samples.snapshot_header ++ Samples.snapshot_content) 108 100 20
      (MemoryFileAtOffset.Read Samples.snapshot_file 100 20).
Proof.
  split.
  - exact (proj1 (C1_buffer_and_file_read Samples.text_buffer
                    Samples.snapshot_file
                    (Samples.snapshot_header ++ Samples.snapshot_content) 1 5
                    eq_refl eq_refl eq_refl ltac:(lia) ltac:(lia))).
  - exact (proj2 (C1_buffer_and_file_read Samples.text_buffer
                    Samples.snapshot_file
                    (Samples.snapshot_header ++ Samples.snapshot_content) 100 20
                    eq_refl eq_refl eq_refl ltac:(lia) ltac:(lia))).
Defined.

(** ** Range memory *)

Lemma MemoryRange_Read_inside {S : Type} (m : MemoryRange.t S) addr size s :
  0 ≤ MemoryRange.offset_ m ≤ addr → addr ≤ UINT64_MAX →
  addr - MemoryRange.offset_ m < MemoryRange.length_ m →
  0 ≤ MemoryRange.begin_ m →
  addr - MemoryRange.offset_ m + MemoryRange.begin_ m ≤ UINT64_MAX →
  MemoryRange.Read m addr size s =
    MemoryRange.memory_ m (addr - MemoryRange.offset_ m + MemoryRange.begin_ m)
      (Z.min size (MemoryRange.length_ m - (addr - MemoryRange.offset_ m))) s.
Proof.
  intros Hoff Haddr Hin Hbeg Hsum. unfold MemoryRange.Read.
  rewrite (proj2 (Z.ltb_ge _ _)) by lia.
  rewrite sub64_small by lia.
  rewrite (proj2 (Z.leb_gt _ _)) by lia.
  by rewrite add_overflow_no by lia.
Qed.

Lemma MemoryRange_Read_outside {S : Type} (m : MemoryRange.t S) addr size s :
  0 ≤ MemoryRange.offset_ m → addr ≤ UINT64_MAX →
  addr < MemoryRange.offset_ m
  ∨ MemoryRange.offset_ m + MemoryRange.length_ m ≤ addr →
  MemoryRange.Read m addr size s = (no_read, s).
Proof.
  intros Hoff Haddr Hout. unfold MemoryRange.Read.
  destruct (Z.ltb_spec addr (MemoryRange.offset_ m)); [done|].
  rewrite sub64_small by lia.
  by rewrite (proj2 (Z.leb_le _ _)) by lia.
Qed.

(** ** C2: requests whose end lies beyond the 64-bit range *)

Lemma PtraceRead_overflow {W : Type} (os : Kernel.t W) pid addr bytes (s : Sys W) :
  UINT64_MAX < addr + bytes →
  PtraceRead os pid addr bytes s =
    (no_read, log_call (CallPtraceRead pid addr bytes) s).
Proof.
  intros Hsum. unfold PtraceRead.
  pose proof (add_overflow_yes _ _ Hsum) as Hov.
  destruct (add_overflow addr bytes) as [ov max_size]. simpl in Hov. by subst ov.
Qed.

(** C2 (amended).  For a request [(addr, size)] with [addr + size] beyond
    the 64-bit range: the word-at-a-time remote path returns 0; a buffer or
    mapped-file memory of size [N] returns 0 for [addr >= N] and otherwise
    the [N - addr] bytes up to its end, the size being clamped; a Range
    memory returns 0 outside its window or when the translated address
    overflows, and otherwise delegates with the size clamped to the rest of
    the window.  No sum is wrapped and nothing out of range is copied. *)
Theorem C2_overflowing_request {W S : Type} (os : Kernel.t W)
    (mb : MemoryBuffer.t) (mf : MemoryFileAtOffset.t) (mapped : list byte)
    (mr : MemoryRange.t S) (pid addr size : Z) (sys : Sys W) (s : S) :
  0 ≤ addr ≤ UINT64_MAX → 0 ≤ size ≤ UINT64_MAX → UINT64_MAX < addr + size →
  MemoryBuffer.wf mb → MemoryBuffer.size_ mb ≤ UINT64_MAX →
  MemoryFileAtOffset.data_ mf = Some mapped →
  Z.of_nat (length mapped) = MemoryFileAtOffset.size_ mf →
  MemoryFileAtOffset.size_ mf ≤ UINT64_MAX →
  0 ≤ MemoryRange.offset_ mr ≤ UINT64_MAX →
  0 ≤ MemoryRange.begin_ mr ≤ UINT64_MAX →
  (PtraceRead os pid addr size sys).1 = no_read
  ∧ MemoryBuffer.Read mb addr size =
      (if addr <? MemoryBuffer.size_ mb
       then (MemoryBuffer.size_ mb - addr,
             memcpy_from (MemoryBuffer.raw_ mb) addr (MemoryBuffer.size_ mb - addr))
       else no_read)
  ∧ MemoryFileAtOffset.Read mf addr size =
      (if addr <? MemoryFileAtOffset.size_ mf
       then (MemoryFileAtOffset.size_ mf - addr,
             memcpy_from mapped addr (MemoryFileAtOffset.size_ mf - addr))
       else no_read)
  ∧ (addr < MemoryRange.offset_ mr
     ∨ MemoryRange.offset_ mr + MemoryRange.length_ mr ≤ addr
     ∨ UINT64_MAX < addr - MemoryRange.offset_ mr + MemoryRange.begin_ mr →
     MemoryRange.Read mr addr size s = (no_read, s))
  ∧ (MemoryRange.offset_ mr ≤ addr < MemoryRange.offset_ mr + MemoryRange.length_ mr →
     addr - MemoryRange.offset_ mr + MemoryRange.begin_ mr ≤ UINT64_MAX →
     MemoryRange.Read mr addr size s =
       MemoryRange.memory_ mr
         (addr - MemoryRange.offset_ mr + MemoryRange.begin_ mr)
         (Z.min size (MemoryRange.offset_ mr + MemoryRange.length_ mr - addr)) s).
Proof.
  intros Haddr Hsize Hsum Hwf HN Hdata Hlen HNf Hoff Hbeg.
  split; [by rewrite PtraceRead_overflow|].
  split; [|split; [|split]].
  - unfold MemoryBuffer.Read.
    destruct (Z.leb_spec (MemoryBuffer.size_ mb) addr);
      destruct (Z.ltb_spec addr (MemoryBuffer.size_ mb)); try lia; [done|].
    by rewrite Z.min_l by lia.
  - unfold MemoryFileAtOffset.Read. rewrite Hdata. simpl default.
    destruct (Z.leb_spec (MemoryFileAtOffset.size_ mf) addr);
      destruct (Z.ltb_spec addr (MemoryFileAtOffset.size_ mf)); try lia; [done|].
    by rewrite Z.min_l by lia.
  - intros [Hlow|[Hhigh|Hover]];
      [apply MemoryRange_Read_outside; lia
      |apply MemoryRange_Read_outside; lia|].
    unfold MemoryRange.Read.
    destruct (Z.ltb_spec addr (MemoryRange.offset_ mr)); [done|].
    rewrite sub64_small by lia.
    destruct (Z.leb_spec (MemoryRange.length_ mr) (addr - MemoryRange.offset_ mr));
      [done|].
    pose proof (add_overflow_yes _ _ Hover) as Hov.
    destruct (add_overflow _ _) as [ov ra]. simpl in Hov. by subst ov.
  - intros Hin Hfit. rewrite MemoryRange_Read_inside by lia.
    do 2 f_equal. lia.
Qed.

Lemma C2_overflowing_request_witness :
  (PtraceRead Samples.ptrace_only 7 8 UINT64_MAX (Samples.start tt)).1 = no_read
  ∧ MemoryBuffer.Read Samples.sixteen 8 UINT64_MAX =
      (if 8 <? 16 then (16 - 8, memcpy_from (replicate 16 x2a) 8 (16 - 8))
       else no_read)
  ∧ MemoryFileAtOffset.Read Samples.sixteen_file 8 UINT64_MAX =
      (if 8 <? 16 then (16 - 8, memcpy_from (replicate 16 x2a) 8 (16 - 8))
       else no_read)
  ∧ (8 < 16 ∨ 16 + 3 ≤ 8 ∨ UINT64_MAX < 8 - 16 + 1 →
     MemoryRange.Read Samples.window 8 UINT64_MAX tt = (no_read, tt))
  ∧ (16 ≤ 8 < 16 + 3 → 8 - 16 + 1 ≤ UINT64_MAX →
     MemoryRange.Read Samples.window 8 UINT64_MAX tt =
       MemoryRange.memory_ Samples.window (8 - 16 + 1)
         (Z.min UINT64_MAX (16 + 3 - 8)) tt).
Proof.
  apply (C2_overflowing_request Samples.ptrace_only Samples.sixteen
           Samples.sixteen_file (replicate 16 x2a) Samples.window
           7 8 UINT64_MAX (Samples.start tt) tt);
    try reflexivity; unfold UINT64_MAX; simpl; lia.
Defined.

(** The request [(8, 2^64 - 1)] on a 16-byte buffer: the sum overflows and
    the read returns the 8 bytes that remain, not 0. *)
Lemma C2_counterexample :
  UINT64_MAX < 8 + UINT64_MAX
  ∧ MemoryBuffer.Read Samples.sixteen 8 UINT64_MAX = (8, replicate 8 x2a)
  ∧ copied (MemoryBuffer.Read Samples.sixteen 8 UINT64_MAX) ≠ 0.
Proof. split; [unfold UINT64_MAX; lia|]. split; [reflexivity|discriminate]. Qed.

(** The local-process memory stands outside C2: when the end of the request
    lies beyond the address space the bulk path gives up with 0 before any
    system call, and the direct copy then runs past the last address: the
    call does not return. *)
Example local_overflow_sample :
  (ProcessVmRead Samples.ptrace_only 100 (2 ^ 64 - 10) 20 (Samples.start tt)).1
    = no_read
  ∧ (MemoryLocal.Read Samples.ptrace_only (2 ^ 64 - 10) 20
       (Samples.start tt)).1 = Faults.
Proof. split; reflexivity. Qed.

(** ** The scan of [ReadString] *)

(** With [HRead : Read a n s = ((size, bytes), s1)] for a chunk request:
    what the read contract says about [size] and [bytes]. *)
Ltac chunk_contract Hcontract HRead Hsize Hlen :=
  match type of HRead with
  | ?Read ?a ?n ?s = _ =>
    destruct (Hcontract a n s) as [Hsize Hlen]; [apply wrap64_range | lia |];
    rewrite HRead in Hsize, Hlen; unfold copied, dst_bytes in Hsize, Hlen;
    simpl in Hsize, Hlen
  end.

Section ReadStringScan.
Context {S : Type}.
Variable Read : Reader S.

Local Notation loop := (Memory.ReadString_loop Read).

(** The loop is left as soon as [offset] reaches [max_read]. *)
Lemma ReadString_loop_exit fuel addr max_read offset buffer dst (s : S) :
  max_read ≤ offset →
  loop fuel addr max_read offset buffer dst s = Some ((false, dst), s).
Proof.
  intros Hge. destruct fuel; cbn [Memory.ReadString_loop];
    by rewrite (proj2 (Z.ltb_ge _ _)) by lia.
Qed.

(** One round of the loop, in terms of what the chunk read returned. *)
Lemma ReadString_loop_round fuel addr max_read offset buffer dst (s : S)
    size bytes s1 :
  offset < max_read →
  Read (add64 addr offset) (Z.min 256 (max_read - offset)) s = ((size, bytes), s1) →
  loop (Datatypes.S fuel) addr max_read offset buffer dst s =
    if size =? 0 then Some ((false, dst), s1)
    else if strnlen (store_at_start buffer bytes) size <? size then
      if offset =? 0
      then Some ((true, memcpy_from (store_at_start buffer bytes) 0
                          (strnlen (store_at_start buffer bytes) size)), s1)
      else
        let total := add64 offset (strnlen (store_at_start buffer bytes) size) in
        Some (((Memory.ReadFully Read addr total s1).1.1,
               store_at_start (replicate (Z.to_nat total) x00)
                 (Memory.ReadFully Read addr total s1).1.2),
              (Memory.ReadFully Read addr total s1).2)
    else loop fuel addr max_read (add64 offset size)
           (store_at_start buffer bytes) dst s1.
Proof.
  intros Hlt HRead. cbn [Memory.ReadString_loop].
  rewrite (proj2 (Z.ltb_lt _ _)) by lia. rewrite HRead.
  destruct (size =? 0); [done|].
  destruct (_ <? size); [|done].
  destruct (offset =? 0); [done|].
  by destruct (Memory.ReadFully Read addr _ s1) as [[ok bytes2] s2].
Qed.

(** Under the read contract the result does not depend on the round
    budget, once that covers the bytes still to scan. *)
Lemma ReadString_loop_fuel addr max_read dst :
  obeys_contract Read → max_read ≤ UINT64_MAX →
  ∀ fuel1 fuel2 offset buffer (s : S),
    0 ≤ offset →
    max_read - offset ≤ Z.of_nat fuel1 → max_read - offset ≤ Z.of_nat fuel2 →
    loop fuel1 addr max_read offset buffer dst s =
      loop fuel2 addr max_read offset buffer dst s.
Proof.
  intros Hcontract Hmax. induction fuel1 as [|fuel1 IH];
    intros fuel2 offset buffer s Hoff H1 H2.
  { by rewrite !ReadString_loop_exit by lia. }
  destruct (Z.lt_ge_cases offset max_read) as [Hlt|Hge];
    [|by rewrite !ReadString_loop_exit by lia].
  destruct fuel2 as [|fuel2]; [lia|].
  destruct (Read (add64 addr offset) (Z.min 256 (max_read - offset)) s)
    as [[size bytes] s1] eqn:HRead.
  rewrite !(ReadString_loop_round _ _ _ _ _ _ _ size bytes s1) by done.
  destruct (Z.eqb_spec size 0) as [|Hnz]; [done|].
  destruct (_ <? size); [done|].
  chunk_contract Hcontract HRead Hsize Hlen.
  rewrite add64_small by lia. apply IH; lia.
Qed.

(** Under the read contract [ReadString] always returns. *)
Lemma ReadString_loop_total addr max_read dst :
  obeys_contract Read → max_read ≤ UINT64_MAX →
  ∀ fuel offset buffer (s : S),
    0 ≤ offset → max_read - offset ≤ Z.of_nat fuel →
    is_Some (loop fuel addr max_read offset buffer dst s).
Proof.
  intros Hcontract Hmax. induction fuel as [|fuel IH];
    intros offset buffer s Hoff Hfuel.
  { by rewrite ReadString_loop_exit by lia. }
  destruct (Z.lt_ge_cases offset max_read) as [Hlt|Hge];
    [|by rewrite ReadString_loop_exit by lia].
  destruct (Read (add64 addr offset) (Z.min 256 (max_read - offset)) s)
    as [[size bytes] s1] eqn:HRead.
  rewrite (ReadString_loop_round _ _ _ _ _ _ _ size bytes s1) by done.
  destruct (Z.eqb_spec size 0) as [|Hnz]; [done|].
  destruct (_ <? size); [by destruct (offset =? 0)|].
  chunk_contract Hcontract HRead Hsize Hlen.
  rewrite add64_small by lia. apply IH; lia.
Qed.

Lemma ReadString_total addr max_read buffer dst (s : S) :
  obeys_contract Read → 0 ≤ max_read ≤ UINT64_MAX →
  is_Some (Memory.ReadString Read addr max_read buffer dst s).
Proof.
  intros Hcontract Hmax. apply ReadString_loop_total; [done|lia..].
Qed.

(** A scan that has come to [offset] decides the call from there. *)
Lemma scan_at_continues addr max_read buffer0 dst (s0 : S) :
  obeys_contract Read → 0 ≤ max_read ≤ UINT64_MAX →
  ∀ offset buffer s,
    scan_at Read addr max_read buffer0 s0 offset buffer s →
    0 ≤ offset
    ∧ ∀ fuel, max_read - offset ≤ Z.of_nat fuel →
        Memory.ReadString Read addr max_read buffer0 dst s0 =
          loop fuel addr max_read offset buffer dst s.
Proof.
  intros Hcontract Hmax offset buffer s Hscan.
  induction Hscan as [|offset buffer s size bytes s1 Hscan [Hoff IH] Hlt HRead Hnz Hlen].
  - split; [done|]. intros fuel Hfuel. unfold Memory.ReadString.
    apply ReadString_loop_fuel; (done || lia).
  - chunk_contract Hcontract HRead Hsize Hbytes. rewrite add64_small by lia.
    split; [lia|]. intros fuel Hfuel.
    rewrite (IH (Datatypes.S (fuel + Z.to_nat max_read))) by lia.
    rewrite (ReadString_loop_round _ _ _ _ _ _ _ size bytes s1) by done.
    rewrite (proj2 (Z.eqb_neq _ _)) by done.
    rewrite (proj2 (Z.ltb_ge _ _)) by done.
    rewrite add64_small by lia.
    apply ReadString_loop_fuel; (done || lia).
Qed.
End ReadStringScan.

(** ** C3: [ReadString] on a contiguous block *)

Section ReadStringBuffer.
Context {S : Type}.
Variable Read : Reader S.

Local Notation loop := (Memory.ReadString_loop Read).

(** The scan over a block that holds [str], a zero byte, and more. *)
Lemma ReadString_loop_finds addr max_read (str rest dst : list byte) :
  reads_as_buffer Read addr (str ++ x00 :: rest) →
  x00 ∉ str → 0 ≤ addr → addr + Z.of_nat (length str) ≤ UINT64_MAX →
  Z.of_nat (length str) < max_read →
  ∀ fuel offset buffer (s : S),
    0 ≤ offset ≤ Z.of_nat (length str) →
    Z.of_nat (length str) - offset < Z.of_nat fuel →
    ∃ s', loop fuel addr max_read offset buffer dst s = Some ((true, str), s').
Proof.
  intros Hbuf Hno Haddr Hfit Hmax. set (L := Z.of_nat (length str)) in *.
  induction fuel as [|fuel IH]; intros offset buffer s Hoff Hfuel; [lia|].
  destruct (Read (add64 addr offset) (Z.min 256 (max_read - offset)) s)
    as [[size bytes] s1] eqn:HRead.
  rewrite (ReadString_loop_round _ _ _ _ _ _ _ _ size bytes s1) by (done || lia).
  pose proof (Hbuf offset (Z.min 256 (max_read - offset)) s) as Hchunk.
  rewrite add64_small in HRead by lia.
  rewrite HRead in Hchunk. simpl in Hchunk.
  rewrite MemoryBuffer_Read_inside in Hchunk
    by (rewrite length_app; simpl; lia).
  specialize (Hchunk ltac:(lia) ltac:(lia)).
  rewrite length_app in Hchunk. simpl length in Hchunk.
  set (n := Z.min _ _) in Hchunk. injection Hchunk as -> Hbytes.
  assert (1 ≤ n) as Hn by lia.
  rewrite (proj2 (Z.eqb_neq _ _)) by lia.
  set (pre := drop (Z.to_nat offset) str).
  assert (Z.of_nat (length pre) = L - offset) as Hpre
    by (unfold pre; rewrite length_drop; lia).
  assert (x00 ∉ pre) as Hnopre.
  { intros Hin. apply Hno. by apply (subseteq_drop (Z.to_nat offset)). }
  assert (bytes = take (Z.to_nat n) (pre ++ x00 :: rest)) as Hchunk.
  { rewrite Hbytes. unfold memcpy_from, pre. by rewrite drop_app_le by lia. }
  clear Hbytes.
  destruct (Z.lt_ge_cases (L - offset) n) as [Hfound|Hmore].
  - (* the zero byte is in this chunk *)
    assert (∃ tail, store_at_start buffer bytes = pre ++ x00 :: tail)
      as [tail Hbuffer].
    { exists (take (Z.to_nat n - length pre - 1) rest ++ drop (length bytes) buffer).
      unfold store_at_start. rewrite Hchunk at 1.
      rewrite take_app_ge by lia.
      destruct (Z.to_nat n - length pre)%nat as [|k] eqn:Ek; [lia|].
      simpl. rewrite <- app_assoc. simpl. do 4 f_equal. lia. }
    rewrite Hbuffer.
    assert (strnlen (pre ++ x00 :: tail) n = L - offset) as ->.
    { unfold strnlen. rewrite strnlen_nat_found by (done || lia). done. }
    rewrite (proj2 (Z.ltb_lt _ _)) by lia.
    destruct (Z.eqb_spec offset 0) as [->|Hnz].
    + exists s1. do 3 f_equal. unfold memcpy_from.
      change (Z.to_nat 0) with 0%nat. rewrite drop_0.
      replace (Z.to_nat (L - 0)) with (length pre) by lia.
      rewrite take_app_length. unfold pre. by rewrite drop_0.
    + cbv zeta. rewrite add64_small by lia.
      replace (offset + (L - offset)) with L by lia.
      unfold Memory.ReadFully.
      pose proof (Hbuf 0 L s1) as Hfull. rewrite Z.add_0_r in Hfull.
      destruct (Read addr L s1) as [[rc bytes2] s2]. simpl in Hfull.
      exists s2.
      rewrite MemoryBuffer_Read_inside in Hfull
        by (rewrite length_app; simpl; lia).
      specialize (Hfull ltac:(lia) ltac:(lia)).
      rewrite length_app in Hfull. simpl length in Hfull.
      rewrite Z.min_r in Hfull by lia. injection Hfull as -> ->.
      simpl. rewrite Z.eqb_refl.
      rewrite memcpy_from_app_l by done.
      unfold L. rewrite Nat2Z.id, store_at_start_replicate. reflexivity.
  - (* the chunk holds no zero byte: next round *)
    assert (bytes = take (Z.to_nat n) pre) as Htake
      by (rewrite Hchunk; by rewrite take_app_le by lia).
    assert (strnlen (store_at_start buffer bytes) n = n) as ->.
    { unfold strnlen, store_at_start.
      rewrite strnlen_nat_app by (rewrite Htake, length_take; lia).
      rewrite strnlen_nat_none; [lia| |rewrite Htake, length_take; lia].
      rewrite Htake. intros Hin. apply Hnopre.
      by apply (subseteq_take (Z.to_nat n)). }
    rewrite Z.ltb_irrefl.
    rewrite add64_small by lia. apply IH; lia.
Qed.
(** The scan over a block without a zero byte in its first [max_read]
    bytes. *)
Lemma ReadString_loop_misses addr max_read (content dst : list byte) :
  reads_as_buffer Read addr content →
  x00 ∉ take (Z.to_nat max_read) content →
  0 ≤ addr → addr + Z.of_nat (length content) ≤ UINT64_MAX →
  ∀ fuel offset buffer (s : S),
    0 ≤ offset ≤ Z.of_nat (length content) →
    max_read - offset ≤ Z.of_nat fuel →
    ∃ s', loop fuel addr max_read offset buffer dst s = Some ((false, dst), s').
Proof.
  intros Hbuf Hno Haddr Hfit.
  induction fuel as [|fuel IH]; intros offset buffer s Hoff Hfuel.
  { exists s. by rewrite ReadString_loop_exit by lia. }
  destruct (Z.lt_ge_cases offset max_read) as [Hlt|Hge];
    [|exists s; by rewrite ReadString_loop_exit by lia].
  destruct (Read (add64 addr offset) (Z.min 256 (max_read - offset)) s)
    as [[size bytes] s1] eqn:HRead.
  rewrite (ReadString_loop_round _ _ _ _ _ _ _ _ size bytes s1) by (done || lia).
  pose proof (Hbuf offset (Z.min 256 (max_read - offset)) s
                ltac:(lia) ltac:(lia)) as Hchunk.
  rewrite add64_small in HRead by lia.
  rewrite HRead in Hchunk. simpl in Hchunk.
  destruct (Z.lt_ge_cases offset (Z.of_nat (length content))) as [Hin|Hend].
  - rewrite MemoryBuffer_Read_inside in Hchunk by lia.
    set (n := Z.min _ _) in Hchunk. injection Hchunk as -> Hbytes.
    assert (1 ≤ n) as Hn by lia.
    rewrite (proj2 (Z.eqb_neq _ _)) by lia.
    assert (Z.of_nat (length bytes) = n) as Hlen
      by (rewrite Hbytes; apply memcpy_from_length; lia).
    assert (x00 ∉ bytes) as Hnobytes.
    { intros Hzero. apply Hno. rewrite Hbytes in Hzero. unfold memcpy_from in Hzero.
      apply elem_of_take in Hzero as (i & Hi & Hlti).
      rewrite lookup_drop in Hi.
      apply elem_of_take. exists (Z.to_nat offset + i)%nat. split; [done|lia]. }
    assert (strnlen (store_at_start buffer bytes) n = n) as ->.
    { unfold strnlen, store_at_start.
      rewrite strnlen_nat_app by lia. rewrite strnlen_nat_none; [lia|done|lia]. }
    rewrite Z.ltb_irrefl. rewrite add64_small by lia. apply IH; lia.
  - rewrite MemoryBuffer_Read_outside in Hchunk by lia.
    injection Hchunk as -> ->. exists s1. done.
Qed.

End ReadStringBuffer.



(** ** C4: when [ReadString] fails *)

Section ReadStringFailures.
Context {S : Type}.
Variable Read : Reader S.

Local Notation loop := (Memory.ReadString_loop Read).

(** A scan whose chunks never hold a zero byte runs to [max_read] or to a
    chunk of zero bytes, and fails either way. *)
Lemma ReadString_loop_no_zero addr max_read dst :
  obeys_contract Read → max_read ≤ UINT64_MAX →
  (∀ o n (s : S), 0 ≤ o → 0 ≤ n → o + n ≤ max_read →
     x00 ∉ dst_bytes (Read (add64 addr o) n s).1) →
  ∀ fuel offset buffer (s : S),
    0 ≤ offset → max_read - offset ≤ Z.of_nat fuel →
    ∃ s', loop fuel addr max_read offset buffer dst s = Some ((false, dst), s').
Proof.
  intros Hcontract Hmax Hno.
  induction fuel as [|fuel IH]; intros offset buffer s Hoff Hfuel.
  { exists s. by rewrite ReadString_loop_exit by lia. }
  destruct (Z.lt_ge_cases offset max_read) as [Hlt|Hge];
    [|exists s; by rewrite ReadString_loop_exit by lia].
  destruct (Read (add64 addr offset) (Z.min 256 (max_read - offset)) s)
    as [[size bytes] s1] eqn:HRead.
  rewrite (ReadString_loop_round _ _ _ _ _ _ _ _ size bytes s1) by done.
  specialize (Hno offset (Z.min 256 (max_read - offset)) s
                ltac:(lia) ltac:(lia) ltac:(lia)).
  rewrite HRead in Hno. unfold dst_bytes in Hno. simpl in Hno.
  chunk_contract Hcontract HRead Hsize Hlen.
  destruct (Z.eqb_spec size 0) as [|Hnz]; [by exists s1|].
  assert (strnlen (store_at_start buffer bytes) size = size) as ->.
  { unfold strnlen, store_at_start.
    rewrite strnlen_nat_app by lia. rewrite strnlen_nat_none; [lia|done|lia]. }
  rewrite Z.ltb_irrefl. rewrite add64_small by lia. apply IH; lia.
Qed.

(** C4 (amended).  Under the read contract, [ReadString] returns false
    whenever no chunk it can read within [max_read] bytes holds a zero
    byte, and whenever a chunk read returns zero bytes before a terminator
    has been found. *)
Theorem C4_ReadString_failures (addr max_read : Z) (buffer0 dst : list byte)
    (s0 : S) :
  obeys_contract Read → 0 ≤ max_read ≤ UINT64_MAX →
  ((∀ o n (s : S), 0 ≤ o → 0 ≤ n → o + n ≤ max_read →
      x00 ∉ dst_bytes (Read (add64 addr o) n s).1) →
   ∃ s', Memory.ReadString Read addr max_read buffer0 dst s0
           = Some ((false, dst), s'))
  ∧ (∀ offset buffer (s : S) bytes s1,
       scan_at Read addr max_read buffer0 s0 offset buffer s →
       offset < max_read →
       Read (add64 addr offset) (Z.min 256 (max_read - offset)) s
         = ((0, bytes), s1) →
       Memory.ReadString Read addr max_read buffer0 dst s0
         = Some ((false, dst), s1)).
Proof.
  intros Hcontract Hmax. split.
  - intros Hno. apply (ReadString_loop_no_zero addr max_read dst); (done || lia).
  - intros offset buffer s bytes s1 Hscan Hlt HRead.
    destruct (scan_at_continues Read addr max_read buffer0 dst s0 Hcontract Hmax
                offset buffer s Hscan) as [Hoff Hloop].
    rewrite (Hloop (Datatypes.S (Z.to_nat max_read))) by lia.
    by rewrite (ReadString_loop_round _ _ _ _ _ _ _ _ 0 bytes s1) by done.
Qed.
End ReadStringFailures.

Lemma C4_ReadString_failures_witness :
  (∃ s', Memory.ReadString (MemoryBuffer.reader Samples.ab_buffer) 0 2 [] [] tt
           = Some ((false, []), s'))
  ∧ scan_at (MemoryBuffer.reader Samples.ab_buffer) 0 10 [] tt 2 [x61; x62] tt
  ∧ MemoryBuffer.reader Samples.ab_buffer (add64 0 2) (Z.min 256 (10 - 2)) tt
      = ((0, []), tt)
  ∧ Memory.ReadString (MemoryBuffer.reader Samples.ab_buffer) 0 10 [] [] tt
      = Some ((false, []), tt).
Proof.
  assert (scan_at (MemoryBuffer.reader Samples.ab_buffer) 0 10 [] tt 2 [x61; x62] tt)
    as Hscan.
  { apply (scan_next (MemoryBuffer.reader Samples.ab_buffer) 0 10 [] tt
             0 [] tt 2 [x61; x62] tt);
      [apply scan_start | lia | reflexivity | lia | by vm_compute]. }
  pose proof (C4_ReadString_failures (MemoryBuffer.reader Samples.ab_buffer)
                0 2 [] [] tt
                (MemoryBuffer_obeys_contract Samples.ab_buffer eq_refl)) as Hshort.
  pose proof (C4_ReadString_failures (MemoryBuffer.reader Samples.ab_buffer)
                0 10 [] [] tt
                (MemoryBuffer_obeys_contract Samples.ab_buffer eq_refl)) as Hzero.
  destruct Hshort as [Hshort _]; [unfold UINT64_MAX; lia|].
  destruct Hzero as [_ Hzero]; [unfold UINT64_MAX; lia|].
  split; [|split; [exact Hscan|split; [reflexivity|]]].
  - apply Hshort. intros o n s Ho Hn Hon Hin.
    apply MemoryBuffer_Read_bytes in Hin.
    apply elem_of_cons in Hin as [Hin|Hin]; [discriminate|].
    apply list_elem_of_singleton in Hin. discriminate.
  - apply (Hzero 2 [x61; x62] tt [] tt Hscan); [lia | reflexivity].
Defined.

(** The four bytes "ab", terminator, "c" behind two adjacent ranges: the
    first chunk read returns 2 of the 10 bytes asked for, without a
    terminator, and the call still succeeds with "ab". *)
Lemma C4_counterexample :
  MemoryRanges.Read Samples.text_ranges (add64 0 0) (Z.min 256 (10 - 0)) tt
    = ((2, [x61; x62]), tt)
  ∧ 2 < Z.min 256 (10 - 0)
  ∧ strnlen [x61; x62] 2 = 2
  ∧ Memory.ReadString (MemoryRanges.Read Samples.text_ranges) 0 10 [] [] tt
      = Some ((true, [x61; x62]), tt).
Proof.
  split; [reflexivity|]. split; [simpl; lia|]. split; reflexivity.
Qed.

(** ** C5: range memory *)

(** C5.  A Range memory with window [(begin, length, offset)] returns 0 for
    [addr < offset] and for [addr >= offset + length].  Inside the window it
    returns 0 when the translated address [addr - offset + begin] overflows,
    and otherwise what the underlying memory returns at that address for
    the size clamped to [offset + length - addr]. *)
Theorem C5_range_read {S : Type} (m : MemoryRange.t S) (addr size : Z) (s : S) :
  0 ≤ addr ≤ UINT64_MAX →
  0 ≤ MemoryRange.offset_ m ≤ UINT64_MAX →
  0 ≤ MemoryRange.begin_ m ≤ UINT64_MAX →
  (addr < MemoryRange.offset_ m
   ∨ MemoryRange.offset_ m + MemoryRange.length_ m ≤ addr →
     MemoryRange.Read m addr size s = (no_read, s))
  ∧ (MemoryRange.offset_ m ≤ addr < MemoryRange.offset_ m + MemoryRange.length_ m →
     (UINT64_MAX < addr - MemoryRange.offset_ m + MemoryRange.begin_ m →
        MemoryRange.Read m addr size s = (no_read, s))
     ∧ (addr - MemoryRange.offset_ m + MemoryRange.begin_ m ≤ UINT64_MAX →
        MemoryRange.Read m addr size s =
          MemoryRange.memory_ m
            (addr - MemoryRange.offset_ m + MemoryRange.begin_ m)
            (Z.min size (MemoryRange.offset_ m + MemoryRange.length_ m - addr))
            s)).
Proof.
  intros Haddr Hoff Hbeg. unfold MemoryRange.Read.
  destruct (Z.ltb_spec addr (MemoryRange.offset_ m)) as [Hlt|Hge].
  { split; [done | lia]. }
  rewrite sub64_small by lia.
  destruct (Z.leb_spec (MemoryRange.length_ m) (addr - MemoryRange.offset_ m))
    as [Hout|Hin].
  { split; [done | lia]. }
  split; [lia | intros _; split; intros Hsum].
  - pose proof (add_overflow_yes _ _ Hsum) as Hov.
    destruct (add_overflow _ _) as [ov ra]. simpl in Hov. by rewrite Hov.
  - rewrite add_overflow_no by lia. simpl. do 2 f_equal. lia.
Qed.

Lemma C5_range_read_witness :
  (17 < 16 ∨ 16 + 3 ≤ 17 → MemoryRange.Read Samples.window 17 8 tt = (no_read, tt))
  ∧ (16 ≤ 17 < 16 + 3 →
     (UINT64_MAX < 17 - 16 + 1 →
        MemoryRange.Read Samples.window 17 8 tt = (no_read, tt))
     ∧ (17 - 16 + 1 ≤ UINT64_MAX →
        MemoryRange.Read Samples.window 17 8 tt =
          MemoryRange.memory_ Samples.window (17 - 16 + 1) (Z.min 8 (16 + 3 - 17)) tt)).
Proof.
  apply (C5_range_read Samples.window 17 8 tt); unfold UINT64_MAX; simpl; lia.
Defined.

(** ** C6: range-set memory *)

Section RangeSet.
Context {S : Type}.
Implicit Types (maps : MemoryRanges.maps_t S) (m : MemoryRanges.t S).
Implicit Types (r v : MemoryRange.t S) (k addr : Z).

Lemma emplace_elem k v maps e :
  e ∈ MemoryRanges.emplace k v maps → e = (k, v) ∨ e ∈ maps.
Proof.
  induction maps as [|[k' v'] rest IH]; simpl.
  - rewrite list_elem_of_singleton. auto.
  - destruct (k <? k').
    + rewrite elem_of_cons. auto.
    + destruct (k =? k'); [auto|].
      rewrite !elem_of_cons. intros [->|He]; [auto|].
      destruct (IH He); auto.
Qed.

Lemma emplace_keeps k v maps e :
  e ∈ maps → e ∈ MemoryRanges.emplace k v maps.
Proof.
  induction maps as [|[k' v'] rest IH]; simpl; [by rewrite elem_of_nil|].
  destruct (k <? k'); [by right|].
  destruct (k =? k'); [done|].
  rewrite !elem_of_cons. intros [->|He]; auto.
Qed.

Lemma emplace_key_present k v maps :
  ∃ v', (k, v') ∈ MemoryRanges.emplace k v maps.
Proof.
  induction maps as [|[k' v'] rest [w Hw]]; simpl.
  - exists v. by left.
  - destruct (k <? k'); [exists v; by left|].
    destruct (Z.eqb_spec k k') as [->|Hne]; [exists v'; by left|].
    exists w. by right.
Qed.

Lemma emplace_ascending k v maps :
  MemoryRanges.ascending maps → MemoryRanges.ascending (MemoryRanges.emplace k v maps).
Proof.
  induction maps as [|[k' v'] rest IH]; simpl; intros Hs.
  - repeat constructor.
  - apply StronglySorted_inv in Hs as [Hrest Hall].
    destruct (Z.ltb_spec k k') as [Hlt|Hge]; simpl.
    + constructor; [by constructor|].
      constructor; [done|].
      eapply Forall_impl; [exact Hall|]. simpl. lia.
    + destruct (Z.eqb_spec k k') as [->|Hne]; simpl.
      * by constructor.
      * constructor; [by apply IH|].
        rewrite Forall_forall. intros k0 Hk0.
        apply list_elem_of_fmap in Hk0 as [[k1 v1] [-> He]].
        apply emplace_elem in He as [[= -> ->]|He]; simpl; [lia|].
        rewrite Forall_forall in Hall. apply Hall.
        apply list_elem_of_fmap. by exists (k1, v1).
Qed.

Lemma ascending_key_unique maps k v v' :
  MemoryRanges.ascending maps → (k, v) ∈ maps → (k, v') ∈ maps → v = v'.
Proof.
  induction maps as [|[k0 v0] rest IH]; simpl; intros Hs.
  - by rewrite elem_of_nil.
  - apply StronglySorted_inv in Hs as [Hrest Hall].
    rewrite Forall_forall in Hall.
    assert (Hfresh : ∀ w, (k0, w) ∈ rest → False).
    { intros w Hw. assert (k0 < k0); [|lia]. apply Hall.
      apply list_elem_of_fmap. by exists (k0, w). }
    rewrite !elem_of_cons.
    intros [[= -> ->]|H1] [[= <-]|H2]; try done.
    + by destruct (Hfresh v').
    + subst. by destruct (Hfresh v).
    + by apply IH.
Qed.

Lemma upper_bound_None addr maps :
  MemoryRanges.upper_bound addr maps = None ↔ ∀ e, e ∈ maps → e.1 ≤ addr.
Proof.
  induction maps as [|[k v] rest IH]; simpl.
  - split; [|done]. intros _ e. by rewrite elem_of_nil.
  - destruct (Z.ltb_spec addr k) as [Hlt|Hge].
    + split; [done|]. intros H.
      assert ((k, v).1 ≤ addr) as Hk; [apply H; by left|simpl in Hk; lia].
    + rewrite IH. split.
      * intros H e. rewrite elem_of_cons. intros [->|He]; [done|by apply H].
      * intros H e He. apply H. by right.
Qed.

Lemma upper_bound_Some addr maps e :
  MemoryRanges.ascending maps →
  MemoryRanges.upper_bound addr maps = Some e →
  e ∈ maps ∧ addr < e.1 ∧ ∀ e', e' ∈ maps → addr < e'.1 → e.1 ≤ e'.1.
Proof.
  induction maps as [|[k v] rest IH]; simpl; intros Hs; [done|].
  apply StronglySorted_inv in Hs as [Hrest Hall].
  destruct (Z.ltb_spec addr k) as [Hlt|Hge].
  - intros [= <-]. split; [by left|]. split; [done|]. simpl.
    intros e'. rewrite elem_of_cons. intros [->|He'] _; [done|].
    rewrite Forall_forall in Hall.
    assert (k < e'.1); [|lia]. apply Hall.
    apply list_elem_of_fmap. by exists e'.
  - intros Hub. destruct (IH Hrest Hub) as (Hin & Hgt & Hmin).
    split; [by right|]. split; [done|].
    intros e'. rewrite elem_of_cons. intros [->|He'] Hlt; [simpl in Hlt; lia|].
    by apply Hmin.
Qed.

Lemma Insert_maps m r :
  0 ≤ MemoryRange.offset_ r → 0 ≤ MemoryRange.length_ r →
  MemoryRanges.maps_ (MemoryRanges.Insert m r) =
    MemoryRanges.emplace
      (Z.min (MemoryRange.offset_ r + MemoryRange.length_ r) UINT64_MAX)
      r (MemoryRanges.maps_ m).
Proof.
  intros Ho Hl. unfold MemoryRanges.Insert, add_overflow,
    MemoryRange.offset, MemoryRange.length.
  destruct (Z.ltb_spec UINT64_MAX
              (MemoryRange.offset_ r + MemoryRange.length_ r)); simpl.
  - by rewrite Z.min_r by lia.
  - rewrite wrap64_small by lia. by rewrite Z.min_l by lia.
Qed.

(** What a run of [Insert] calls establishes, whatever the object held
    before. *)
Lemma Insert_foldl ranges m :
  (∀ r, r ∈ ranges → 0 ≤ MemoryRange.offset_ r ∧ 0 ≤ MemoryRange.length_ r) →
  MemoryRanges.ascending (MemoryRanges.maps_ m) →
  let m' := foldl MemoryRanges.Insert m ranges in
  MemoryRanges.ascending (MemoryRanges.maps_ m')
  ∧ (∀ e, e ∈ MemoryRanges.maps_ m' →
       e ∈ MemoryRanges.maps_ m
       ∨ (e.2 ∈ ranges
          ∧ e.1 = Z.min (MemoryRange.offset_ e.2 + MemoryRange.length_ e.2)
                    UINT64_MAX))
  ∧ (∀ e, e ∈ MemoryRanges.maps_ m → e ∈ MemoryRanges.maps_ m')
  ∧ (∀ r, r ∈ ranges →
       ∃ r', (Z.min (MemoryRange.offset_ r + MemoryRange.length_ r) UINT64_MAX,
              r') ∈ MemoryRanges.maps_ m').
Proof.
  revert m. induction ranges as [|r0 ranges IH]; intros m Hpos Hs; simpl.
  - split; [done|]. split; [auto|]. split; [auto|].
    intros r. by rewrite elem_of_nil.
  - destruct (Hpos r0) as [Ho Hl]; [by left|].
    assert (Hs0 : MemoryRanges.ascending (MemoryRanges.maps_ (MemoryRanges.Insert m r0))).
    { rewrite Insert_maps by done. by apply emplace_ascending. }
    destruct (IH (MemoryRanges.Insert m r0)) as (Hasc & Hfrom & Hkeep & Hkey);
      [intros r Hr; apply Hpos; by right | done |].
    split; [done|]. split; [|split].
    + intros e He. destruct (Hfrom e He) as [He0|[Hin Hk]].
      * rewrite Insert_maps in He0 by done.
        apply emplace_elem in He0 as [->|He0]; [right|by left].
        split; [by left|done].
      * right. split; [by right|done].
    + intros e He. apply Hkeep. rewrite Insert_maps by done.
      by apply emplace_keeps.
    + intros r. rewrite elem_of_cons. intros [->|Hr]; [|by apply Hkey].
      destruct (emplace_key_present
                  (Z.min (MemoryRange.offset_ r0 + MemoryRange.length_ r0)
                     UINT64_MAX) r0 (MemoryRanges.maps_ m)) as [r' Hr'].
      exists r'. apply Hkeep. by rewrite Insert_maps.
Qed.

(** C6.  In a Range-set memory every stored range sits under the key
    [offset + length], saturated to the largest 64-bit value; a read
    delegates to the entry with the smallest key strictly above [addr],
    and returns 0 when no key is above [addr]. *)
Theorem C6_range_set_read (ranges : list (MemoryRange.t S))
    (addr size : Z) (s : S) :
  (∀ r, r ∈ ranges → 0 ≤ MemoryRange.offset_ r ∧ 0 ≤ MemoryRange.length_ r) →
  let m := MemoryRanges.inserted ranges in
  (∀ k r, (k, r) ∈ MemoryRanges.maps_ m →
     r ∈ ranges
     ∧ k = Z.min (MemoryRange.offset_ r + MemoryRange.length_ r) UINT64_MAX)
  ∧ (∀ r, r ∈ ranges →
       ∃ r', (Z.min (MemoryRange.offset_ r + MemoryRange.length_ r) UINT64_MAX,
              r') ∈ MemoryRanges.maps_ m)
  ∧ (∀ k r, (k, r) ∈ MemoryRanges.maps_ m → addr < k →
       (∀ k' r', (k', r') ∈ MemoryRanges.maps_ m → addr < k' → k ≤ k') →
       MemoryRanges.Read m addr size s = MemoryRange.Read r addr size s)
  ∧ ((∀ k r, (k, r) ∈ MemoryRanges.maps_ m → k ≤ addr) →
       MemoryRanges.Read m addr size s = (no_read, s)).
Proof.
  intros Hpos m.
  destruct (Insert_foldl ranges MemoryRanges.empty Hpos) as (Hasc & Hfrom & _ & Hkey);
    [constructor|]. fold (MemoryRanges.inserted ranges) in Hasc, Hfrom, Hkey.
  fold m in Hasc, Hfrom, Hkey.
  split; [|split; [done|split]].
  - intros k r He. destruct (Hfrom _ He) as [He0|H]; [|done].
    simpl in He0. by apply elem_of_nil in He0.
  - intros k r He Hlt Hmin. unfold MemoryRanges.Read.
    destruct (MemoryRanges.upper_bound addr (MemoryRanges.maps_ m))
      as [[k0 r0]|] eqn:Hub.
    + apply upper_bound_Some in Hub as (Hin & Hgt & Hmin0); [|done].
      simpl in *. specialize (Hmin0 (k, r) He Hlt). simpl in Hmin0.
      specialize (Hmin k0 r0 Hin Hgt).
      assert (k0 = k) as -> by lia.
      by rewrite (ascending_key_unique _ _ _ _ Hasc Hin He).
    + rewrite upper_bound_None in Hub. specialize (Hub _ He). simpl in Hub. lia.
  - intros Hnone. unfold MemoryRanges.Read.
    destruct (MemoryRanges.upper_bound addr (MemoryRanges.maps_ m))
      as [[k0 r0]|] eqn:Hub; [|done].
    apply upper_bound_Some in Hub as (Hin & Hgt & _); [|done].
    specialize (Hnone _ _ Hin). simpl in Hgt. lia.
Qed.
End RangeSet.

Lemma C6_range_set_read_witness :
  MemoryRanges.maps_ (MemoryRanges.inserted [Samples.R1; Samples.R2])
    = [(100, Samples.R1); (200, Samples.R2)]
  ∧ MemoryRanges.Read (MemoryRanges.inserted [Samples.R1; Samples.R2]) 150 10 tt
      = MemoryRange.Read Samples.R2 150 10 tt
  ∧ MemoryRanges.Read (MemoryRanges.inserted [Samples.R1; Samples.R2]) 250 10 tt
      = (no_read, tt).
Proof.
  assert (∀ r, r ∈ [Samples.R1; Samples.R2] →
            0 ≤ MemoryRange.offset_ r ∧ 0 ≤ MemoryRange.length_ r) as Hpos.
  { intros r Hr. apply elem_of_cons in Hr as [->|Hr]; [simpl; lia|].
    apply list_elem_of_singleton in Hr as ->. simpl; lia. }
  pose proof (C6_range_set_read [Samples.R1; Samples.R2] 150 10 tt Hpos) as H150.
  pose proof (C6_range_set_read [Samples.R1; Samples.R2] 250 10 tt Hpos) as H250.
  cbv zeta in H150, H250.
  destruct H150 as (_ & _ & Hdelegate & _). destruct H250 as (_ & _ & _ & Hnone).
  split; [reflexivity|]. split.
  - apply (Hdelegate 200 Samples.R2); [right; left | lia |].
    intros k' r' Hin Hk'.
    change (MemoryRanges.maps_ _)
      with [(100, Samples.R1); (200, Samples.R2)] in Hin.
    apply elem_of_cons in Hin as [[= -> ->]|Hin]; [lia|].
    apply list_elem_of_singleton in Hin as [= -> ->]. lia.
  - apply Hnone. intros k r Hin.
    change (MemoryRanges.maps_ _)
      with [(100, Samples.R1); (200, Samples.R2)] in Hin.
    apply elem_of_cons in Hin as [[= -> ->]|Hin]; [lia|].
    apply list_elem_of_singleton in Hin as [= -> ->]. lia.
Defined.

(** Ranges [0,100) and [100,200): a read at 150 returns the second
    range's bytes, a read at the boundary 100 goes to the second range, a
    read at 250 returns 0. *)
Example range_set_sample :
  MemoryRanges.Read (MemoryRanges.inserted [Samples.R1; Samples.R2]) 150 10 tt
    = ((10, replicate 10 x62), tt)
  ∧ MemoryRanges.Read (MemoryRanges.inserted [Samples.R1; Samples.R2]) 100 3 tt
      = MemoryRange.Read Samples.R2 100 3 tt
  ∧ MemoryRanges.Read (MemoryRanges.inserted [Samples.R1; Samples.R2]) 250 10 tt
      = (no_read, tt).
Proof. repeat split. Qed.

(** ** C7: single offline snapshot *)

(** The object a successful [Init] at file offset 0 leaves behind. *)
Lemma MemoryOffline_Init_at_0 {S : Type} (fs : FileSystem)
    (m0 m : MemoryOffline.t S) (file : string) (header content : list byte) :
  file_contents fs file = Some (header ++ content) →
  length header = 8%nat →
  Z.of_nat (length (header ++ content)) ≤ UINT64_MAX →
  MemoryOffline.Init fs m0 file 0 = (true, m) →
  m = MemoryOffline.mk
        (Some (MemoryRange.mk
                 (MemoryFileAtOffset.reader
                    (MemoryFileAtOffset.mk (Some (header ++ content)) 0
                       (Z.of_nat (length (header ++ content)))))
                 8 (Z.of_nat (length content)) (le_value header))).
Proof.
  intros Hfile Hhdr Hfit. unfold MemoryOffline.Init.
  rewrite (MemoryFileAtOffset_Init_at_0 fs _ file (header ++ content)) by
    (rewrite ?length_app in *; (done || lia)).
  destruct (mmap_ok fs file _ 0); simpl negb; cbv iota; [|done].
  set (memory_file := MemoryFileAtOffset.mk _ _ _).
  assert (Memory.ReadFully (MemoryFileAtOffset.reader memory_file) 0 8 tt
          = ((true, header), tt)) as ->.
  { unfold Memory.ReadFully, MemoryFileAtOffset.reader, pure_reader,
      MemoryFileAtOffset.Read. subst memory_file.
    simpl MemoryFileAtOffset.size_. simpl MemoryFileAtOffset.data_.
    rewrite length_app. rewrite (proj2 (Z.leb_gt _ 0)) by lia.
    rewrite Z.sub_0_r, Z.min_r by lia. rewrite Z.eqb_refl.
    simpl default. by rewrite memcpy_from_app_l by lia. }
  simpl negb. cbv iota.
  unfold MemoryFileAtOffset.Size, sub_overflow. subst memory_file.
  simpl MemoryFileAtOffset.size_. rewrite length_app in *.
  rewrite (proj2 (Z.ltb_ge _ 8)) by lia.
  rewrite wrap64_small by lia.
  intros [= <-]. do 3 f_equal. lia.
Qed.

(** C7.  A single offline snapshot built from a file that holds the 8-byte
    start address [S] followed by [C] content bytes: after a successful
    [Init], [Read(S + k, dst, n)] for [k < C] returns [min(n, C - k)] bytes,
    the content bytes from index [k] on, and a read below [S] or at or
    above [S + C] returns 0. *)
Theorem C7_offline_snapshot_read {S : Type} (fs : FileSystem)
    (m0 m : MemoryOffline.t S) (file : string) (header content : list byte)
    (addr n : Z) (s : S) :
  file_contents fs file = Some (header ++ content) →
  length header = 8%nat →
  Z.of_nat (length (header ++ content)) ≤ UINT64_MAX →
  MemoryOffline.Init fs m0 file 0 = (true, m) →
  0 ≤ addr ≤ UINT64_MAX → 0 ≤ n →
  (∀ k, 0 ≤ k < Z.of_nat (length content) → addr = le_value header + k →
     MemoryOffline.Read m addr n s =
       ((Z.min n (Z.of_nat (length content) - k),
         memcpy_from content k (Z.min n (Z.of_nat (length content) - k))), s))
  ∧ (addr < le_value header
     ∨ le_value header + Z.of_nat (length content) ≤ addr →
     MemoryOffline.Read m addr n s = (no_read, s)).
Proof.
  intros Hfile Hhdr Hfit Hinit Haddr Hn.
  rewrite (MemoryOffline_Init_at_0 fs m0 m file header content) by done.
  pose proof (le_value_range header) as HS.
  unfold MemoryOffline.Read. simpl MemoryOffline.memory_. split.
  - intros k Hk ->. rewrite length_app in *.
    rewrite MemoryRange_Read_inside; simpl; try lia.
    unfold MemoryFileAtOffset.reader, pure_reader, MemoryFileAtOffset.Read.
    simpl MemoryFileAtOffset.size_. simpl MemoryFileAtOffset.data_.
    replace (le_value header + k - le_value header) with k by lia.
    rewrite (proj2 (Z.leb_gt _ _)) by lia.
    rewrite (Z.min_r (_ - (k + 8))) by lia.
    replace (k + 8) with (k + Z.of_nat (length header)) by lia.
    simpl default. by rewrite memcpy_from_app_r by lia.
  - intros Hout. apply MemoryRange_Read_outside; simpl; lia.
Qed.

Lemma C7_offline_snapshot_read_witness :
  (∀ k, 0 ≤ k < Z.of_nat (length Samples.snapshot_content) →
     0x1000 + 50 = le_value Samples.snapshot_header + k →
     MemoryOffline.Read Samples.snapshot (0x1000 + 50) 10 tt =
       ((Z.min 10 (Z.of_nat (length Samples.snapshot_content) - k),
         memcpy_from Samples.snapshot_content k
           (Z.min 10 (Z.of_nat (length Samples.snapshot_content) - k))), tt))
  ∧ (0x1000 + 50 < le_value Samples.snapshot_header
     ∨ le_value Samples.snapshot_header
         + Z.of_nat (length Samples.snapshot_content) ≤ 0x1000 + 50 →
     MemoryOffline.Read Samples.snapshot (0x1000 + 50) 10 tt = (no_read, tt)).
Proof.
  apply (C7_offline_snapshot_read Samples.snapshot_fs (MemoryOffline.mk None)
           Samples.snapshot "snapshot" Samples.snapshot_header
           Samples.snapshot_content (0x1000 + 50) 10 tt);
    [reflexivity | reflexivity | by vm_compute | reflexivity
    | unfold UINT64_MAX; lia | lia].
Defined.

(** The snapshot of the specification: start address 0x1000 and 100
    content bytes. *)
Example offline_snapshot_sample :
  le_value Samples.snapshot_header = 0x1000
  ∧ MemoryOffline.Read Samples.snapshot (0x1000 + 50) 10 tt
      = ((10, memcpy_from Samples.snapshot_content 50 10), tt)
  ∧ MemoryOffline.Read Samples.snapshot 0x2000 10 tt = (no_read, tt).
Proof. repeat split. Qed.

(** ** C8: a failed page fill *)

Section CacheFill.
Context {S : Type}.
Variable kCacheBits : Z.
Variable impl_ : Reader S.

Local Notation find_or_fill := (MemoryCacheBase.find_or_fill kCacheBits impl_).
Local Notation InternalCachedRead :=
  (MemoryCacheBase.InternalCachedRead kCacheBits impl_).
Local Notation kCacheSize := (MemoryCacheBase.kCacheSize kCacheBits).
Local Notation kCacheMask := (MemoryCacheBase.kCacheMask kCacheBits).

(** A failed fill of an absent page leaves the map as it was. *)
Lemma find_or_fill_failed addr_page (cache : gmap Z (list byte)) (s : S) :
  cache !! addr_page = None →
  let fill := Memory.ReadFully impl_ (shl64 addr_page kCacheBits) kCacheSize s in
  fill.1.1 = false →
  find_or_fill addr_page cache s = (None, (cache, fill.2)).
Proof.
  intros Habsent fill Hfail. unfold MemoryCacheBase.find_or_fill.
  rewrite Habsent. fold fill. destruct fill as [[ok bytes] s1].
  simpl in Hfail. subst ok. simpl.
  by rewrite insert_insert_eq, delete_insert_id.
Qed.

(** Whatever [find_or_fill] does, it touches no other page. *)
Lemma find_or_fill_other addr_page (cache : gmap Z (list byte)) (s : S) q :
  q ≠ addr_page →
  (find_or_fill addr_page cache s).2.1 !! q = cache !! q.
Proof.
  intros Hq. unfold MemoryCacheBase.find_or_fill.
  destruct (cache !! addr_page) as [cache_dst|]; [done|].
  destruct (Memory.ReadFully _ _ _ _) as [[[] bytes] s1]; simpl.
  - by rewrite !lookup_insert_ne.
  - by rewrite lookup_delete_ne, !lookup_insert_ne.
Qed.

(** C8.  When the fill of the page holding [addr] fails, the slot is
    gone again (the map is the one before the call, so the other pages
    stay cached) and the call returns the uncached read of exactly
    [(addr, size)] from the wrapped source.  The same step is taken for
    the second page of a request that spans two: when that page's fill
    fails, its slot is gone again, the first page stays as it was
    obtained, and the call returns the first page's share from the cache
    followed by the uncached read of the remaining [size - max_read]
    bytes at the second page's base. *)
Theorem C8_failed_fill_falls_back (addr size : Z)
    (cache : gmap Z (list byte)) (s : S) :
  let addr_page := Z.shiftr addr kCacheBits in
  let max_read := sub64 (shl64 (addr_page + 1) kCacheBits) addr in
  let next_page := add64 addr_page 1 in
  (cache !! addr_page = None →
   let fill := Memory.ReadFully impl_ (shl64 addr_page kCacheBits) kCacheSize s in
   fill.1.1 = false →
   InternalCachedRead addr size cache s =
     ((impl_ addr size fill.2).1, (cache, (impl_ addr size fill.2).2)))
  ∧ (∀ cache_dst cache1 s1,
       find_or_fill addr_page cache s = (Some cache_dst, (cache1, s1)) →
       max_read < size →
       cache1 !! next_page = None →
       let fill := Memory.ReadFully impl_ (shl64 next_page kCacheBits) kCacheSize s1 in
       fill.1.1 = false →
       let rest := impl_ (shl64 next_page kCacheBits) (sub64 size max_read) fill.2 in
       InternalCachedRead addr size cache s =
         ((add64 (copied rest.1) max_read,
           memcpy_from cache_dst (Z.land addr kCacheMask) max_read
             ++ dst_bytes rest.1),
          (cache1, rest.2))
       ∧ cache1 !! next_page = None
       ∧ ∀ q, q ≠ addr_page → cache1 !! q = cache !! q).
Proof.
  intros addr_page max_read next_page. split.
  - intros Habsent fill Hfail. unfold MemoryCacheBase.InternalCachedRead.
    fold addr_page. rewrite find_or_fill_failed by done. fold fill.
    by destruct (impl_ addr size fill.2).
  - intros cache_dst cache1 s1 Hfirst Hspan Habsent fill Hfail rest.
    split; [|split; [done|]].
    + unfold MemoryCacheBase.InternalCachedRead. fold addr_page.
      rewrite Hfirst. fold max_read.
      rewrite (proj2 (Z.leb_gt _ _)) by lia. fold next_page.
      rewrite find_or_fill_failed by done. fold fill. fold rest.
      by destruct rest as [[bytes data] s3].
    + intros q Hq.
      pose proof (find_or_fill_other addr_page cache s q Hq) as Hother.
      by rewrite Hfirst in Hother.
Qed.
End CacheFill.

Lemma C8_failed_fill_falls_back_witness :
  MemoryCacheBase.InternalCachedRead 12 (MemoryRanges.Read Samples.paged_ranges)
      4097 2 ∅ tt
    = ((MemoryRanges.Read Samples.paged_ranges 4097 2 tt).1, (∅, tt))
  ∧ (MemoryCacheBase.InternalCachedRead 12 (MemoryRanges.Read Samples.paged_ranges)
       4090 20 ∅ tt).1
    = (10, replicate 6 x61 ++ replicate 4 x62)
  ∧ (MemoryCacheBase.InternalCachedRead 12 (MemoryRanges.Read Samples.paged_ranges)
       4090 20 ∅ tt).2.1 !! 1 = None.
Proof.
  pose proof (C8_failed_fill_falls_back 12
                (MemoryRanges.Read Samples.paged_ranges) 4097 2 ∅ tt) as [H1 _].
  pose proof (C8_failed_fill_falls_back 12
                (MemoryRanges.Read Samples.paged_ranges) 4090 20 ∅ tt) as [_ H2].
  cbv zeta in H1, H2.
  specialize (H1 eq_refl eq_refl).
  specialize (H2 (replicate 4096 x61) {[ 0 := replicate 4096 x61 ]} tt
                eq_refl eq_refl eq_refl eq_refl).
  destruct H2 as (H2 & H3 & _).
  split; [exact H1|]. rewrite H2. split; reflexivity.
Defined.

(** The second-page step over a range set, which does not stitch
    adjacent ranges: the second page cannot be filled, and the call
    returns 10 bytes, the first page's 6 followed by the uncached read at
    the second page's base, where an uncached read of the whole request
    stops at the end of the first range with 6. *)
Example cache_over_adjacent_ranges_sample :
  (∅ : gmap Z (list byte)) !! 1 = None
  ∧ (Memory.ReadFully (MemoryRanges.Read Samples.paged_ranges)
       (shl64 1 12) (MemoryCacheBase.kCacheSize 12) tt).1.1 = false
  ∧ copied (MemoryCacheBase.InternalCachedRead 12
              (MemoryRanges.Read Samples.paged_ranges) 4090 20 ∅ tt).1 = 10
  ∧ copied (MemoryRanges.Read Samples.paged_ranges 4090 20 tt).1 = 6
  ∧ (MemoryCacheBase.InternalCachedRead 12
       (MemoryRanges.Read Samples.paged_ranges) 4090 20 ∅ tt).1
    ≠ (MemoryRanges.Read Samples.paged_ranges 4090 20 tt).1.
Proof.
  split; [reflexivity|]. split; [reflexivity|]. split; [reflexivity|].
  split; [reflexivity|].
  intros Heq. apply (f_equal copied) in Heq. vm_compute in Heq. discriminate.
Qed.

(** ** The ghost log of the two process-read routes *)

Section ProcessReadsLog.
Context {W : Type}.
Variable os : Kernel.t W.

Lemma ProcessVmRead_loop_calls fuel pid cur len total_read dst (s : Sys W) :
  calls (ProcessVmRead_loop os fuel pid cur len total_read dst s).2 = calls s.
Proof.
  revert cur len total_read dst s.
  induction fuel as [|fuel IH]; intros cur len total_read dst s;
    cbn [ProcessVmRead_loop]; [done|].
  destruct (0 <? len); [|done].
  destruct (fill_iovecs os kMaxIovecs cur len []) as [[[cur' len'] iovs]|];
    [|done].
  destruct (Kernel.process_vm_readv os pid len iovs (world s)) as [[data|] w'];
    [|done].
  by rewrite IH.
Qed.

Lemma ProcessVmRead_calls pid remote_src len (s : Sys W) :
  calls (ProcessVmRead os pid remote_src len s).2 =
    calls s ++ [CallProcessVmRead pid remote_src len].
Proof. unfold ProcessVmRead. by rewrite ProcessVmRead_loop_calls. Qed.

Lemma PtraceReadLong_calls pid addr (s : Sys W) :
  calls (PtraceReadLong os pid addr s).2 = calls s.
Proof.
  unfold PtraceReadLong.
  by destruct (Kernel.ptrace_peektext os pid addr (world s)).
Qed.

Lemma PtraceRead_words_calls count pid addr bytes_read dst (s : Sys W) :
  calls (PtraceRead_words os count pid addr bytes_read dst s).2 = calls s.
Proof.
  revert addr bytes_read dst s.
  induction count as [|count IH]; intros addr bytes_read dst s; simpl; [done|].
  pose proof (PtraceReadLong_calls pid addr s) as Hlong.
  destruct (PtraceReadLong os pid addr s) as [[data|] s']; simpl in *; [|done].
  by rewrite IH.
Qed.

Lemma PtraceRead_aligned_calls pid addr bytes bytes_read dst (s : Sys W) :
  calls (PtraceRead_aligned os pid addr bytes bytes_read dst s).2 = calls s.
Proof.
  unfold PtraceRead_aligned.
  pose proof (PtraceRead_words_calls (Z.to_nat (bytes / 8)) pid addr
                bytes_read dst s) as Hwords.
  destruct (PtraceRead_words os _ pid addr bytes_read dst s)
    as [[result|[[addr' bytes_read'] dst']] s']; simpl in *; [done|].
  destruct (Z.land bytes 7 =? 0); [done|].
  pose proof (PtraceReadLong_calls pid addr' s') as Hlong.
  destruct (PtraceReadLong os pid addr' s') as [[data|] s'']; simpl in *;
    congruence.
Qed.

Lemma PtraceRead_calls pid addr bytes (s : Sys W) :
  calls (PtraceRead os pid addr bytes s).2 =
    calls s ++ [CallPtraceRead pid addr bytes].
Proof.
  unfold PtraceRead.
  destruct (add_overflow addr bytes) as [[] max_size]; [done|].
  destruct (Z.land addr 7 =? 0).
  { by rewrite PtraceRead_aligned_calls. }
  set (s0 := log_call _ s).
  pose proof (PtraceReadLong_calls pid (Z.land addr (Z.lnot 7)) s0) as Hlong.
  destruct (PtraceReadLong os pid _ s0) as [[data|] s']; simpl in *; [|done].
  by rewrite PtraceRead_aligned_calls.
Qed.

(** The log entry of a call through the stored function pointer. *)
Lemma call_calls f pid addr size (s : Sys W) :
  calls (MemoryRemote.call os f pid addr size s).2 =
    calls s ++ [MemoryRemote.entry f pid addr size].
Proof. destruct f; [apply ProcessVmRead_calls | apply PtraceRead_calls]. Qed.
End ProcessReadsLog.

(** ** C9: the sticky strategy of remote memory *)

Section RemoteStrategy.
Context {W : Type}.
Variable os : Kernel.t W.

(** A pinned object keeps its strategy and enters nothing else. *)
Lemma Reads_pinned f (m : MemoryRemote.t) requests (s : Sys W) :
  MemoryRemote.read_redirect_func_ m = Some f →
  (MemoryRemote.Reads os m requests s).2.1 = m
  ∧ calls (MemoryRemote.Reads os m requests s).2.2 =
      calls s ++ ((λ q, MemoryRemote.entry f (MemoryRemote.pid_ m) q.1 q.2)
                    <$> requests).
Proof.
  intros Hf. revert s.
  induction requests as [|[addr size] rest IH]; intros s; simpl.
  - by rewrite app_nil_r.
  - unfold MemoryRemote.Read. rewrite Hf.
    pose proof (call_calls os f (MemoryRemote.pid_ m) addr size s) as Hc.
    destruct (MemoryRemote.call os f _ addr size s) as [result s'].
    destruct (IH s') as [Hm Hlog].
    destruct (MemoryRemote.Reads os m rest s') as [rs [m' s'']].
    simpl in *. split; [done|].
    rewrite Hlog, Hc. by rewrite <- app_assoc.
Qed.

(** C9.  A remote memory whose strategy is not yet recorded enters the
    bulk path first and the word-at-a-time path only when the bulk path
    yields zero bytes; it records whichever path first returns a non-zero
    count.  Once a path is recorded, every later [Read] enters that path
    and no other, and the record stays. *)
Theorem C9_remote_strategy_is_sticky (m : MemoryRemote.t) :
  (∀ addr size (s : Sys W),
     MemoryRemote.read_redirect_func_ m = None →
     let bulk := ProcessVmRead os (MemoryRemote.pid_ m) addr size s in
     let word := PtraceRead os (MemoryRemote.pid_ m) addr size bulk.2 in
     let after := MemoryRemote.Read os m addr size s in
     (0 < copied bulk.1 →
        after = (bulk.1, (MemoryRemote.set_redirect m
                            MemoryRemote.ProcessVmRead_func, bulk.2))
        ∧ calls after.2.2 =
            calls s ++ [CallProcessVmRead (MemoryRemote.pid_ m) addr size])
     ∧ (copied bulk.1 ≤ 0 →
        calls after.2.2 =
          calls s ++ [CallProcessVmRead (MemoryRemote.pid_ m) addr size;
                      CallPtraceRead (MemoryRemote.pid_ m) addr size]
        ∧ (0 < copied word.1 →
             after = (word.1, (MemoryRemote.set_redirect m
                                 MemoryRemote.PtraceRead_func, word.2)))
        ∧ (copied word.1 ≤ 0 → after = (word.1, (m, word.2)))))
  ∧ (∀ f requests (s : Sys W),
       MemoryRemote.read_redirect_func_ m = Some f →
       let after := MemoryRemote.Reads os m requests s in
       after.2.1 = m
       ∧ calls after.2.2 =
           calls s ++ ((λ q, MemoryRemote.entry f (MemoryRemote.pid_ m) q.1 q.2)
                         <$> requests)).
Proof.
  split; [|intros f requests s Hf; by apply Reads_pinned].
  intros addr size s Hnone bulk word after.
  subst after. unfold MemoryRemote.Read. rewrite Hnone.
  pose proof (ProcessVmRead_calls os (MemoryRemote.pid_ m) addr size s) as Hb.
  pose proof (PtraceRead_calls os (MemoryRemote.pid_ m) addr size bulk.2) as Hw.
  fold bulk in Hb. fold word in Hw. fold bulk.
  destruct bulk as [rb sb] eqn:Ebulk. simpl in *. fold word.
  destruct word as [rw sw] eqn:Eword. simpl in *.
  destruct (Z.ltb_spec 0 (copied rb)) as [Hpos|Hzero].
  - split; [done|lia].
  - split; [lia|]. intros _.
    destruct (Z.ltb_spec 0 (copied rw)) as [Hposw|Hzerow]; simpl.
    + rewrite Hw, Hb, <- app_assoc. split; [done|]. split; [done|lia].
    + rewrite Hw, Hb, <- app_assoc. split; [done|]. split; [lia|done].
Qed.
End RemoteStrategy.

Lemma C9_remote_strategy_is_sticky_witness :
  MemoryRemote.Read Samples.ptrace_only Samples.remote 4096 4 (Samples.start tt)
    = ((4, replicate 4 x2a),
       (MemoryRemote.set_redirect Samples.remote MemoryRemote.PtraceRead_func,
        mkSys tt [CallProcessVmRead 7 4096 4; CallPtraceRead 7 4096 4]))
  ∧ calls (MemoryRemote.Reads Samples.ptrace_only
             (MemoryRemote.set_redirect Samples.remote MemoryRemote.PtraceRead_func)
             [(4097, 4); (5000, 4)] (Samples.start tt)).2.2
    = [CallPtraceRead 7 4097 4; CallPtraceRead 7 5000 4].
Proof.
  pose proof (C9_remote_strategy_is_sticky Samples.ptrace_only Samples.remote)
    as [Hfirst _].
  pose proof (C9_remote_strategy_is_sticky Samples.ptrace_only
                (MemoryRemote.set_redirect Samples.remote
                   MemoryRemote.PtraceRead_func)) as [_ Hpinned].
  specialize (Hfirst 4096 4 (Samples.start tt) eq_refl). cbv zeta in Hfirst.
  destruct Hfirst as [_ Hfallback].
  destruct Hfallback as (_ & Hword & _); [vm_compute; discriminate|].
  specialize (Hword eq_refl).
  specialize (Hpinned MemoryRemote.PtraceRead_func [(4097, 4); (5000, 4)]
                (Samples.start tt) eq_refl).
  cbv zeta in Hpinned. destruct Hpinned as [_ Hlog].
  split; [exact Hword | exact Hlog].
Defined.

(** The bulk path yields 0 once and the word path has data: the first call
    succeeds through the word path, and the later calls enter the word
    path only. *)
Example remote_fallback_sample :
  calls (MemoryRemote.Reads Samples.bulk_fails_once Samples.remote
           [(4096, 4); (4096, 4); (5000, 4)] (Samples.start 0%nat)).2.2
    = [CallProcessVmRead 7 4096 4; CallPtraceRead 7 4096 4;
       CallPtraceRead 7 4096 4; CallPtraceRead 7 5000 4]
  ∧ (MemoryRemote.Reads Samples.bulk_fails_once Samples.remote
       [(4096, 4); (4096, 4); (5000, 4)] (Samples.start 0%nat)).1
    = [(4, replicate 4 x2a); (4, replicate 4 x2a); (4, replicate 4 x2a)].
Proof. split; reflexivity. Qed.

(** ** The round budget of [ProcessVmRead] *)

Section ProcessVmReadBudget.
Context {W : Type}.
Variable os : Kernel.t W.
Hypothesis pagesize_range : 1 ≤ Kernel.getpagesize os ≤ UINT64_MAX.

(** Filling descriptors never gives bytes back. *)
Lemma fill_iovecs_len slots cur len src_iovs cur' len' src_iovs' :
  fill_iovecs os slots cur len src_iovs = Some (cur', len', src_iovs') →
  len' ≤ len.
Proof.
  revert cur len src_iovs.
  induction slots as [|slots IH]; intros cur len src_iovs; cbn [fill_iovecs].
  { intros [= <- <- <-]. lia. }
  destruct (Z.ltb_spec 0 len) as [Hpos|]; [|intros [= <- <- <-]; lia].
  destruct (UINTPTR_MAX <=? cur); [done|].
  destruct (add_overflow _ _) as [[] cur1]; [done|].
  intros Hrest. apply IH in Hrest.
  pose proof (land_le_r cur (Kernel.getpagesize os - 1) ltac:(lia)) as Hmis.
  rewrite sub64_small in Hrest by lia. lia.
Qed.

(** The first descriptor takes at least one byte. *)
Lemma fill_iovecs_progress slots cur len cur' len' src_iovs' :
  0 < len →
  fill_iovecs os (Datatypes.S slots) cur len [] = Some (cur', len', src_iovs') →
  len' < len.
Proof.
  intros Hpos. cbn [fill_iovecs]. rewrite (proj2 (Z.ltb_lt _ _)) by done.
  destruct (UINTPTR_MAX <=? cur); [done|].
  destruct (add_overflow _ _) as [[] cur1]; [done|].
  intros Hrest. apply fill_iovecs_len in Hrest.
  pose proof (land_le_r cur (Kernel.getpagesize os - 1) ltac:(lia)) as Hmis.
  rewrite sub64_small in Hrest by lia. lia.
Qed.

(** [len] rounds are enough: more change nothing. *)
Lemma ProcessVmRead_loop_fuel fuel1 fuel2 pid cur len total_read dst (s : Sys W) :
  len ≤ Z.of_nat fuel1 → len ≤ Z.of_nat fuel2 →
  ProcessVmRead_loop os fuel1 pid cur len total_read dst s =
    ProcessVmRead_loop os fuel2 pid cur len total_read dst s.
Proof.
  revert fuel2 cur len total_read dst s.
  induction fuel1 as [|fuel1 IH]; intros fuel2 cur len total_read dst s H1 H2.
  - destruct fuel2; cbn [ProcessVmRead_loop]; [done|].
    by rewrite (proj2 (Z.ltb_ge _ _)) by lia.
  - cbn [ProcessVmRead_loop].
    destruct (Z.ltb_spec 0 len) as [Hpos|Hzero].
    + destruct fuel2 as [|fuel2]; [lia|]. cbn [ProcessVmRead_loop].
      rewrite (proj2 (Z.ltb_lt _ _)) by done.
      destruct (fill_iovecs os kMaxIovecs cur len []) as [[[cur' len'] iovs]|]
        eqn:Hfill; [|done].
      apply fill_iovecs_progress in Hfill; [|done].
      destruct (Kernel.process_vm_readv os pid len iovs (world s)) as [[data|] w'];
        [|done].
      apply IH; lia.
    + destruct fuel2; cbn [ProcessVmRead_loop]; [done|].
      by rewrite (proj2 (Z.ltb_ge _ _)) by lia.
Qed.
End ProcessVmReadBudget.

(** ** C10: local-process memory *)

Section DirectCopy.
Context {W : Type}.
Variable os : Kernel.t W.

(** The direct copy faults exactly when one byte of the request is not
    mapped readable or lies beyond the last address. *)
Lemma own_bytes_None (w : W) (addr size : Z) :
  own_bytes os w addr size = None ↔
  ∃ i : nat, Z.of_nat i < size
    ∧ (UINT64_MAX < addr + Z.of_nat i
       ∨ Kernel.own_memory os w (addr + Z.of_nat i) = None).
Proof.
  unfold own_bytes. rewrite mapM_None, Exists_exists. split.
  - intros (i & Hi & Hbad). apply elem_of_seq in Hi. exists i. split; [lia|].
    simpl in Hbad. destruct (Z.leb_spec (addr + Z.of_nat i) UINT64_MAX);
      [by right | left; lia].
  - intros (i & Hi & Hbad). exists i. split; [apply elem_of_seq; lia|].
    simpl. destruct (Z.leb_spec (addr + Z.of_nat i) UINT64_MAX);
      [by destruct Hbad; [lia|] | done].
Qed.

(** What the direct copy hands over when it does not fault. *)
Lemma own_bytes_Some (w : W) (addr size : Z) (bytes : list byte) :
  0 ≤ size →
  own_bytes os w addr size = Some bytes →
  Z.of_nat (length bytes) = size
  ∧ ∀ i : nat, Z.of_nat i < size →
      addr + Z.of_nat i ≤ UINT64_MAX
      ∧ Kernel.own_memory os w (addr + Z.of_nat i) = bytes !! i.
Proof.
  intros Hsize Hcopy. unfold own_bytes in Hcopy.
  pose proof (length_mapM _ _ _ Hcopy) as Hlen. rewrite length_seq in Hlen.
  split; [lia|]. intros i Hi.
  apply mapM_Some_1 in Hcopy.
  destruct (Forall2_lookup_l _ _ _ i i Hcopy) as (b & Hb & Hread).
  { apply lookup_seq_lt. lia. }
  simpl in Hread. rewrite Hb.
  destruct (Z.leb_spec (addr + Z.of_nat i) UINT64_MAX); [done | discriminate].
Qed.
End DirectCopy.

(** C10.  A local-process read of a non-zero size does not return 0, and
    a return short of [size] is what a partial bulk transfer returned.
    When the bulk copy transfers zero bytes the direct copy is taken: the
    call reports exactly [size] bytes, the bytes of the process at
    [addr], when every byte of the request is mapped readable; when one
    is not, or lies beyond the last address, the copy faults and the call
    does not return, where the claim has it report [size] bytes. *)
Theorem C10_local_read_outcomes {W : Type} (os : Kernel.t W)
    (addr size : Z) (s : Sys W) :
  0 < size →
  let bulk := ProcessVmRead os (Kernel.getpid os) addr size s in
  let after := MemoryLocal.Read os addr size s in
  after.2 = bulk.2
  ∧ (∀ r, after.1 = Returns r →
       copied r ≠ 0 ∧ (copied r ≠ size → copied bulk.1 ≠ 0 ∧ r = bulk.1))
  ∧ (copied bulk.1 = 0 →
       (∀ bytes, own_bytes os (world bulk.2) addr size = Some bytes →
          after.1 = Returns (size, bytes)
          ∧ Z.of_nat (length bytes) = size
          ∧ ∀ i : nat, Z.of_nat i < size →
              Kernel.own_memory os (world bulk.2) (addr + Z.of_nat i)
                = bytes !! i)
       ∧ ((∃ i : nat, Z.of_nat i < size
             ∧ (UINT64_MAX < addr + Z.of_nat i
                ∨ Kernel.own_memory os (world bulk.2) (addr + Z.of_nat i)
                    = None)) →
          after.1 = Faults)).
Proof.
  intros Hsize bulk after. subst after. unfold MemoryLocal.Read. fold bulk.
  destruct bulk as [result s']. simpl.
  rewrite (proj2 (Z.eqb_neq size 0)) by lia. simpl negb. rewrite andb_true_r.
  destruct (Z.eqb_spec (copied result) 0) as [Hz|Hnz]; simpl.
  - destruct (own_bytes os (world s') addr size) as [bytes|] eqn:Hcopy; simpl.
    + split; [done|]. split.
      { intros r [= <-]. unfold copied. simpl. split; [lia | done]. }
      intros _. split.
      * intros bytes' [= <-]. split; [done|].
        destruct (own_bytes_Some os (world s') addr size bytes ltac:(lia) Hcopy)
          as [Hlen Hbytes].
        split; [done|]. intros i Hi. by apply Hbytes.
      * intros Hbad. apply own_bytes_None in Hbad. congruence.
    + split; [done|]. split; [by intros r [=]|].
      intros _. split; [by intros bytes [=] | done].
  - split; [done|]. split; [|done].
    intros r [= <-]. split; [done|]. by intros _.
Qed.

(** The read [MemoryLocal::Read(0x20001000, dst, 4)] in a process of which
    only [0x1000, 0x2000) is mapped: the bulk call is refused, the direct
    copy loads from the unmapped address, and the call does not return. *)
Lemma C10_local_read_outcomes_witness :
  copied (ProcessVmRead Samples.one_page 100 0x20001000 4 (Samples.start tt)).1
    = 0
  ∧ MemoryLocal.Read Samples.one_page 0x20001000 4 (Samples.start tt)
    = (Faults, mkSys tt [CallProcessVmRead 100 0x20001000 4]).
Proof.
  pose proof (C10_local_read_outcomes Samples.one_page 0x20001000 4
                (Samples.start tt) ltac:(lia)) as H.
  cbv zeta in H. destruct H as (Hstate & _ & Hdirect).
  destruct (Hdirect eq_refl) as [_ Hfault].
  split; [reflexivity|].
  apply injective_projections; [|exact Hstate].
  apply Hfault. exists 0%nat. split; [lia|]. right. reflexivity.
Defined.

(** On a system that refuses the bulk call, a read of memory that is
    mapped readable is served by the direct copy. *)
Example local_direct_copy_sample :
  MemoryLocal.Read Samples.ptrace_only 4096 4 (Samples.start tt)
    = (Returns (4, replicate 4 x2a), mkSys tt [CallProcessVmRead 100 4096 4]).
Proof. reflexivity. Qed.

(** * Further properties of the code *)

(** ** Offline buffer memory and [GetPtr] *)

(** X1.  An offline buffer over the bytes [data] captured at [start, end):
    a read at an address inside the capture returns [min(size, end - addr)]
    bytes, the captured bytes from index [addr - start] on; a read below
    [start] or at or above [end] returns 0. *)
Theorem X1_offline_buffer_read (data : list byte) (start end_ addr size : Z) :
  0 ≤ start ≤ end_ → Z.of_nat (length data) = end_ - start → 0 ≤ size →
  let r := MemoryOfflineBuffer.Read (CreateOfflineMemory data start end_) addr size in
  (start ≤ addr < end_ →
     copied r = Z.min size (end_ - addr)
     ∧ Z.of_nat (length (dst_bytes r)) = copied r
     ∧ ∀ i : nat, Z.of_nat i < copied r →
         dst_bytes r !! i = data !! (Z.to_nat (addr - start) + i)%nat)
  ∧ (addr < start ∨ end_ ≤ addr → r = no_read).
Proof.
  intros Hse Hlen Hsize r. subst r.
  unfold MemoryOfflineBuffer.Read, CreateOfflineMemory, copied, dst_bytes. simpl.
  destruct (Z.ltb_spec addr start) as [Hlow|Hge]; simpl.
  { split; [lia|done]. }
  destruct (Z.leb_spec end_ addr) as [Hhigh|Hin]; simpl.
  { split; [lia|done]. }
  split; [|lia]. intros _. split; [done|]. split.
  - apply memcpy_from_length; lia.
  - intros i Hi. by rewrite memcpy_from_lookup by lia.
Qed.

Lemma X1_offline_buffer_read_witness :
  MemoryOfflineBuffer.Read (CreateOfflineMemory Samples.text 0x1000 0x1004) 0x1001 8
    = (3, [x62; x00; x63])
  ∧ MemoryOfflineBuffer.Read (CreateOfflineMemory Samples.text 0x1000 0x1004) 0x1004 8
    = no_read.
Proof.
  pose proof (X1_offline_buffer_read Samples.text 0x1000 0x1004 0x1001 8
                ltac:(lia) eq_refl ltac:(lia)) as [Hin _].
  pose proof (X1_offline_buffer_read Samples.text 0x1000 0x1004 0x1004 8
                ltac:(lia) eq_refl ltac:(lia)) as [_ Hout].
  cbv zeta in Hin, Hout. destruct (Hin ltac:(lia)) as (Hcount & _).
  split; [reflexivity | exact (Hout ltac:(lia))].
Defined.

(** X2.  [GetPtr] and [Read] agree on a buffer that owns [size_] bytes:
    [GetPtr(offset)] is null exactly when [offset >= size_]; otherwise it
    points at [size_ - offset] bytes, and what [Read(offset, dst, n)] copies
    is the first [min(n, size_ - offset)] of them. *)
Theorem X2_GetPtr_agrees_with_Read (m : MemoryBuffer.t) (offset n : Z) :
  MemoryBuffer.wf m → 0 ≤ offset → 0 ≤ n →
  (MemoryBuffer.GetPtr m offset = None ↔ MemoryBuffer.size_ m ≤ offset)
  ∧ (MemoryBuffer.GetPtr m offset = None → MemoryBuffer.Read m offset n = no_read)
  ∧ ∀ p, MemoryBuffer.GetPtr m offset = Some p →
      Z.of_nat (length p) = MemoryBuffer.size_ m - offset
      ∧ MemoryBuffer.Read m offset n =
          (Z.min (Z.of_nat (length p)) n, take (Z.to_nat n) p).
Proof.
  intros Hwf Hoff Hn. unfold MemoryBuffer.wf in Hwf.
  unfold MemoryBuffer.GetPtr, MemoryBuffer.Read.
  destruct (Z.ltb_spec offset (MemoryBuffer.size_ m)) as [Hlt|Hge].
  - rewrite (proj2 (Z.leb_gt _ _)) by lia.
    split; [split; [done|lia]|]. split; [done|].
    intros p [= <-]. rewrite length_drop.
    split; [lia|]. f_equal; [f_equal; lia|].
    unfold memcpy_from.
    destruct (Z.le_ge_cases n (MemoryBuffer.size_ m - offset)).
    + by rewrite Z.min_r by lia.
    + rewrite Z.min_l by lia. rewrite !take_ge; [done|rewrite length_drop; lia..].
  - rewrite (proj2 (Z.leb_le _ _)) by lia.
    split; [split; [lia|done]|]. split; [done|]. intros p [=].
Qed.

Lemma X2_GetPtr_agrees_with_Read_witness :
  MemoryBuffer.GetPtr Samples.text_buffer 4 = None
  ∧ MemoryBuffer.GetPtr Samples.text_buffer 1 = Some [x62; x00; x63]
  ∧ MemoryBuffer.Read Samples.text_buffer 1 2 = (2, [x62; x00]).
Proof.
  pose proof (X2_GetPtr_agrees_with_Read Samples.text_buffer 4 2
                eq_refl ltac:(lia) ltac:(lia)) as [Hnull _].
  pose proof (X2_GetPtr_agrees_with_Read Samples.text_buffer 1 2
                eq_refl ltac:(lia) ltac:(lia)) as (_ & _ & Hptr).
  destruct (Hptr [x62; x00; x63] eq_refl) as [_ HRead].
  split; [apply Hnull; simpl; lia|]. split; [reflexivity | exact HRead].
Defined.

(** ** Multi-part offline memory *)

Lemma MemoryOfflineParts_Read_is_loop {S : Type} (parts : list (MemoryOffline.t S))
    addr size (s : S) :
  MemoryOfflineParts.Read (MemoryOfflineParts.mk parts) addr size s =
    MemoryOfflineParts.Read_loop parts addr size s.
Proof. by destruct parts. Qed.

Lemma Read_loop_app {S : Type} (pre post : list (MemoryOffline.t S)) addr size (s : S) :
  MemoryOfflineParts.Read_loop (pre ++ post) addr size s =
    if copied (MemoryOfflineParts.Read_loop pre addr size s).1 =? 0
    then MemoryOfflineParts.Read_loop post addr size
           (MemoryOfflineParts.Read_loop pre addr size s).2
    else MemoryOfflineParts.Read_loop pre addr size s.
Proof.
  revert s. induction pre as [|part pre IH]; intros s; simpl; [done|].
  destruct (MemoryOffline.Read part addr size s) as [[bytes data] s'].
  destruct (Z.eqb_spec bytes 0) as [->|Hnz]; [apply IH|].
  unfold copied. simpl. by rewrite (proj2 (Z.eqb_neq _ _)).
Qed.

(** X3.  A multi-part offline memory answers from one part only, the first
    in the order the parts were added whose read is not 0: the parts
    before it are asked and return 0, the parts after it are not asked.
    It returns 0 when every part returns 0. *)
Theorem X3_offline_parts_first_part_wins {S : Type}
    (pre post parts : list (MemoryOffline.t S)) (addr size : Z) (s : S) :
  let Read l := MemoryOfflineParts.Read (MemoryOfflineParts.mk l) addr size in
  Read (pre ++ post) s =
    (if copied (Read pre s).1 =? 0 then Read post (Read pre s).2 else Read pre s)
  ∧ (copied (Read parts s).1 ≠ 0 →
     ∃ part s0, part ∈ parts
       ∧ MemoryOffline.Read part addr size s0 = Read parts s)
  ∧ ((∀ part s0, part ∈ parts →
        copied (MemoryOffline.Read part addr size s0).1 = 0) →
     (Read parts s).1 = no_read).
Proof.
  intros Read. subst Read. cbv beta.
  rewrite !MemoryOfflineParts_Read_is_loop. split; [apply Read_loop_app|].
  split.
  - revert s. induction parts as [|part parts IH]; intros s; simpl; [done|].
    destruct (MemoryOffline.Read part addr size s) as [[bytes data] s'] eqn:E.
    destruct (Z.eqb_spec bytes 0) as [->|Hnz].
    + intros Hres. destruct (IH s' Hres) as (p & s0 & Hin & Hp).
      exists p, s0. split; [by right|done].
    + intros _. exists part, s. split; [by left|done].
  - revert s. induction parts as [|part parts IH]; intros s Hzero; simpl; [done|].
    pose proof (Hzero part s ltac:(by left)) as Hpart.
    destruct (MemoryOffline.Read part addr size s) as [[bytes data] s'].
    unfold copied in Hpart. simpl in Hpart. subst bytes. simpl.
    apply IH. intros p s0 Hp. apply Hzero. by right.
Qed.

(** ** Range sets over disjoint windows *)

(** X4.  When the windows of the inserted ranges are non-empty, end within
    the address space and are pairwise disjoint, a range set dispatches by
    coverage: a read at an address inside the window of a range is that
    range's read, and a read at an address in no window returns 0. *)
Theorem X4_range_set_dispatches_by_coverage {S : Type}
    (ranges : list (MemoryRange.t S)) (addr size : Z) (s : S) :
  (∀ r, r ∈ ranges →
     0 ≤ MemoryRange.offset_ r ∧ 0 < MemoryRange.length_ r
     ∧ MemoryRange.offset_ r + MemoryRange.length_ r ≤ UINT64_MAX) →
  disjoint_windows ranges →
  0 ≤ addr ≤ UINT64_MAX →
  (∀ r, r ∈ ranges → covers r addr →
     MemoryRanges.Read (MemoryRanges.inserted ranges) addr size s =
       MemoryRange.Read r addr size s)
  ∧ ((∀ r, r ∈ ranges → ¬ covers r addr) →
     MemoryRanges.Read (MemoryRanges.inserted ranges) addr size s = (no_read, s)).
Proof.
  intros Hshape Hdisj Haddr.
  destruct (Insert_foldl ranges MemoryRanges.empty) as (Hasc & Hfrom & _ & Hkey);
    [intros r Hr; destruct (Hshape r Hr); lia | constructor |].
  fold (MemoryRanges.inserted ranges) in Hasc, Hfrom, Hkey.
  assert (Hentry : ∀ e, e ∈ MemoryRanges.maps_ (MemoryRanges.inserted ranges) →
            e.2 ∈ ranges
            ∧ e.1 = MemoryRange.offset_ e.2 + MemoryRange.length_ e.2).
  { intros e He. destruct (Hfrom e He) as [He0|[Hin Hk]].
    - simpl in He0. by apply elem_of_nil in He0.
    - split; [done|]. destruct (Hshape _ Hin) as (_ & _ & Hfit). lia. }
  split.
  - intros r Hr Hcov. unfold MemoryRanges.Read.
    destruct (MemoryRanges.upper_bound addr _) as [[k0 r0]|] eqn:Hub.
    + apply upper_bound_Some in Hub as (Hin & Hgt & Hmin); [|done].
      destruct (Hentry _ Hin) as [Hr0 Hk0]. simpl in *.
      destruct (Hkey r Hr) as [r1 Hr1].
      destruct (Hshape r Hr) as (Hor & Hlr & Hfr).
      rewrite Z.min_l in Hr1 by lia.
      specialize (Hmin _ Hr1). simpl in Hmin. unfold covers in Hcov.
      destruct (Hshape r0 Hr0) as (Ho0 & Hl0 & Hf0).
      assert (r0 = r) as ->; [|done].
      destruct (Z.le_gt_cases (MemoryRange.offset_ r0) addr).
      * apply (Hdisj r0 r addr); unfold covers; (done || lia).
      * apply (Hdisj r0 r (MemoryRange.offset_ r0)); unfold covers; (done || lia).
    + rewrite upper_bound_None in Hub.
      destruct (Hkey r Hr) as [r1 Hr1]. specialize (Hub _ Hr1). simpl in Hub.
      destruct (Hshape r Hr) as (Hor & Hlr & Hfr). unfold covers in Hcov. lia.
  - intros Hnone. unfold MemoryRanges.Read.
    destruct (MemoryRanges.upper_bound addr _) as [[k0 r0]|] eqn:Hub; [|done].
    apply upper_bound_Some in Hub as (Hin & Hgt & _); [|done].
    destruct (Hentry _ Hin) as [Hr0 Hk0]. simpl in *.
    destruct (Hshape r0 Hr0) as (Ho0 & Hl0 & Hf0).
    apply MemoryRange_Read_outside; [lia..|].
    left. specialize (Hnone r0 Hr0). unfold covers in Hnone. lia.
Qed.

Lemma X4_range_set_dispatches_by_coverage_witness :
  MemoryRanges.Read (MemoryRanges.inserted [Samples.R1; Samples.R2]) 150 10 tt
    = MemoryRange.Read Samples.R2 150 10 tt
  ∧ MemoryRanges.Read (MemoryRanges.inserted [Samples.R1; Samples.R2]) 200 10 tt
    = (no_read, tt).
Proof.
  assert (∀ r, r ∈ [Samples.R1; Samples.R2] →
            (r = Samples.R1 ∨ r = Samples.R2)) as Hcases.
  { intros r Hr. apply elem_of_cons in Hr as [->|Hr]; [by left|].
    apply list_elem_of_singleton in Hr as ->. by right. }
  assert (∀ r, r ∈ [Samples.R1; Samples.R2] →
            0 ≤ MemoryRange.offset_ r ∧ 0 < MemoryRange.length_ r
            ∧ MemoryRange.offset_ r + MemoryRange.length_ r ≤ UINT64_MAX) as Hshape.
  { intros r Hr. destruct (Hcases r Hr) as [->| ->];
      unfold UINT64_MAX; simpl; lia. }
  assert (disjoint_windows [Samples.R1; Samples.R2]) as Hdisj.
  { intros r r' a Hr Hr' Hc Hc'.
    destruct (Hcases r Hr) as [->| ->], (Hcases r' Hr') as [->| ->];
      unfold covers in *; simpl in *; (done || lia). }
  pose proof (X4_range_set_dispatches_by_coverage [Samples.R1; Samples.R2]
                150 10 tt Hshape Hdisj ltac:(unfold UINT64_MAX; lia)) as [Hin _].
  pose proof (X4_range_set_dispatches_by_coverage [Samples.R1; Samples.R2]
                200 10 tt Hshape Hdisj ltac:(unfold UINT64_MAX; lia)) as [_ Hout].
  split.
  - apply Hin; [by right; left | unfold covers; simpl; lia].
  - apply Hout. intros r Hr Hc.
    destruct (Hcases r Hr) as [->| ->]; unfold covers in Hc; simpl in Hc; lia.
Defined.

Lemma X3_offline_parts_first_part_wins_witness :
  MemoryOfflineParts.Read
      (MemoryOfflineParts.mk ([MemoryOffline.mk None] ++ [Samples.snapshot]))
      (0x1000 + 50) 10 tt
    = MemoryOffline.Read Samples.snapshot (0x1000 + 50) 10 tt.
Proof.
  pose proof (X3_offline_parts_first_part_wins [MemoryOffline.mk None]
                [Samples.snapshot] [] (0x1000 + 50) 10 tt) as [Happ _].
  cbv zeta beta in Happ. rewrite Happ. reflexivity.
Defined.

(** ** Mapped-file memory: [Init], [Read] and [Clear] together *)

(** What [Init] does, for a page size that is a power of two. *)
Lemma MemoryFileAtOffset_Init_eval (fs : FileSystem) (m0 : MemoryFileAtOffset.t)
    (file : string) (contents : list byte) (offset size k : Z) :
  file_contents fs file = Some contents →
  0 ≤ k → getpagesize fs = 2 ^ k →
  0 ≤ offset → 0 ≤ size ≤ UINT64_MAX →
  Z.of_nat (length contents) ≤ UINT64_MAX →
  let st_size := Z.of_nat (length contents) in
  let mis := offset mod 2 ^ k in
  let N := Z.min size (st_size - offset) in
  MemoryFileAtOffset.Init fs m0 file offset size =
    if st_size <=? offset then (false, MemoryFileAtOffset.Clear m0)
    else if mmap_ok fs file (N + mis) (offset - mis)
    then (true, MemoryFileAtOffset.mk (Some (memcpy_from contents offset N)) mis N)
    else (false, MemoryFileAtOffset.mk None mis (N + mis)).
Proof.
  intros Hfile Hk Hpage Hoff Hsize Hfit st_size mis N.
  unfold MemoryFileAtOffset.Init.
  rewrite Hfile, Hpage, land_page_mask, land_page_base by done.
  fold st_size mis.
  pose proof (Z.mod_pos_bound offset (2 ^ k) ltac:(lia)) as Hmod.
  pose proof (Z.mod_le offset (2 ^ k) ltac:(lia) ltac:(lia)) as Hmodle.
  fold mis in Hmod, Hmodle.
  destruct (Z.leb_spec st_size offset) as [|Hlt]; [done|].
  rewrite (proj2 (Z.ltb_ge _ _)) by lia.
  rewrite (proj2 (Z.ltb_ge _ _)) by lia. simpl orb. cbv iota.
  unfold add_overflow.
  set (size1 := if negb (UINT64_MAX <? size + mis)
                     && (wrap64 (size + mis) <? st_size - (offset - mis))
                then wrap64 (size + mis) else st_size - (offset - mis)).
  assert (size1 = N + mis) as ->.
  { unfold size1, N. destruct (Z.ltb_spec UINT64_MAX (size + mis)); simpl.
    - lia.
    - rewrite wrap64_small by lia.
      destruct (Z.ltb_spec (size + mis) (st_size - (offset - mis))); lia. }
  destruct (mmap_ok fs file (N + mis) (offset - mis)); [|done].
  rewrite sub64_small by lia.
  replace (N + mis - mis) with N by lia.
  do 3 f_equal. unfold memcpy_from.
  replace (Z.to_nat (N + mis)) with (Z.to_nat mis + Z.to_nat N)%nat by lia.
  rewrite <- take_drop_commute, drop_drop. do 2 f_equal. lia.
Qed.

(** X5.  A file memory made by [CreateFileMemory(path, offset, size)]
    exposes the bytes of the file from [offset] on, [min(size, file size -
    offset)] of them: [Read(addr, dst, n)] is the bounds-checked copy out of
    that window, whatever the alignment of [offset]. *)
Theorem X5_file_memory_reads_the_file (fs : FileSystem) (path : string)
    (contents : list byte) (offset size k : Z) (m : MemoryFileAtOffset.t)
    (addr n : Z) :
  file_contents fs path = Some contents →
  0 ≤ k → getpagesize fs = 2 ^ k →
  0 ≤ offset → 0 ≤ size ≤ UINT64_MAX →
  Z.of_nat (length contents) ≤ UINT64_MAX →
  CreateFileMemory fs path offset size = Some m →
  0 ≤ addr → 0 ≤ n →
  MemoryFileAtOffset.Size m = Z.min size (Z.of_nat (length contents) - offset)
  ∧ is_bounded_copy (drop (Z.to_nat offset) contents)
      (MemoryFileAtOffset.Size m) addr n (MemoryFileAtOffset.Read m addr n).
Proof.
  intros Hfile Hk Hpage Hoff Hsize Hfit Hcreate Haddr Hn.
  unfold CreateFileMemory in Hcreate.
  rewrite (MemoryFileAtOffset_Init_eval fs _ path contents offset size k)
    in Hcreate by done.
  destruct (Z.leb_spec (Z.of_nat (length contents)) offset) as [|Hlt]; [done|].
  destruct (mmap_ok fs path _ _); [|done].
  injection Hcreate as <-. split; [done|].
  unfold MemoryFileAtOffset.Read, MemoryFileAtOffset.Size. simpl.
  set (N := Z.min size (Z.of_nat (length contents) - offset)).
  pose proof (bounded_copy_spec (memcpy_from contents offset N) N addr n
                ltac:(apply memcpy_from_length; lia) Haddr Hn) as Hcopy.
  cbv zeta in Hcopy. destruct Hcopy as (H1 & H2 & H3 & H4).
  split; [done|]. split; [done|]. split; [done|].
  intros i Hi. rewrite (H4 i Hi). unfold memcpy_from.
  apply lookup_take_lt.
  assert (copied (if N <=? addr then no_read
                  else (Z.min (N - addr) n,
                        memcpy_from (memcpy_from contents offset N) addr
                          (Z.min (N - addr) n))) ≤ N - addr) as Hle.
  { destruct (Z.leb_spec N addr); unfold copied; simpl; lia. }
  destruct (Z.leb_spec N addr); unfold copied in *; simpl in *; lia.
Qed.

Lemma X5_file_memory_reads_the_file_witness :
  ∃ m, CreateFileMemory Samples.snapshot_fs "snapshot" 8 50 = Some m
       ∧ MemoryFileAtOffset.Size m = 50
       ∧ is_bounded_copy Samples.snapshot_content 50 3 10
           (MemoryFileAtOffset.Read m 3 10).
Proof.
  eexists. split; [reflexivity|].
  pose proof (X5_file_memory_reads_the_file Samples.snapshot_fs "snapshot"
                (Samples.snapshot_header ++ Samples.snapshot_content) 8 50 12
                _ 3 10 eq_refl ltac:(lia) eq_refl ltac:(lia)
                ltac:(unfold UINT64_MAX; lia) ltac:(by vm_compute) eq_refl
                ltac:(lia) ltac:(lia)) as [Hsize Hread].
  split; [exact Hsize | exact Hread].
Defined.

(** X6.  [MemoryFileAtOffset::Init] succeeds exactly when the file can be
    opened, [offset] lies inside it, and the kernel grants the mapping that
    [Init] asks for: from the page boundary below [offset], long enough to
    reach [min(size, file size - offset)] bytes past [offset].  When it
    fails the object holds no mapping. *)
Theorem X6_file_Init_succeeds_iff (fs : FileSystem) (m0 : MemoryFileAtOffset.t)
    (file : string) (offset size k : Z) :
  0 ≤ k → getpagesize fs = 2 ^ k →
  0 ≤ offset → 0 ≤ size ≤ UINT64_MAX →
  (∀ contents, file_contents fs file = Some contents →
     Z.of_nat (length contents) ≤ UINT64_MAX) →
  let r := MemoryFileAtOffset.Init fs m0 file offset size in
  (r.1 = true ↔
     ∃ contents, file_contents fs file = Some contents
       ∧ offset < Z.of_nat (length contents)
       ∧ mmap_ok fs file
           (Z.min size (Z.of_nat (length contents) - offset) + offset mod 2 ^ k)
           (offset - offset mod 2 ^ k) = true)
  ∧ (r.1 = false → MemoryFileAtOffset.data_ r.2 = None).
Proof.
  intros Hk Hpage Hoff Hsize Hfit r. subst r.
  destruct (file_contents fs file) as [contents|] eqn:Hfile.
  - rewrite (MemoryFileAtOffset_Init_eval fs m0 file contents offset size k)
      by (try done; by apply Hfit).
    destruct (Z.leb_spec (Z.of_nat (length contents)) offset) as [Hge|Hlt].
    { split; [|done]. split; [done|].
      intros (c & [= <-] & Hlt & _). lia. }
    destruct (mmap_ok fs file _ _) eqn:Hmap.
    + split; [|done]. split; [|done]. intros _. by exists contents.
    + split; [|done]. split; [done|].
      intros (c & [= <-] & _ & Hmap'). congruence.
  - unfold MemoryFileAtOffset.Init. rewrite Hfile. simpl.
    split; [|done]. split; [done|]. by intros (c & [=] & _).
Qed.

Lemma X6_file_Init_succeeds_iff_witness :
  (MemoryFileAtOffset.Init Samples.snapshot_fs MemoryOffline.new_file
     "snapshot" 200 50).1 = false
  ∧ (MemoryFileAtOffset.Init Samples.snapshot_fs MemoryOffline.new_file
       "snapshot" 8 50).1 = true.
Proof.
  pose proof (X6_file_Init_succeeds_iff Samples.snapshot_fs
                MemoryOffline.new_file "snapshot" 200 50 12
                ltac:(lia) eq_refl ltac:(lia) ltac:(unfold UINT64_MAX; lia))
    as Hfar.
  pose proof (X6_file_Init_succeeds_iff Samples.snapshot_fs
                MemoryOffline.new_file "snapshot" 8 50 12
                ltac:(lia) eq_refl ltac:(lia) ltac:(unfold UINT64_MAX; lia))
    as Hnear.
  assert (∀ contents,
            file_contents Samples.snapshot_fs "snapshot" = Some contents →
            Z.of_nat (length contents) ≤ UINT64_MAX) as Hfit.
  { intros contents [= <-]. by vm_compute. }
  specialize (Hfar Hfit). specialize (Hnear Hfit).
  cbv zeta in Hfar, Hnear. split.
  - destruct Hfar as [Hiff _].
    destruct (MemoryFileAtOffset.Init _ _ _ 200 50).1; [|done].
    destruct (proj1 Hiff eq_refl) as (contents & [= <-] & Hlt & _).
    by vm_compute in Hlt.
  - destruct Hnear as [Hiff _]. apply Hiff.
    eexists. split; [reflexivity|]. split; [by vm_compute | reflexivity].
Defined.

(** X7.  The region [Clear] hands to [munmap] is the region the successful
    [Init] before it obtained from [mmap]: it starts at the page boundary
    below [offset] and has the length of the mapping.  A second [Clear]
    unmaps nothing. *)
Theorem X7_Clear_unmaps_what_Init_mapped (fs : FileSystem)
    (m0 m : MemoryFileAtOffset.t) (file : string) (contents : list byte)
    (offset size k : Z) :
  file_contents fs file = Some contents →
  0 ≤ k → getpagesize fs = 2 ^ k →
  0 ≤ offset → 0 ≤ size ≤ UINT64_MAX →
  Z.of_nat (length contents) ≤ UINT64_MAX →
  MemoryFileAtOffset.Init fs m0 file offset size = (true, m) →
  ∃ map_len map_off,
    mmap_ok fs file map_len map_off = true
    ∧ map_off = offset - offset mod 2 ^ k
    ∧ MemoryFileAtOffset.Clear_munmap m = Some (offset - map_off, map_len)
    ∧ MemoryFileAtOffset.Clear_munmap (MemoryFileAtOffset.Clear m) = None.
Proof.
  intros Hfile Hk Hpage Hoff Hsize Hfit.
  rewrite (MemoryFileAtOffset_Init_eval fs m0 file contents offset size k)
    by done.
  destruct (Z.leb_spec (Z.of_nat (length contents)) offset) as [|Hlt]; [done|].
  destruct (mmap_ok fs file _ _) eqn:Hmap; [|done].
  intros [= <-]. do 2 eexists. split; [exact Hmap|]. split; [done|].
  split; [|done].
  unfold MemoryFileAtOffset.Clear_munmap. simpl.
  pose proof (Z.mod_pos_bound offset (2 ^ k) ltac:(lia)).
  pose proof (Z.mod_le offset (2 ^ k) ltac:(lia) ltac:(lia)).
  unfold add64. rewrite wrap64_small by lia. do 2 f_equal. lia.
Qed.

Lemma X7_Clear_unmaps_what_Init_mapped_witness :
  ∃ m map_len map_off,
    MemoryFileAtOffset.Init Samples.snapshot_fs MemoryOffline.new_file
      "snapshot" 8 50 = (true, m)
    ∧ mmap_ok Samples.snapshot_fs "snapshot" map_len map_off = true
    ∧ map_off = 8 - 8 mod 2 ^ 12
    ∧ MemoryFileAtOffset.Clear_munmap m = Some (8 - map_off, map_len)
    ∧ MemoryFileAtOffset.Clear_munmap (MemoryFileAtOffset.Clear m) = None.
Proof.
  eexists.
  destruct (X7_Clear_unmaps_what_Init_mapped Samples.snapshot_fs
              MemoryOffline.new_file _ "snapshot"
              (Samples.snapshot_header ++ Samples.snapshot_content) 8 50 12
              eq_refl ltac:(lia) eq_refl ltac:(lia)
              ltac:(unfold UINT64_MAX; lia) ltac:(by vm_compute) eq_refl)
    as (map_len & map_off & H).
  exists map_len, map_off. split; [reflexivity | exact H].
Defined.

(** ** Offline snapshots at any file offset *)

Lemma memcpy_from_memcpy_from (content : list byte) (a N b n : Z) :
  0 ≤ a → 0 ≤ b → 0 ≤ n → b + n ≤ N →
  memcpy_from (memcpy_from content a N) b n = memcpy_from content (a + b) n.
Proof.
  intros Ha Hb Hn HN. unfold memcpy_from.
  replace (Z.to_nat N) with (Z.to_nat b + (Z.to_nat N - Z.to_nat b))%nat by lia.
  rewrite <- take_drop_commute, take_take, drop_drop.
  f_equal; [lia | f_equal; lia].
Qed.

(** What [MemoryOffline::Init] does, for a page size that is a power of
    two. *)
Lemma MemoryOffline_Init_eval {S : Type} (fs : FileSystem) (m0 : MemoryOffline.t S)
    (file : string) (contents : list byte) (offset k : Z) :
  file_contents fs file = Some contents →
  0 ≤ k → getpagesize fs = 2 ^ k →
  0 ≤ offset →
  Z.of_nat (length contents) ≤ UINT64_MAX →
  let st_size := Z.of_nat (length contents) in
  let mis := offset mod 2 ^ k in
  MemoryOffline.Init fs m0 file offset =
    if (offset + 8 <=? st_size)
       && mmap_ok fs file (st_size - offset + mis) (offset - mis)
    then (true,
          MemoryOffline.mk
            (Some (MemoryRange.mk
                     (MemoryFileAtOffset.reader
                        (MemoryFileAtOffset.mk
                           (Some (memcpy_from contents offset (st_size - offset)))
                           mis (st_size - offset)))
                     8 (st_size - offset - 8)
                     (le_value (memcpy_from contents offset 8)))))
    else (false, m0).
Proof.
  intros Hfile Hk Hpage Hoff Hfit st_size mis. unfold MemoryOffline.Init.
  rewrite (MemoryFileAtOffset_Init_eval fs _ file contents offset UINT64_MAX k)
    by (try done; unfold UINT64_MAX; lia).
  fold st_size mis.
  destruct (Z.leb_spec st_size offset) as [Hge|Hlt].
  { simpl negb. cbv iota. by rewrite (proj2 (Z.leb_gt _ _)) by lia. }
  rewrite Z.min_r by lia.
  destruct (mmap_ok fs file _ _); simpl negb; cbv iota;
    [|by rewrite andb_false_r].
  rewrite andb_true_r.
  set (memory_file := MemoryFileAtOffset.mk _ _ _).
  unfold Memory.ReadFully, MemoryFileAtOffset.reader at 1, pure_reader,
    MemoryFileAtOffset.Read.
  subst memory_file. simpl MemoryFileAtOffset.size_.
  simpl MemoryFileAtOffset.data_. simpl default.
  rewrite (proj2 (Z.leb_gt _ 0)) by lia. rewrite Z.sub_0_r.
  destruct (Z.leb_spec (offset + 8) st_size) as [Hhdr|Hshort].
  - rewrite Z.min_r by lia. rewrite Z.eqb_refl. simpl negb. cbv iota.
    unfold MemoryFileAtOffset.Size, sub_overflow.
    simpl MemoryFileAtOffset.size_.
    rewrite (proj2 (Z.ltb_ge _ 8)) by lia.
    rewrite wrap64_small by lia.
    rewrite memcpy_from_memcpy_from by lia.
    by rewrite Z.add_0_r.
  - rewrite Z.min_l by lia.
    by rewrite (proj2 (Z.eqb_neq _ 8)) by lia.
Qed.

(** X8.  [MemoryOffline::Init(file, offset)] on a file whose bytes from
    [offset] on are an 8-byte little-endian start address followed by the
    content: it succeeds exactly when at least those 8 bytes are there and
    the mapping is granted, a failed [Init] leaves the object as it was,
    and after a successful one [Read(start + j)] yields the content bytes
    from index [j] on, [min(n, content size - j)] of them, and 0 outside
    [start, start + content size). *)
Theorem X8_offline_Init_at_any_offset {S : Type} (fs : FileSystem)
    (m0 : MemoryOffline.t S) (file : string) (contents : list byte)
    (offset k : Z) :
  file_contents fs file = Some contents →
  0 ≤ k → getpagesize fs = 2 ^ k →
  0 ≤ offset →
  Z.of_nat (length contents) ≤ UINT64_MAX →
  let st_size := Z.of_nat (length contents) in
  let r := MemoryOffline.Init fs m0 file offset in
  let start := le_value (memcpy_from contents offset 8) in
  let C := st_size - offset - 8 in
  (r.1 = true ↔
     offset + 8 ≤ st_size
     ∧ mmap_ok fs file (st_size - offset + offset mod 2 ^ k)
         (offset - offset mod 2 ^ k) = true)
  ∧ (r.1 = false → r.2 = m0)
  ∧ (r.1 = true → ∀ addr n s, 0 ≤ addr ≤ UINT64_MAX → 0 ≤ n →
       (∀ j, 0 ≤ j < C → addr = start + j →
          MemoryOffline.Read r.2 addr n s =
            ((Z.min n (C - j),
              memcpy_from contents (offset + 8 + j) (Z.min n (C - j))), s))
       ∧ (addr < start ∨ start + C ≤ addr →
          MemoryOffline.Read r.2 addr n s = (no_read, s))).
Proof.
  intros Hfile Hk Hpage Hoff Hfit st_size r start C. subst r.
  rewrite (MemoryOffline_Init_eval fs m0 file contents offset k) by done.
  fold st_size.
  destruct (Z.leb_spec (offset + 8) st_size) as [Hhdr|Hshort]; simpl andb.
  2:{ split; [|done]. split; [done|]. intros [? _]. lia. }
  destruct (mmap_ok fs file _ _) eqn:Hmap.
  2:{ split; [|done]. split; [done | by intros [_ ?]]. }
  split; [done|]. split; [done|]. intros _ addr n s Haddr Hn.
  pose proof (le_value_range (memcpy_from contents offset 8)) as HS.
  fold start in HS |- *.
  unfold MemoryOffline.Read. simpl MemoryOffline.memory_. split.
  - intros j Hj ->.
    rewrite MemoryRange_Read_inside; simpl; try lia.
    unfold MemoryFileAtOffset.reader, pure_reader, MemoryFileAtOffset.Read.
    simpl MemoryFileAtOffset.size_. simpl MemoryFileAtOffset.data_.
    replace (start + j - start) with j by lia.
    rewrite (proj2 (Z.leb_gt _ _)) by lia. fold C.
    rewrite (Z.min_r (_ - (j + 8))) by lia.
    simpl default. rewrite memcpy_from_memcpy_from by lia.
    do 3 f_equal. lia.
  - intros Hout. apply MemoryRange_Read_outside; simpl; lia.
Qed.

Lemma X8_offline_Init_at_any_offset_witness :
  let r := MemoryOffline.Init (S:=unit) Samples.snapshot_fs
             (MemoryOffline.mk None) "snapshot" 8 in
  let contents := Samples.snapshot_header ++ Samples.snapshot_content in
  r.1 = true
  ∧ MemoryOffline.Read r.2 (le_value (memcpy_from contents 8 8) + 2) 4 tt
      = ((4, memcpy_from contents 18 4), tt).
Proof.
  intros r contents.
  pose proof (X8_offline_Init_at_any_offset (S:=unit) Samples.snapshot_fs
                (MemoryOffline.mk None) "snapshot" contents 8 12
                eq_refl ltac:(lia) eq_refl ltac:(lia) ltac:(by vm_compute))
    as (Hiff & _ & Hread).
  assert (r.1 = true) as Hok.
  { apply Hiff. split; [by vm_compute | reflexivity]. }
  split; [exact Hok|].
  destruct (Hread Hok (le_value (memcpy_from contents 8 8) + 2) 4 tt
              ltac:(by vm_compute) ltac:(lia)) as [Hin _].
  exact (Hin 2 ltac:(by vm_compute) eq_refl).
Defined.

(** ** The string [ReadString] hands back *)

Section ReadStringLength.
Context {S : Type}.
Variable Read : Reader S.

Lemma strnlen_range (bs : list byte) (n : Z) : 0 ≤ n → 0 ≤ strnlen bs n ≤ n.
Proof.
  intros Hn. unfold strnlen.
  pose proof (strnlen_nat_le bs (Z.to_nat n)). lia.
Qed.

Lemma ReadString_loop_length addr max_read dst :
  obeys_contract Read → 0 ≤ addr ≤ UINT64_MAX → max_read ≤ UINT64_MAX →
  ∀ fuel offset buffer (s : S) out s',
    0 ≤ offset →
    Memory.ReadString_loop Read fuel addr max_read offset buffer dst s
      = Some ((true, out), s') →
    Z.of_nat (length out) < max_read.
Proof.
  intros Hcontract Haddr Hmax. induction fuel as [|fuel IH];
    intros offset buffer s out s' Hoff.
  { cbn [Memory.ReadString_loop]. by destruct (offset <? max_read). }
  destruct (Z.lt_ge_cases offset max_read) as [Hlt|Hge];
    [|by rewrite ReadString_loop_exit by lia].
  destruct (Read (add64 addr offset) (Z.min 256 (max_read - offset)) s)
    as [[size bytes] s1] eqn:HRead.
  rewrite (ReadString_loop_round _ _ _ _ _ _ _ _ size bytes s1) by done.
  destruct (Z.eqb_spec size 0) as [|Hnz]; [done|].
  chunk_contract Hcontract HRead Hsize Hlen.
  pose proof (strnlen_range (store_at_start buffer bytes) size ltac:(lia)) as Hstr.
  destruct (Z.ltb_spec (strnlen (store_at_start buffer bytes) size) size)
    as [Hfound|Hnone].
  - destruct (Z.eqb_spec offset 0) as [->|Hoffnz].
    + intros [= <- <-]. unfold memcpy_from. rewrite length_take. lia.
    + cbv zeta. rewrite add64_small by lia.
      set (total := offset + strnlen (store_at_start buffer bytes) size).
      destruct (Hcontract addr total s1 Haddr ltac:(lia)) as [_ Hlen2].
      unfold Memory.ReadFully.
      destruct (Read addr total s1) as [[rc bytes2] s2] eqn:HFull.
      unfold copied, dst_bytes in Hlen2. simpl in Hlen2. simpl.
      destruct (Z.eqb_spec rc total) as [->|]; [|done].
      intros [= <- <-]. unfold store_at_start.
      rewrite length_app, length_drop, length_replicate. lia.
  - rewrite add64_small by lia. intros Hloop.
    eapply IH; [|exact Hloop]. lia.
Qed.
End ReadStringLength.

(** X9.  Over any memory that keeps the read contract, [ReadString]
    returns, and a string it hands back with [true] is shorter than
    [max_read]: the terminator it found lies among the first [max_read]
    bytes.  With [max_read = 0] it fails without reading. *)
Theorem X9_ReadString_string_shorter_than_max_read {S : Type} (Read : Reader S)
    (addr max_read : Z) (buffer dst : list byte) (s : S) :
  obeys_contract Read → 0 ≤ addr ≤ UINT64_MAX → 0 ≤ max_read ≤ UINT64_MAX →
  ∃ ok out s',
    Memory.ReadString Read addr max_read buffer dst s = Some ((ok, out), s')
    ∧ (ok = true → Z.of_nat (length out) < max_read)
    ∧ (max_read = 0 → ok = false ∧ out = dst ∧ s' = s).
Proof.
  intros Hcontract Haddr Hmax.
  destruct (ReadString_total Read addr max_read buffer dst s Hcontract Hmax)
    as [[[ok out] s'] Hres].
  exists ok, out, s'. split; [done|]. split.
  - intros ->. unfold Memory.ReadString in Hres.
    eapply (ReadString_loop_length Read addr max_read dst Hcontract Haddr);
      [lia | | exact Hres]; lia.
  - intros ->. unfold Memory.ReadString in Hres.
    rewrite ReadString_loop_exit in Hres by lia. by injection Hres as <- <- <-.
Qed.

Lemma X9_ReadString_string_shorter_than_max_read_witness :
  ∃ ok out s',
    Memory.ReadString (MemoryBuffer.reader Samples.text_buffer) 0 4 [] [] tt
      = Some ((ok, out), s')
    ∧ (ok = true → Z.of_nat (length out) < 4)
    ∧ (4 = 0 → ok = false ∧ out = [] ∧ s' = tt).
Proof.
  apply (X9_ReadString_string_shorter_than_max_read
           (MemoryBuffer.reader Samples.text_buffer) 0 4 [] [] tt).
  - apply MemoryBuffer_obeys_contract. reflexivity.
  - unfold UINT64_MAX. lia.
  - unfold UINT64_MAX. lia.
Defined.

(** ** The paging cache over a block of bytes *)

Lemma take_add (l : list byte) (n m : nat) :
  take (n + m) l = take n l ++ take m (drop n l).
Proof.
  revert l. induction n as [|n IH]; intros [|b l]; simpl; try done.
  - by rewrite take_nil.
  - by rewrite IH.
Qed.

Lemma memcpy_from_add (content : list byte) (a n1 n2 : Z) :
  0 ≤ a → 0 ≤ n1 → 0 ≤ n2 →
  memcpy_from content a n1 ++ memcpy_from content (a + n1) n2
    = memcpy_from content a (n1 + n2).
Proof.
  intros Ha H1 H2. unfold memcpy_from.
  replace (Z.to_nat (n1 + n2)) with (Z.to_nat n1 + Z.to_nat n2)%nat by lia.
  rewrite take_add, drop_drop. do 3 f_equal. lia.
Qed.

Section CacheOverBlock.
Context {S : Type}.
Variable kCacheBits : Z.
Variable impl_ : Reader S.
Variable content : list byte.
Hypothesis bits_range : 0 ≤ kCacheBits < 64.
Hypothesis impl_block : reads_as_buffer impl_ 0 content.
Hypothesis content_fits : Z.of_nat (length content) ≤ UINT64_MAX.

Local Notation find_or_fill := (MemoryCacheBase.find_or_fill kCacheBits impl_).
Local Notation InternalCachedRead :=
  (MemoryCacheBase.InternalCachedRead kCacheBits impl_).
Local Notation P := (2 ^ kCacheBits).
Local Notation len := (Z.of_nat (length content)).

Lemma kCacheSize_pow : MemoryCacheBase.kCacheSize kCacheBits = P.
Proof.
  unfold MemoryCacheBase.kCacheSize. rewrite Z.shiftl_mul_pow2 by lia. lia.
Qed.

Lemma page_size_pos : 0 < P.
Proof. apply Z.pow_pos_nonneg; lia. Qed.

Lemma shl64_page p : 0 ≤ p → p * P ≤ UINT64_MAX → shl64 p kCacheBits = p * P.
Proof.
  intros Hp Hfit. unfold shl64. rewrite Z.shiftl_mul_pow2 by lia.
  apply wrap64_small. pose proof page_size_pos. nia.
Qed.

Lemma impl_reads_block a n (s : S) :
  0 ≤ a → 0 ≤ n →
  (impl_ a n s).1 = MemoryBuffer.Read (MemoryBuffer.of_bytes content) a n.
Proof. intros Ha Hn. by rewrite <- (impl_block a n s Ha Hn), Z.add_0_l. Qed.

(** The page step over a block: the map stays a map of whole pages and
    loses nothing, and a page that is handed back is the whole page. *)
Lemma find_or_fill_block p (cache : gmap Z (list byte)) (s : S) :
  0 ≤ p → p * P ≤ UINT64_MAX →
  holds_pages_of kCacheBits content cache →
  ∃ res cache' s',
    find_or_fill p cache s = (res, (cache', s'))
    ∧ holds_pages_of kCacheBits content cache'
    ∧ cache ⊆ cache'
    ∧ ∀ page, res = Some page →
        (p + 1) * P ≤ len ∧ page = memcpy_from content (p * P) P.
Proof.
  intros Hp Hfit Hcache. unfold MemoryCacheBase.find_or_fill.
  pose proof page_size_pos as HP.
  destruct (cache !! p) as [page|] eqn:Hlook.
  { do 3 eexists. split; [reflexivity|]. split; [done|]. split; [done|].
    intros page' [= <-]. by destruct (Hcache p page Hlook) as (_ & ? & ?). }
  unfold Memory.ReadFully. rewrite shl64_page, kCacheSize_pow by done.
  pose proof (impl_reads_block (p * P) P s ltac:(nia) ltac:(lia)) as Hread.
  destruct (impl_ (p * P) P s) as [[rc bytes] s1]. simpl in Hread.
  destruct (Z.eqb_spec rc P) as [Hfull|Hshort].
  - do 3 eexists. split; [reflexivity|].
    assert ((p + 1) * P ≤ len
            ∧ bytes = memcpy_from content (p * P) P) as [Hin Hbytes].
    { destruct (Z.le_gt_cases len (p * P)) as [Hout|Hinside].
      - rewrite MemoryBuffer_Read_outside in Hread by done.
        injection Hread as -> _. lia.
      - rewrite MemoryBuffer_Read_inside in Hread by done.
        injection Hread as Hrc Hb. subst rc.
        split; [lia|]. rewrite Hb. f_equal. lia. }
    assert (store_at_start (MemoryCacheBase.new_slot kCacheBits) bytes = bytes)
      as Hslot.
    { unfold MemoryCacheBase.new_slot. rewrite kCacheSize_pow.
      replace (Z.to_nat P) with (length bytes); [apply store_at_start_replicate|].
      pose proof (memcpy_from_length content (p * P) P ltac:(nia) ltac:(lia)
                    ltac:(lia)) as Hl.
      rewrite <- Hbytes in Hl. lia. }
    rewrite Hslot, insert_insert_eq. split; [|split].
    + intros q page. destruct (decide (q = p)) as [->|Hq].
      * rewrite lookup_insert_eq. intros [= <-]. done.
      * rewrite lookup_insert_ne by done. apply Hcache.
    + by apply insert_subseteq.
    + intros page [= <-]. done.
  - do 3 eexists. split; [reflexivity|].
    rewrite insert_insert_eq, delete_insert_id by done.
    split; [done|]. split; [done|]. intros page [=].
Qed.

End CacheOverBlock.


(** ** Per-thread caches *)



(** ** Word-by-word reads of a traced process *)

Lemma bytes_at_length (mem : Z → byte) (a n : Z) :
  0 ≤ n → Z.of_nat (length (bytes_at mem a n)) = n.
Proof. intros Hn. unfold bytes_at. rewrite length_fmap, length_seq. lia. Qed.

Lemma bytes_at_add (mem : Z → byte) (a n1 n2 : Z) :
  0 ≤ n1 → 0 ≤ n2 →
  bytes_at mem a n1 ++ bytes_at mem (a + n1) n2 = bytes_at mem a (n1 + n2).
Proof.
  intros H1 H2. unfold bytes_at.
  replace (Z.to_nat (n1 + n2)) with (Z.to_nat n1 + Z.to_nat n2)%nat by lia.
  rewrite seq_app, fmap_app. f_equal.
  change (0 + Z.to_nat n1)%nat with (Z.to_nat n1).
  rewrite <- (Nat.add_0_r (Z.to_nat n1)).
  rewrite <- fmap_add_seq, <- list_fmap_compose.
  apply list_fmap_ext. intros _ i _. simpl. f_equal. lia.
Qed.

Lemma memcpy_from_bytes_at (mem : Z → byte) (a N off n : Z) :
  0 ≤ off → 0 ≤ n → off + n ≤ N →
  memcpy_from (bytes_at mem a N) off n = bytes_at mem (a + off) n.
Proof.
  intros Hoff Hn HN. unfold memcpy_from.
  replace N with (off + (n + (N - off - n))) by lia.
  rewrite <- bytes_at_add by lia.
  rewrite drop_app_length' by (pose proof (bytes_at_length mem a off); lia).
  rewrite <- bytes_at_add by lia.
  apply take_app_length'.
  pose proof (bytes_at_length mem (a + off) n). lia.
Qed.

Section PtraceOverMemory.
Context {W : Type}.
Variable os : Kernel.t W.
Variable mem : Z → byte.
Variable readable : Z → bool.
Hypothesis peeks : peeks_memory os mem readable.

Lemma PtraceReadLong_peeks pid a (s : Sys W) :
  PtraceReadLong os pid a s =
    (if readable a then Some (bytes_at mem a 8) else None, s).
Proof.
  unfold PtraceReadLong. rewrite peeks. by destruct s.
Qed.

Lemma PtraceRead_words_peeks count pid a br dst (s : Sys W) :
  0 ≤ a → a + 8 * Z.of_nat count ≤ UINT64_MAX →
  (∃ n, 0 ≤ n < 8 * Z.of_nat count ∧ readable (a + n) = false
        ∧ PtraceRead_words os count pid a br dst s
          = (inl (br + n, dst ++ bytes_at mem a n), s))
  ∨ PtraceRead_words os count pid a br dst s
    = (inr (a + 8 * Z.of_nat count, br + 8 * Z.of_nat count,
            dst ++ bytes_at mem a (8 * Z.of_nat count)), s).
Proof.
  revert a br dst. induction count as [|count IH]; intros a br dst Ha Hfit.
  { right. cbn [PtraceRead_words]. simpl Z.of_nat.
    rewrite Z.mul_0_r, !Z.add_0_r. unfold bytes_at. simpl. by rewrite app_nil_r. }
  cbn [PtraceRead_words]. rewrite PtraceReadLong_peeks.
  destruct (readable a) eqn:Hword.
  - rewrite add64_small by lia.
    rewrite memcpy_from_bytes_at, Z.add_0_r by lia.
    destruct (IH (a + 8) (br + 8) (dst ++ bytes_at mem a 8) ltac:(lia) ltac:(lia))
      as [(n & Hn & Hbad & Heq)|Heq]; rewrite Heq.
    + left. exists (8 + n). split; [lia|]. split.
      * by rewrite Z.add_assoc.
      * rewrite <- app_assoc, bytes_at_add by lia. by rewrite Z.add_assoc.
    + right. rewrite <- app_assoc, bytes_at_add by lia.
      replace (8 * Z.of_nat (Datatypes.S count)) with (8 + 8 * Z.of_nat count)
        by lia.
      by rewrite !Z.add_assoc.
  - left. exists 0. split; [lia|]. rewrite !Z.add_0_r. split; [done|].
    unfold bytes_at. simpl. by rewrite app_nil_r.
Qed.

Lemma PtraceRead_aligned_peeks pid a b br dst (s : Sys W) :
  0 ≤ a → 0 ≤ b → a + b ≤ UINT64_MAX →
  ∃ n, 0 ≤ n ≤ b
       ∧ PtraceRead_aligned os pid a b br dst s
         = ((br + n, dst ++ bytes_at mem a n), s)
       ∧ ((∀ x, a ≤ x < a + b → readable x = true) → n = b).
Proof.
  intros Ha Hb Hfit. unfold PtraceRead_aligned.
  pose proof (Z.div_mod b 8 ltac:(lia)) as Hdm.
  pose proof (Z.mod_pos_bound b 8 ltac:(lia)) as Hmod.
  pose proof (Z.div_pos b 8 Hb ltac:(lia)) as Hdiv.
  assert (8 * Z.of_nat (Z.to_nat (b / 8)) = 8 * (b / 8)) as Hcount by lia.
  destruct (PtraceRead_words_peeks (Z.to_nat (b / 8)) pid a br dst s Ha
              ltac:(lia)) as [(n & Hn & Hbad & Heq)|Heq]; rewrite Heq.
  { exists n. split; [lia|]. split; [done|].
    intros Hall. rewrite Hall in Hbad by lia. done. }
  rewrite Hcount. change 7 with (2 ^ 3 - 1). rewrite land_page_mask by lia.
  change (2 ^ 3) with 8.
  destruct (Z.eqb_spec (b mod 8) 0) as [Hzero|Hrest].
  { exists (8 * (b / 8)). split; [lia|]. split; [done|]. lia. }
  rewrite PtraceReadLong_peeks.
  destruct (readable (a + 8 * (b / 8))) eqn:Hword.
  - exists b. split; [lia|]. split; [|done].
    rewrite memcpy_from_bytes_at, Z.add_0_r by lia.
    rewrite <- app_assoc, bytes_at_add by lia.
    by rewrite <- Z.add_assoc, <- Hdm.
  - exists (8 * (b / 8)). split; [lia|]. split; [done|].
    intros Hall. rewrite Hall in Hword by lia. done.
Qed.

Lemma PtraceRead_peeks pid addr bytes (s : Sys W) :
  0 ≤ addr → 0 ≤ bytes → addr + bytes ≤ UINT64_MAX →
  ∃ n, 0 ≤ n ≤ bytes
       ∧ PtraceRead os pid addr bytes s
         = ((n, bytes_at mem addr n), log_call (CallPtraceRead pid addr bytes) s)
       ∧ ((∀ x, addr - addr mod 8 ≤ x < addr + bytes → readable x = true) →
          n = bytes).
Proof.
  intros Ha Hb Hfit. unfold PtraceRead.
  rewrite add_overflow_no by done.
  change 7 with (2 ^ 3 - 1).
  rewrite land_page_mask, land_page_base by lia. change (2 ^ 3) with 8.
  pose proof (Z.mod_pos_bound addr 8 ltac:(lia)) as Hmod.
  pose proof (Z.mod_le addr 8 Ha ltac:(lia)) as Hmodle.
  set (s1 := log_call _ s).
  destruct (Z.eqb_spec (addr mod 8) 0) as [Haligned|Hmis].
  - destruct (PtraceRead_aligned_peeks pid addr bytes 0 [] s1 Ha Hb Hfit)
      as (n & Hn & Heq & Hall).
    exists n. split; [done|]. split; [by rewrite Heq|].
    intros Hread. apply Hall. intros x Hx. apply Hread. lia.
  - rewrite PtraceReadLong_peeks.
    destruct (readable (addr - addr mod 8)) eqn:Hword.
    + set (copy_bytes := Z.min (8 - addr mod 8) bytes).
      rewrite add64_small by lia.
      rewrite memcpy_from_bytes_at by lia.
      replace (addr - addr mod 8 + addr mod 8) with addr by lia.
      destruct (PtraceRead_aligned_peeks pid (addr + copy_bytes)
                  (bytes - copy_bytes) copy_bytes
                  (bytes_at mem addr copy_bytes) s1
                  ltac:(lia) ltac:(lia) ltac:(lia))
        as (n & Hn & Heq & Hall).
      exists (copy_bytes + n). split; [lia|]. split.
      * rewrite Heq. by rewrite bytes_at_add by lia.
      * intros Hread. rewrite Hall; [lia|].
        intros x Hx. apply Hread. lia.
    + exists 0. split; [lia|]. split; [done|].
      intros Hread. rewrite Hread in Hword by lia. done.
Qed.

(** X12.  [PtraceRead] over a kernel that answers word reads from the
    traced process's memory: when [addr + bytes] does not overflow, the
    call returns a prefix of the [bytes] bytes at [addr], of the length it
    reports, whatever the alignment of [addr] and [bytes]; it returns all
    of them when every address from the word boundary below [addr] up to
    the end of the request is readable.  It touches nothing but the log. *)
Theorem X12_PtraceRead_reads_the_traced_memory pid addr bytes (s : Sys W) :
  0 ≤ addr → 0 ≤ bytes → addr + bytes ≤ UINT64_MAX →
  let r := PtraceRead os pid addr bytes s in
  0 ≤ copied r.1 ≤ bytes
  ∧ dst_bytes r.1 = bytes_at mem addr (copied r.1)
  ∧ r.2 = log_call (CallPtraceRead pid addr bytes) s
  ∧ ((∀ x, addr - addr mod 8 ≤ x < addr + bytes → readable x = true) →
     copied r.1 = bytes).
Proof.
  intros Ha Hb Hfit r. subst r.
  destruct (PtraceRead_peeks pid addr bytes s Ha Hb Hfit)
    as (n & Hn & -> & Hall).
  done.
Qed.
End PtraceOverMemory.

Lemma X12_PtraceRead_reads_the_traced_memory_witness :
  let r := PtraceRead Samples.cooperative 7 4099 13 (Samples.start tt) in
  0 ≤ copied r.1 ≤ 13
  ∧ dst_bytes r.1 = bytes_at Samples.counting 4099 (copied r.1)
  ∧ r.2 = log_call (CallPtraceRead 7 4099 13) (Samples.start tt)
  ∧ ((∀ x, 4099 - 4099 mod 8 ≤ x < 4099 + 13 → (λ _ : Z, true) x = true) →
     copied r.1 = 13).
Proof.
  apply (X12_PtraceRead_reads_the_traced_memory Samples.cooperative
           Samples.counting (λ _, true)).
  - intros pid a w. reflexivity.
  - lia.
  - lia.
  - unfold UINT64_MAX. lia.
Defined.

(** ** The descriptors of a bulk read *)

Lemma gather_app (mem : Z → byte) (iovs1 iovs2 : list (Z * Z)) :
  gather mem (iovs1 ++ iovs2) = gather mem iovs1 ++ gather mem iovs2.
Proof. unfold gather. by rewrite fmap_app, concat_app. Qed.

Lemma gather_chained (mem : Z → byte) (pagesize : Z) (iovs : list (Z * Z)) :
  ∀ cur cur', chained pagesize cur iovs cur' →
    cur ≤ cur' ∧ gather mem iovs = bytes_at mem cur (cur' - cur).
Proof.
  induction iovs as [|[base iov_len] rest IH]; intros cur cur'; simpl.
  - intros ->. split; [lia|]. by rewrite Z.sub_diag.
  - intros (-> & Hpos & _ & Hrest). destruct (IH _ _ Hrest) as [Hle Heq].
    split; [lia|].
    change (gather mem ((cur, iov_len) :: rest))
      with (bytes_at mem cur iov_len ++ gather mem rest).
    rewrite Heq, bytes_at_add by lia. f_equal. lia.
Qed.

Lemma chained_app (pagesize : Z) (iovs : list (Z * Z)) :
  ∀ cur mid base iov_len,
    chained pagesize cur iovs mid →
    base = mid → 0 < iov_len → mid mod pagesize + iov_len ≤ pagesize →
    chained pagesize cur (iovs ++ [(base, iov_len)]) (mid + iov_len).
Proof.
  induction iovs as [|[b l] rest IH]; intros cur mid base iov_len; simpl.
  - by intros -> -> ? ?.
  - intros (-> & Hl & Hpage & Hrest) Hbase Hpos Hfit.
    split; [done|]. split; [done|]. split; [done|]. by apply IH.
Qed.

Section BulkDescriptors.
Context {W : Type}.
Variable os : Kernel.t W.
Variable k : Z.
Hypothesis bits_range : 0 ≤ k < 64.
Hypothesis pagesize_pow : Kernel.getpagesize os = 2 ^ k.

Local Notation P := (2 ^ k).

Lemma pagesize_bounds : 1 ≤ Kernel.getpagesize os ≤ UINT64_MAX.
Proof.
  rewrite pagesize_pow. unfold UINT64_MAX.
  pose proof (Z.pow_pos_nonneg 2 k ltac:(lia) ltac:(lia)).
  pose proof (Z.pow_le_mono_r 2 k 63 ltac:(lia) ltac:(lia)). lia.
Qed.

(** The inner loop, entered at [mid] with the descriptors for
    [start, mid) made. *)
Lemma fill_iovecs_chained slots :
  ∀ start mid len acc cur' len' out,
    0 ≤ mid ≤ UINT64_MAX → 0 ≤ len →
    chained P start acc mid →
    fill_iovecs os slots mid len acc = Some (cur', len', out) →
    (length out ≤ length acc + slots)%nat
    ∧ chained P start out cur'
    ∧ cur' - mid = len - len'
    ∧ 0 ≤ len'
    ∧ cur' ≤ UINT64_MAX
    ∧ (len' = 0 ∨ length out = (length acc + slots)%nat).
Proof.
  pose proof pagesize_bounds as Hps. rewrite pagesize_pow in Hps.
  induction slots as [|slots IH]; intros start mid len acc cur' len' out
    Hmid Hlen Hacc; cbn [fill_iovecs].
  { intros [= <- <- <-]. split; [lia|]. split; [done|]. split; [lia|].
    split; [lia|]. split; [lia|]. right. lia. }
  destruct (Z.ltb_spec 0 len) as [Hpos|Hzero].
  2:{ intros [= <- <- <-]. split; [lia|]. split; [done|]. split; [lia|].
      split; [lia|]. split; [lia|]. left. lia. }
  unfold UINTPTR_MAX.
  destruct (Z.leb_spec UINT64_MAX mid) as [|Hlt]; [done|].
  rewrite pagesize_pow, land_page_mask by lia.
  pose proof (Z.mod_pos_bound mid P ltac:(lia)) as Hmod.
  rewrite sub64_small by lia.
  set (iov_len := Z.min (P - mid mod P) len).
  unfold add_overflow.
  destruct (Z.ltb_spec UINT64_MAX (mid + iov_len)) as [|Hfit]; [done|].
  rewrite wrap64_small by lia.
  intros Hrest.
  apply (IH start) in Hrest; [|lia|lia|apply chained_app; (done || lia)].
  rewrite length_app in Hrest. simpl in Hrest.
  destruct Hrest as (H1 & H2 & H3 & H4 & H5 & H6).
  split; [lia|]. split; [done|]. split; [lia|]. split; [done|].
  split; [lia|]. destruct H6; [by left | right; lia].
Qed.

(** The inner loop gives up only when the request runs past the last
    address. *)
Lemma fill_iovecs_EFAULT slots :
  ∀ mid len acc,
    0 ≤ mid → fill_iovecs os slots mid len acc = None →
    UINT64_MAX < mid + len.
Proof.
  pose proof pagesize_bounds as Hps. rewrite pagesize_pow in Hps.
  induction slots as [|slots IH]; intros mid len acc Hmid; cbn [fill_iovecs];
    [done|].
  destruct (Z.ltb_spec 0 len) as [Hpos|Hzero]; [|done].
  unfold UINTPTR_MAX.
  destruct (Z.leb_spec UINT64_MAX mid) as [|Hlt]; [lia|].
  rewrite pagesize_pow, land_page_mask by lia.
  pose proof (Z.mod_pos_bound mid P ltac:(lia)) as Hmod.
  rewrite sub64_small by lia.
  set (iov_len := Z.min (P - mid mod P) len).
  unfold add_overflow.
  destruct (Z.ltb_spec UINT64_MAX (mid + iov_len)) as [|Hfit]; [lia|].
  rewrite wrap64_small by lia.
  intros Hrest. apply IH in Hrest; lia.
Qed.

(** X13.  One round of descriptors of [ProcessVmRead], for a page size
    that is a power of two: at most 64 descriptors, which follow one
    another from [cur] on without gap, each non-empty and inside one page;
    together they cover the bytes taken off [len], and the round stops
    short of the whole request only when all 64 are used.  The round ends
    in [EFAULT] only for a request that runs past the last address. *)
Theorem X13_iovecs_split_at_page_boundaries (cur len : Z) :
  0 ≤ cur ≤ UINT64_MAX → 0 ≤ len →
  match fill_iovecs os kMaxIovecs cur len [] with
  | Some (cur', len', iovs) =>
    (length iovs ≤ 64)%nat
    ∧ chained (Kernel.getpagesize os) cur iovs cur'
    ∧ cur' = cur + (len - len')
    ∧ 0 ≤ len' ≤ len
    ∧ cur' ≤ UINT64_MAX
    ∧ (len' = 0 ∨ length iovs = 64%nat)
  | None => UINT64_MAX < cur + len
  end.
Proof.
  intros Hcur Hlen.
  destruct (fill_iovecs os kMaxIovecs cur len []) as [[[cur' len'] iovs]|]
    eqn:Hfill.
  - rewrite pagesize_pow.
    destruct (fill_iovecs_chained kMaxIovecs cur cur len [] cur' len' iovs
                Hcur Hlen eq_refl Hfill) as (H1 & H2 & H3 & H4 & H5 & H6).
    destruct (gather_chained (λ _, x00) P iovs cur cur' H2) as [Hle _].
    simpl in H1, H6. unfold kMaxIovecs in H1, H6.
    split; [done|]. split; [done|]. split; [lia|]. split; [lia|].
    split; [done|]. done.
  - apply fill_iovecs_EFAULT in Hfill; lia.
Qed.

Variable mem : Z → byte.
Hypothesis transfers : transfers_memory os mem.

Lemma ProcessVmRead_loop_transfers fuel :
  ∀ pid cur len total_read dst (s : Sys W),
    0 ≤ cur → 0 ≤ len → cur + len ≤ UINT64_MAX → len ≤ Z.of_nat fuel →
    ProcessVmRead_loop os fuel pid cur len total_read dst s =
      ((total_read + len, dst ++ bytes_at mem cur len), s).
Proof.
  induction fuel as [|fuel IH]; intros pid cur len total_read dst s
    Hcur Hlen Hfit Hfuel; cbn [ProcessVmRead_loop].
  { replace len with 0 by lia. rewrite Z.add_0_r. unfold bytes_at. simpl.
    by rewrite app_nil_r. }
  destruct (Z.ltb_spec 0 len) as [Hpos|Hzero].
  2:{ replace len with 0 by lia. rewrite Z.add_0_r. unfold bytes_at. simpl.
      by rewrite app_nil_r. }
  destruct (fill_iovecs os kMaxIovecs cur len []) as [[[cur' len'] iovs]|]
    eqn:Hfill.
  2:{ apply fill_iovecs_EFAULT in Hfill; lia. }
  pose proof (fill_iovecs_progress os pagesize_bounds _ _ _ _ _ _ Hpos Hfill)
    as Hless.
  destruct (fill_iovecs_chained kMaxIovecs cur cur len [] cur' len' iovs
              ltac:(lia) Hlen eq_refl Hfill) as (_ & Hchain & Hsum & Hlen' & _).
  destruct (gather_chained mem P iovs cur cur' Hchain) as [Hle Hgather].
  rewrite transfers, Hgather.
  rewrite take_ge by (pose proof (bytes_at_length mem cur (cur' - cur)); lia).
  rewrite bytes_at_length by lia.
  replace (set_world (world s) s) with s by (by destruct s).
  rewrite IH by lia.
  remember (cur' - cur) as n eqn:Hn.
  replace cur' with (cur + n) by lia.
  rewrite <- app_assoc, bytes_at_add by lia.
  replace (n + len') with len by lia.
  by replace (total_read + n + len') with (total_read + len) by lia.
Qed.

Lemma ProcessVmRead_transfers pid remote_src len (s : Sys W) :
  0 ≤ remote_src → 0 ≤ len → remote_src + len ≤ UINT64_MAX →
  ProcessVmRead os pid remote_src len s =
    ((len, bytes_at mem remote_src len),
     log_call (CallProcessVmRead pid remote_src len) s).
Proof.
  intros Hsrc Hlen Hfit. unfold ProcessVmRead.
  rewrite ProcessVmRead_loop_transfers by lia. by rewrite Z.add_0_l.
Qed.

(** X14.  [ProcessVmRead] over a kernel that transfers what the remote
    descriptors designate: a request that ends within the address space
    returns all [len] bytes of the target's memory at [remote_src],
    however many pages and rounds of 64 descriptors it takes, and touches
    nothing but the log. *)
Theorem X14_ProcessVmRead_reads_the_whole_request pid remote_src len
    (s : Sys W) :
  0 ≤ remote_src → 0 ≤ len → remote_src + len ≤ UINT64_MAX →
  copied (ProcessVmRead os pid remote_src len s).1 = len
  ∧ dst_bytes (ProcessVmRead os pid remote_src len s).1
    = bytes_at mem remote_src len
  ∧ (ProcessVmRead os pid remote_src len s).2
    = log_call (CallProcessVmRead pid remote_src len) s.
Proof.
  intros Hsrc Hlen Hfit. by rewrite ProcessVmRead_transfers.
Qed.
End BulkDescriptors.

Lemma X13_iovecs_split_at_page_boundaries_witness :
  match fill_iovecs Samples.cooperative kMaxIovecs 4090 20 [] with
  | Some (cur', len', iovs) =>
    (length iovs ≤ 64)%nat
    ∧ chained (Kernel.getpagesize Samples.cooperative) 4090 iovs cur'
    ∧ cur' = 4090 + (20 - len')
    ∧ 0 ≤ len' ≤ 20
    ∧ cur' ≤ UINT64_MAX
    ∧ (len' = 0 ∨ length iovs = 64%nat)
  | None => UINT64_MAX < 4090 + 20
  end.
Proof.
  apply (X13_iovecs_split_at_page_boundaries Samples.cooperative 12
           ltac:(lia) eq_refl 4090 20); unfold UINT64_MAX; lia.
Defined.

Lemma X14_ProcessVmRead_reads_the_whole_request_witness :
  copied (ProcessVmRead Samples.cooperative 7 4090 20 (Samples.start tt)).1 = 20
  ∧ dst_bytes (ProcessVmRead Samples.cooperative 7 4090 20 (Samples.start tt)).1
    = bytes_at Samples.counting 4090 20
  ∧ (ProcessVmRead Samples.cooperative 7 4090 20 (Samples.start tt)).2
    = log_call (CallProcessVmRead 7 4090 20) (Samples.start tt).
Proof.
  apply (X14_ProcessVmRead_reads_the_whole_request Samples.cooperative 12
           ltac:(lia) eq_refl Samples.counting).
  - intros pid local_len iovs w. reflexivity.
  - lia.
  - lia.
  - unfold UINT64_MAX. lia.
Defined.

(** ** Process memory, end to end *)

(** X15.  Over a kernel that transfers what the bulk call asks for,
    [MemoryRemote::Read] on an object that is not bound to the word route,
    and [MemoryLocal::Read], return all [size] bytes of the process's
    memory at [addr] for a non-empty request that ends within the address
    space; the remote object is bound to the bulk route afterwards and the
    word route was not entered. *)
Theorem X15_process_memory_reads_by_bulk_transfer {W : Type} (os : Kernel.t W)
    (k : Z) (mem : Z → byte) (m : MemoryRemote.t) (addr size : Z) (s : Sys W) :
  0 ≤ k < 64 → Kernel.getpagesize os = 2 ^ k →
  transfers_memory os mem →
  MemoryRemote.read_redirect_func_ m ≠ Some MemoryRemote.PtraceRead_func →
  0 ≤ addr → 0 < size → addr + size ≤ UINT64_MAX →
  MemoryRemote.Read os m addr size s =
    ((size, bytes_at mem addr size),
     (MemoryRemote.set_redirect m MemoryRemote.ProcessVmRead_func,
      log_call (CallProcessVmRead (MemoryRemote.pid_ m) addr size) s))
  ∧ MemoryLocal.Read os addr size s =
      (Returns (size, bytes_at mem addr size),
       log_call (CallProcessVmRead (Kernel.getpid os) addr size) s).
Proof.
  intros Hk Hpage Htransfers Hroute Haddr Hsize Hfit.
  pose proof (λ pid, ProcessVmRead_transfers os k Hk Hpage mem Htransfers
                       pid addr size s Haddr ltac:(lia) Hfit) as Hbulk.
  split.
  - unfold MemoryRemote.Read.
    destruct m as [pid [[]|]]; simpl in *; [| done |]; rewrite Hbulk.
    + done.
    + unfold copied. simpl. by rewrite (proj2 (Z.ltb_lt _ _)) by done.
  - unfold MemoryLocal.Read. rewrite Hbulk. unfold copied. simpl.
    by rewrite (proj2 (Z.eqb_neq size 0)) by lia.
Qed.

Lemma X15_process_memory_reads_by_bulk_transfer_witness :
  MemoryRemote.Read Samples.cooperative Samples.remote 4090 20 (Samples.start tt)
    = ((20, bytes_at Samples.counting 4090 20),
       (MemoryRemote.set_redirect Samples.remote MemoryRemote.ProcessVmRead_func,
        log_call (CallProcessVmRead 7 4090 20) (Samples.start tt)))
  ∧ MemoryLocal.Read Samples.cooperative 4090 20 (Samples.start tt)
    = (Returns (20, bytes_at Samples.counting 4090 20),
       log_call (CallProcessVmRead 100 4090 20) (Samples.start tt)).
Proof.
  apply (X15_process_memory_reads_by_bulk_transfer Samples.cooperative 12
           Samples.counting Samples.remote 4090 20 (Samples.start tt)).
  - lia.
  - reflexivity.
  - intros pid local_len iovs w. reflexivity.
  - discriminate.
  - lia.
  - lia.
  - unfold UINT64_MAX. lia.
Defined.

Lemma ProcessVmRead_refused {W : Type} (os : Kernel.t W) pid remote_src len
    (s : Sys W) :
  (∀ pid local_len iovs w,
     Kernel.process_vm_readv os pid local_len iovs w = (None, w)) →
  ProcessVmRead os pid remote_src len s =
    (no_read, log_call (CallProcessVmRead pid remote_src len) s).
Proof.
  intros Hrefused. unfold ProcessVmRead.
  set (s1 := log_call _ s).
  destruct (Z.to_nat len) as [|fuel]; cbn [ProcessVmRead_loop]; [done|].
  destruct (0 <? len); [|done].
  destruct (fill_iovecs os kMaxIovecs remote_src len [])
    as [[[cur' len'] iovs]|]; [|done].
  rewrite Hrefused. by destruct s1.
Qed.

(** X16.  On a system that refuses the bulk call and answers word reads
    from the target's memory, [MemoryRemote::Read] on an object that is not
    bound to the bulk route returns all [size] bytes of the target's memory
    at [addr], for a non-empty request over readable addresses that ends
    within the address space, and the object is bound to the word route
    afterwards. *)
Theorem X16_remote_read_falls_back_to_word_reads {W : Type} (os : Kernel.t W)
    (mem : Z → byte) (readable : Z → bool) (m : MemoryRemote.t)
    (addr size : Z) (s : Sys W) :
  (∀ pid local_len iovs w,
     Kernel.process_vm_readv os pid local_len iovs w = (None, w)) →
  peeks_memory os mem readable →
  MemoryRemote.read_redirect_func_ m ≠ Some MemoryRemote.ProcessVmRead_func →
  0 ≤ addr → 0 < size → addr + size ≤ UINT64_MAX →
  (∀ x, addr - addr mod 8 ≤ x < addr + size → readable x = true) →
  let r := MemoryRemote.Read os m addr size s in
  r.1 = (size, bytes_at mem addr size)
  ∧ r.2.1 = MemoryRemote.set_redirect m MemoryRemote.PtraceRead_func
  ∧ world r.2.2 = world s.
Proof.
  intros Hrefused Hpeeks Hroute Haddr Hsize Hfit Hreadable r. subst r.
  unfold MemoryRemote.Read.
  destruct m as [pid [[]|]]; simpl in *; [done | |].
  - destruct (PtraceRead_peeks os mem readable Hpeeks pid addr size s
                Haddr ltac:(lia) Hfit) as (n & Hn & -> & Hall).
    rewrite (Hall Hreadable). done.
  - rewrite ProcessVmRead_refused by done. simpl.
    destruct (PtraceRead_peeks os mem readable Hpeeks pid addr size
                (log_call (CallProcessVmRead pid addr size) s)
                Haddr ltac:(lia) Hfit) as (n & Hn & -> & Hall).
    rewrite (Hall Hreadable). unfold copied. simpl.
    by rewrite (proj2 (Z.ltb_lt _ _)) by done.
Qed.

Lemma X16_remote_read_falls_back_to_word_reads_witness :
  let r := MemoryRemote.Read Samples.ptrace_only Samples.remote 4099 13
             (Samples.start tt) in
  r.1 = (13, bytes_at (λ _, x2a) 4099 13)
  ∧ r.2.1 = MemoryRemote.set_redirect Samples.remote MemoryRemote.PtraceRead_func
  ∧ world r.2.2 = world (Samples.start tt).
Proof.
  apply (X16_remote_read_falls_back_to_word_reads Samples.ptrace_only
           (λ _, x2a) (λ _, true) Samples.remote 4099 13 (Samples.start tt)).
  - intros pid local_len iovs w. reflexivity.
  - intros pid a w. reflexivity.
  - discriminate.
  - lia.
  - lia.
  - unfold UINT64_MAX. lia.
  - reflexivity.
Defined.

(** ** The read contract through the wrappers *)

Section WrappersKeepTheContract.
Context {S : Type}.

Lemma no_read_in_contract (size : Z) :
  0 ≤ size →
  0 ≤ copied no_read ≤ size
  ∧ Z.of_nat (length (dst_bytes no_read)) = copied no_read.
Proof. intros Hsize. unfold no_read, copied, dst_bytes. simpl. lia. Qed.

Lemma MemoryRange_obeys_contract (r : MemoryRange.t S) :
  obeys_contract (MemoryRange.memory_ r) → obeys_contract (MemoryRange.Read r).
Proof.
  intros Hmem addr size s Haddr Hsize. unfold MemoryRange.Read.
  destruct (addr <? MemoryRange.offset_ r); [by apply no_read_in_contract|].
  pose proof (wrap64_range (addr - MemoryRange.offset_ r)) as Hoff.
  fold (sub64 addr (MemoryRange.offset_ r)) in Hoff.
  destruct (Z.leb_spec (MemoryRange.length_ r) (sub64 addr (MemoryRange.offset_ r)))
    as [|Hin]; [by apply no_read_in_contract|].
  unfold add_overflow.
  destruct (UINT64_MAX <? _); [by apply no_read_in_contract|].
  destruct (Hmem (wrap64 (sub64 addr (MemoryRange.offset_ r) + MemoryRange.begin_ r))
              (Z.min size (MemoryRange.length_ r - sub64 addr (MemoryRange.offset_ r)))
              s (wrap64_range _) ltac:(lia)) as [Hcount Hbytes].
  split; [lia | done].
Qed.

Lemma upper_bound_elem (addr : Z) (maps : MemoryRanges.maps_t S) e :
  MemoryRanges.upper_bound addr maps = Some e → e ∈ maps.
Proof.
  induction maps as [|[k v] rest IH]; simpl; [done|].
  destruct (addr <? k).
  - intros [= <-]. by left.
  - intros He. right. by apply IH.
Qed.

(** Whatever was inserted: an entry is an inserted range, under a key that
    is a 64-bit value. *)
Lemma inserted_entries (ranges : list (MemoryRange.t S)) :
  ∀ (m : MemoryRanges.t S) e,
    e ∈ MemoryRanges.maps_ (foldl MemoryRanges.Insert m ranges) →
    e ∈ MemoryRanges.maps_ m ∨ (e.2 ∈ ranges ∧ e.1 ≤ UINT64_MAX).
Proof.
  induction ranges as [|r ranges IH]; intros m e; simpl; [by left|].
  intros He. destruct (IH _ _ He) as [Hm|[Hin Hkey]].
  - unfold MemoryRanges.Insert, add_overflow in Hm.
    simpl in Hm. apply emplace_elem in Hm as [->|Hm]; [right|by left].
    split; [by left|]. simpl.
    destruct (UINT64_MAX <? _); [lia | apply wrap64_range].
  - right. split; [by right | done].
Qed.

(** X17.  The wrappers keep the read contract of what they wrap: a Range
    over a memory that copies at most [size] bytes and reports their
    number does so itself, and so do a range set, an offline snapshot and
    a list of offline snapshots built from such ranges. *)
Theorem X17_wrappers_keep_the_read_contract :
  (∀ r : MemoryRange.t S,
     obeys_contract (MemoryRange.memory_ r) → obeys_contract (MemoryRange.Read r))
  ∧ (∀ ranges : list (MemoryRange.t S),
       (∀ r, r ∈ ranges → obeys_contract (MemoryRange.memory_ r)) →
       obeys_contract (MemoryRanges.Read (MemoryRanges.inserted ranges)))
  ∧ (∀ parts : list (MemoryOffline.t S),
       (∀ m r, m ∈ parts → MemoryOffline.memory_ m = Some r →
          obeys_contract (MemoryRange.memory_ r)) →
       (∀ m, m ∈ parts → obeys_contract (MemoryOffline.Read m))
       ∧ obeys_contract (MemoryOfflineParts.Read (MemoryOfflineParts.mk parts))).
Proof.
  split; [exact MemoryRange_obeys_contract|]. split.
  - intros ranges Hranges addr size s Haddr Hsize. unfold MemoryRanges.Read.
    destruct (MemoryRanges.upper_bound addr _) as [e|] eqn:Hub;
      [|by apply no_read_in_contract].
    apply upper_bound_elem in Hub.
    apply inserted_entries in Hub as [Hub|[Hin _]];
      [by apply elem_of_nil in Hub|].
    by apply MemoryRange_obeys_contract; [apply Hranges|..].
  - intros parts Hparts.
    assert (∀ m, m ∈ parts → obeys_contract (MemoryOffline.Read m)) as Hoffline.
    { intros m Hm addr size s Haddr Hsize. unfold MemoryOffline.Read.
      destruct (MemoryOffline.memory_ m) as [r|] eqn:Hr;
        [|by apply no_read_in_contract].
      by apply MemoryRange_obeys_contract; [eapply Hparts|..]. }
    split; [done|].
    intros addr size s Haddr Hsize. rewrite MemoryOfflineParts_Read_is_loop.
    clear Hparts. revert s.
    induction parts as [|m parts IH]; intros s; simpl;
      [by apply no_read_in_contract|].
    pose proof (Hoffline m ltac:(by left) addr size s Haddr Hsize) as Hm.
    destruct (MemoryOffline.Read m addr size s) as [[bytes data] s'].
    destruct (bytes =? 0); [|done].
    apply IH. intros m' Hm'. apply Hoffline. by right.
Qed.

(** X18.  A range set never serves the last address of the address space:
    every key is at most [UINT64_MAX], also the clamped key of a range
    whose end overflows, so no key lies above that address and the read
    returns 0 whatever ranges were inserted. *)
Theorem X18_range_set_never_serves_the_last_address
    (ranges : list (MemoryRange.t S)) (size : Z) (s : S) :
  MemoryRanges.Read (MemoryRanges.inserted ranges) UINT64_MAX size s
    = (no_read, s).
Proof.
  unfold MemoryRanges.Read.
  assert (MemoryRanges.upper_bound UINT64_MAX
            (MemoryRanges.maps_ (MemoryRanges.inserted ranges)) = None) as ->;
    [|done].
  apply upper_bound_None. intros e He.
  apply inserted_entries in He as [He|[_ Hkey]]; [|done].
  by apply elem_of_nil in He.
Qed.
End WrappersKeepTheContract.

(** ** Repeating a cached read *)

Section CacheHits.
Context {S : Type}.
Variable kCacheBits : Z.
Variable impl_ : Reader S.

Local Notation find_or_fill := (MemoryCacheBase.find_or_fill kCacheBits impl_).
Local Notation InternalCachedRead :=
  (MemoryCacheBase.InternalCachedRead kCacheBits impl_).

(** After the page step the map holds the page exactly when the step
    handed it back. *)
Lemma find_or_fill_lookup addr_page (cache : gmap Z (list byte)) (s : S) :
  (find_or_fill addr_page cache s).2.1 !! addr_page
    = (find_or_fill addr_page cache s).1.
Proof.
  unfold MemoryCacheBase.find_or_fill.
  destruct (cache !! addr_page) as [cache_dst|] eqn:Hlook; [done|].
  destruct (Memory.ReadFully _ _ _ _) as [[[] bytes] s1]; simpl.
  - by rewrite lookup_insert_eq.
  - by rewrite lookup_delete_eq.
Qed.

Lemma find_or_fill_hit addr_page (cache : gmap Z (list byte)) (s : S) cache_dst :
  cache !! addr_page = Some cache_dst →
  find_or_fill addr_page cache s = (Some cache_dst, (cache, s)).
Proof. intros Hlook. unfold MemoryCacheBase.find_or_fill. by rewrite Hlook. Qed.

Lemma next_page_differs (p : Z) : add64 p 1 ≠ p.
Proof.
  unfold add64, wrap64. intros Heq.
  pose proof (Z.mod_pos_bound (p + 1) (2 ^ 64) ltac:(lia)) as Hrange.
  pose proof (Z.div_mod (p + 1) (2 ^ 64) ltac:(lia)) as Hdm.
  rewrite Heq in Hdm. lia.
Qed.

(** X19.  Once the pages a request needs are in the map after a cached
    read, repeating the request gives the same answer, leaves the map as
    it is, and does not touch the wrapped source: the answer no longer
    depends on the state of the source. *)
Theorem X19_repeated_cached_read_is_a_hit (addr size : Z)
    (cache : gmap Z (list byte)) (s s' : S) :
  let r := InternalCachedRead addr size cache s in
  let addr_page := Z.shiftr addr kCacheBits in
  let max_read := sub64 (shl64 (addr_page + 1) kCacheBits) addr in
  is_Some (r.2.1 !! addr_page) →
  (max_read < size → is_Some (r.2.1 !! add64 addr_page 1)) →
  InternalCachedRead addr size r.2.1 s' = (r.1, (r.2.1, s')).
Proof.
  intros r addr_page max_read. subst r.
  unfold MemoryCacheBase.InternalCachedRead. fold addr_page. fold max_read.
  pose proof (find_or_fill_lookup addr_page cache s) as Hfirst.
  destruct (find_or_fill addr_page cache s) as [[page1|] [cache1 s1]];
    simpl in Hfirst.
  2:{ destruct (impl_ addr size s1) as [r s2]. simpl.
      rewrite Hfirst. by intros [? [=]]. }
  destruct (Z.leb_spec size max_read) as [Hone|Htwo]; simpl.
  { intros _ _. by rewrite (find_or_fill_hit _ _ _ page1) by done. }
  pose proof (find_or_fill_lookup (add64 addr_page 1) cache1 s1) as Hsecond.
  pose proof (find_or_fill_other kCacheBits impl_ (add64 addr_page 1) cache1 s1
                addr_page ltac:(intros Heq; by apply (next_page_differs addr_page)))
    as Hkept.
  destruct (find_or_fill (add64 addr_page 1) cache1 s1)
    as [[page2|] [cache2 s2]]; simpl in Hsecond, Hkept.
  2:{ destruct (impl_ _ _ s2) as [[bytes data] s3]. simpl.
      intros _ Hnext. specialize (Hnext Htwo). rewrite Hsecond in Hnext.
      by destruct Hnext as [? [=]]. }
  simpl. intros _ _.
  rewrite (find_or_fill_hit _ _ _ page1) by (by rewrite Hkept).
  by rewrite (find_or_fill_hit _ _ _ page2) by done.
Qed.
End CacheHits.

Lemma X19_repeated_cached_read_is_a_hit_witness :
  let impl_ := MemoryBuffer.reader (S:=unit) Samples.page_and_a_bit in
  let r := MemoryCacheBase.InternalCachedRead 12 impl_ 10 20 ∅ tt in
  MemoryCacheBase.InternalCachedRead 12 impl_ 10 20 r.2.1 tt = (r.1, (r.2.1, tt)).
Proof.
  intros impl_ r.
  apply (X19_repeated_cached_read_is_a_hit 12 impl_ 10 20 ∅ tt tt).
  - eexists. reflexivity.
  - intros Hlt. by vm_compute in Hlt.
Defined.

(** ** Bulk reads that stop early *)

Lemma take_bytes_at (mem : Z → byte) (a m : Z) (n : nat) :
  0 ≤ m → take n (bytes_at mem a m) = bytes_at mem a (Z.min (Z.of_nat n) m).
Proof.
  intros Hm. unfold bytes_at. rewrite <- fmap_take, take_seq.
  do 2 f_equal. lia.
Qed.

Section PartialBulkTransfers.
Context {W : Type}.
Variable os : Kernel.t W.
Variable k : Z.
Variable mem : Z → byte.
Hypothesis bits_range : 0 ≤ k < 64.
Hypothesis pagesize_pow : Kernel.getpagesize os = 2 ^ k.
Hypothesis partial : transfers_partially os mem.

Local Notation P := (2 ^ k).

Lemma fill_iovecs_done slots cur acc :
  fill_iovecs os slots cur 0 acc = Some (cur, 0, acc).
Proof. by destruct slots. Qed.

(** The descriptors of one round reach the end of a request that spans
    no more pages than there are descriptors. *)
Lemma fill_iovecs_covers slots :
  ∀ mid len acc cur' len' out,
    0 ≤ mid → 0 ≤ len →
    mid mod P + len ≤ Z.of_nat slots * P →
    fill_iovecs os slots mid len acc = Some (cur', len', out) →
    len' = 0.
Proof.
  pose proof (pagesize_bounds os k bits_range pagesize_pow) as Hps.
  rewrite pagesize_pow in Hps.
  induction slots as [|slots IH]; intros mid len acc cur' len' out
    Hmid Hlen Hspan; cbn [fill_iovecs].
  { pose proof (Z.mod_pos_bound mid P ltac:(lia)). intros [= <- <- <-]. lia. }
  pose proof (Z.mod_pos_bound mid P ltac:(lia)) as Hmod.
  destruct (Z.ltb_spec 0 len) as [Hpos|Hzero]; [|intros [= <- <- <-]; lia].
  unfold UINTPTR_MAX.
  destruct (Z.leb_spec UINT64_MAX mid) as [|Hlt]; [done|].
  rewrite pagesize_pow, land_page_mask by lia.
  rewrite sub64_small by lia.
  unfold add_overflow.
  destruct (Z.ltb_spec UINT64_MAX (mid + Z.min (P - mid mod P) len))
    as [|Hfit]; [done|].
  rewrite wrap64_small by lia.
  destruct (Z.le_gt_cases len (P - mid mod P)) as [Hlast|Hmore].
  - rewrite Z.min_r by lia. rewrite Z.sub_diag, fill_iovecs_done.
    by intros [= <- <- <-].
  - rewrite Z.min_l by lia. apply IH; [lia|lia|].
    pose proof (Z.div_mod mid P ltac:(lia)) as Hdm.
    replace (mid + (P - mid mod P)) with ((mid / P + 1) * P) by lia.
    rewrite Z.mod_mul by lia. lia.
Qed.

(** X20.  [ProcessVmRead] over a kernel whose bulk call may stop early or
    fail: a request that ends within the address space and spans at most
    64 pages, so that one round of descriptors covers it, returns a prefix
    of the target's memory at [remote_src], of the length it reports. *)
Theorem X20_ProcessVmRead_returns_a_prefix pid remote_src len (s : Sys W) :
  0 ≤ remote_src → 0 ≤ len → remote_src + len ≤ UINT64_MAX →
  remote_src mod 2 ^ k + len ≤ 64 * 2 ^ k →
  let r := ProcessVmRead os pid remote_src len s in
  0 ≤ copied r.1 ≤ len
  ∧ dst_bytes r.1 = bytes_at mem remote_src (copied r.1)
  ∧ r.2 = log_call (CallProcessVmRead pid remote_src len) s.
Proof.
  intros Hsrc Hlen Hfit Hspan r. subst r. unfold ProcessVmRead.
  set (s1 := log_call _ s).
  destruct (Z.to_nat len) as [|fuel] eqn:Hfuel; cbn [ProcessVmRead_loop].
  { unfold copied, dst_bytes. simpl. split; [lia | done]. }
  rewrite (proj2 (Z.ltb_lt 0 len)) by lia.
  destruct (fill_iovecs os kMaxIovecs remote_src len [])
    as [[[cur' len'] iovs]|] eqn:Hfill.
  2:{ apply (fill_iovecs_EFAULT os k bits_range pagesize_pow) in Hfill; lia. }
  pose proof (fill_iovecs_covers kMaxIovecs _ _ _ _ _ _ Hsrc Hlen Hspan Hfill)
    as ->.
  destruct (fill_iovecs_chained os k bits_range pagesize_pow kMaxIovecs
              remote_src remote_src len [] cur' 0 iovs
              ltac:(lia) Hlen eq_refl Hfill) as (_ & Hchain & Hsum & _).
  destruct (gather_chained mem P iovs remote_src cur' Hchain) as [_ Hgather].
  replace (set_world (world s1) s1) with s1 by (by destruct s1).
  destruct (partial pid len iovs (world s1)) as [-> | [n ->]].
  { replace (set_world (world s1) s1) with s1 by (by destruct s1).
    unfold copied, dst_bytes. simpl. split; [lia | done]. }
  replace (set_world (world s1) s1) with s1 by (by destruct s1).
  rewrite Hgather, take_bytes_at by lia.
  replace (cur' - remote_src) with len by lia.
  pose proof (bytes_at_length mem remote_src (Z.min (Z.of_nat n) len)
                ltac:(lia)) as Hcount.
  assert (∀ total dst,
            ProcessVmRead_loop os fuel pid cur' 0 total dst s1
            = ((total, dst), s1)) as ->.
  { intros total dst. by destruct fuel. }
  unfold copied, dst_bytes. simpl. rewrite Hcount.
  split; [lia | done].
Qed.
End PartialBulkTransfers.

Lemma X20_ProcessVmRead_returns_a_prefix_witness :
  let r := ProcessVmRead Samples.first_descriptor_only 7 4090 20
             (Samples.start tt) in
  0 ≤ copied r.1 ≤ 20
  ∧ dst_bytes r.1 = bytes_at Samples.counting 4090 (copied r.1)
  ∧ r.2 = log_call (CallProcessVmRead 7 4090 20) (Samples.start tt).
Proof.
  apply (X20_ProcessVmRead_returns_a_prefix Samples.first_descriptor_only 12
           Samples.counting ltac:(lia) eq_refl).
  - intros pid local_len iovs w. right. eexists. reflexivity.
  - lia.
  - lia.
  - unfold UINT64_MAX. lia.
  - by vm_compute.
Defined.

(** ** The factory of process memory *)

(** X21.  The object [CreateProcessMemory(pid)] hands out reads the
    process asked for: its [Read] enters the bulk route for [pid] first,
    on either branch of the factory, and may enter the word route for
    [pid] after it; the object made for the calling process itself never
    enters the word route. *)
Theorem X21_CreateProcessMemory_reads_the_process_asked_for {W : Type}
    (os : Kernel.t W) (pid addr size : Z) (s : Sys W) :
  let r := ProcessMemory_Read os (CreateProcessMemory os pid) addr size s in
  (calls r.2.2 = calls s ++ [CallProcessVmRead pid addr size]
   ∨ calls r.2.2 = calls s ++ [CallProcessVmRead pid addr size;
                               CallPtraceRead pid addr size])
  ∧ (pid = Kernel.getpid os →
     calls r.2.2 = calls s ++ [CallProcessVmRead pid addr size]).
Proof.
  intros r. subst r. unfold CreateProcessMemory, ProcessMemory_Read.
  destruct (Z.eqb_spec pid (Kernel.getpid os)) as [->|Hother].
  - unfold MemoryLocal.Read.
    pose proof (ProcessVmRead_calls os (Kernel.getpid os) addr size s) as Hlog.
    destruct (ProcessVmRead os (Kernel.getpid os) addr size s) as [result s'].
    simpl in Hlog.
    assert (calls (let '(r, s'0) :=
                     if (copied result =? 0) && negb (size =? 0)
                     then
                       match own_bytes os (world s') addr size with
                       | Some bytes => (Returns (size, bytes), s')
                       | None => (Faults, s')
                       end
                     else (Returns result, s') in (r, (LocalMemory, s'0))).2.2
            = calls s ++ [CallProcessVmRead (Kernel.getpid os) addr size]) as Hcalls.
    { destruct ((copied result =? 0) && negb (size =? 0)); [|done].
      by destruct (own_bytes os (world s') addr size). }
    split; [by left | done].
  - split; [|done]. unfold MemoryRemote.Read, MemoryRemote.create. simpl.
    pose proof (ProcessVmRead_calls os pid addr size s) as Hlog.
    destruct (ProcessVmRead os pid addr size s) as [bytes s1]. simpl in Hlog.
    destruct (0 <? copied bytes); simpl; [by left|].
    pose proof (PtraceRead_calls os pid addr size s1) as Hlog2.
    destruct (PtraceRead os pid addr size s1) as [bytes2 s2]. simpl in Hlog2.
    right. rewrite Hlog in Hlog2. rewrite <- app_assoc in Hlog2.
    by destruct (0 <? copied bytes2).
Qed.
